(** * radix-router: a shallow embedding of [src/index.ts] and its properties

    The router keeps one character trie per HTTP method.  Registration
    ([RadixRouter.#register]) validates its arguments and extends the trie of
    the method ([Tree.#buildTree]); lookup ([RadixRouter.lookup]) strips one
    trailing slash, walks the trie ([Tree.#traverseForHandler]) and calls
    either the handler found or the not-found handler.

    Conventions of the embedding.
    - A JavaScript string is a list of characters, so that [slice] and
      [indexOf] are list operations; literals are written as Rocq strings
      and coerced.
    - An object used as a dictionary is a [gmap] of its own properties.  An
      object literal also inherits the members of [Object.prototype]; where
      a key can be the name of one of them the inherited member is written
      out: in the read [this.#treeByMethod[method]] ([readTreeByMethod]) and
      in the assignment [parsedParams[name] = value] ([setProperty]).  The
      maps of a trie are never read with such a name: the root is read with
      one character of the path, only [/] is ever stored there, and below
      the root every key starts with that slash.
    - The source mutates the trie in place; here every operation returns the
      new value of what it mutates, and a call that throws returns the state
      it leaves behind.
    - Loops recurse on a fuel argument and return [None] / [OutOfFuel] when it
      is exhausted; the callers pass a fuel that is proved sufficient
      ([parseParams_is_Some], [Tree_build_Returned], [Tree_traverse_is_Some]). *)

From Stdlib Require Import Ascii.
From Stdlib Require String.
From stdpp Require Import gmap strings list fin_maps.

(** ** Strings *)

Abbreviation JsString := (list ascii).

Coercion String.list_ascii_of_string : string >-> list.

(** [s.slice(start, end)] for non-negative arguments: both are clamped to
    the length and an empty string results when [end <= start]. *)
Definition slice (start end_ : nat) (s : JsString) : JsString :=
  take (end_ - start) (drop start s).

(** First index of [c] in [s], if any. *)
Fixpoint indexOfChar (c : ascii) (s : JsString) : option nat :=
  match s with
  | [] => None
  | x :: s' => if decide (x = c) then Some 0 else S <$> indexOfChar c s'
  end.

(** [s.indexOf(c, position)] for a one-character [c]; [None] stands for the
    result [-1]. *)
Definition indexOf (c : ascii) (position : nat) (s : JsString) : option nat :=
  (λ k, position + k) <$> indexOfChar c (drop position s).

(** [s.startsWith(c)] and [s.endsWith(c)] for a one-character [c]. *)
Definition startsWith (c : ascii) (s : JsString) : bool :=
  bool_decide (head s = Some c).

Definition endsWith (c : ascii) (s : JsString) : bool :=
  bool_decide (last s = Some c).

(** ** Values, errors and completions *)

(** A handler is an opaque function value; [noopFn] is the module's
    [const noopFn = () => { }]. *)
Inductive Handler : Type :=
  | noopFn
  | userFn (id : nat).

Global Instance Handler_eq_dec : EqDecision Handler.
Proof. solve_decision. Defined.

(** The values a caller can pass where the signature says [Path] or
    [Handler] (the test-suite passes [123 as any]). *)
Inductive JsValue : Type :=
  | JsUndefined
  | JsNull
  | JsBoolean (b : bool)
  | JsNumber (z : Z)
  | JsStr (s : JsString)
  | JsFunction (f : Handler)
  | JsObject.

Definition typeOf (v : JsValue) : string :=
  match v with
  | JsUndefined => "undefined"
  | JsNull => "object"
  | JsBoolean _ => "boolean"
  | JsNumber _ => "number"
  | JsStr _ => "string"
  | JsFunction _ => "function"
  | JsObject => "object"
  end.

Inductive Error : Type :=
  | AssertionError (message : string)
  | TypeError (message : string).

(** How a call ends: it returns, it throws, or the model ran out of fuel. *)
Inductive Completion (A : Type) : Type :=
  | Returned (a : A)
  | Thrown (e : Error)
  | OutOfFuel.
Arguments Returned {A} a.
Arguments Thrown {A} e.
Arguments OutOfFuel {A}.

(** ** class Param, class Params *)

Record Param : Type := mkParam {
  name : JsString;
  startIndex : nat;
  endIndex : nat
}.

(** The scan both [Params.#parseParams] and [Tree.#traverseForHandler] do to
    find where a parameter ends: [indexOf('/', from)], when that is [-1]
    [indexOf('?', from)], when that is [-1] too the length of the path. *)
Definition paramEndIndex (path : JsString) (from : nat) : nat :=
  match indexOf "/" from path with
  | Some e => e
  | None =>
      match indexOf "?" from path with
      | Some e => e
      | None => length path
      end
  end.

(** The loop of [Params.#parseParams]; [foundParams] is the array built so
    far.  The loop goes on while [0 < path.indexOf(':', nextParamEndIndex)]. *)
Fixpoint parseParamsLoop (fuel : nat) (path : JsString)
    (nextParamEndIndex : nat) (foundParams : list Param) : option (list Param) :=
  match fuel with
  | 0 => None
  | S fuel' =>
      match indexOf ":" nextParamEndIndex path with
      | Some nextParamStartIndex =>
          if decide (0 < nextParamStartIndex) then
            let nextParamEndIndex' := paramEndIndex path nextParamStartIndex in
            let paramName := slice (nextParamStartIndex + 1) nextParamEndIndex' path in
            parseParamsLoop fuel' path nextParamEndIndex'
              (foundParams ++ [mkParam paramName nextParamStartIndex nextParamEndIndex'])
          else Some foundParams
      | None => Some foundParams
      end
  end.

(** [new Params(path)]: the found parameters. *)
Definition parseParams (path : JsString) : option (list Param) :=
  parseParamsLoop (S (length path)) path 0 [].

(** [Params.getAtPathIndex]: [Array.prototype.find] on the start index;
    [hasAtPathIndex] is whether this is not [undefined]. *)
Definition getAtPathIndex (foundParams : list Param) (index : nat) : option Param :=
  snd <$> list_find (λ p, startIndex p = index) foundParams.

(** [Params.hasAtPathIndex]: [Boolean(this.getAtPathIndex(index))]. *)
Definition hasAtPathIndex (foundParams : list Param) (index : nat) : bool :=
  bool_decide (is_Some (getAtPathIndex foundParams index)).

(** ** class Node, class Leaf, class Tree *)

(** A [Node] object; [leafHandler = Some h] says that the object is an
    instance of [Leaf] with [handler = h]. *)
#[warnings="-register-all"] Inductive Node : Type := mkNode {
  pathFragment : JsString;
  childTree : gmap JsString Node;
  param : option Param;
  leafHandler : option Handler
}.

Abbreviation NodeByPathFragment := (gmap JsString Node).

Definition setParam (node : Node) (p : Param) : Node :=
  mkNode (pathFragment node) (childTree node) (Some p) (leafHandler node).

Definition setChildTree (node : Node) (t : NodeByPathFragment) : Node :=
  mkNode (pathFragment node) t (param node) (leafHandler node).

(** [isLeaf ? new Leaf(pathFragment, handler) : new Node(pathFragment)] with
    [isLeaf = (i === path.length)]. *)
Definition newNode (i : nat) (path pathFragment : JsString) (handler : Handler) : Node :=
  if decide (i = length path)
  then mkNode pathFragment ∅ None (Some handler)
  else mkNode pathFragment ∅ None None.

(** The first statement of the loop body of [Tree.#buildTree], for an
    iteration in which [node] is defined: when a parameter starts at [i] it
    is stored in [node] (the node of the previous iteration) and cut out of
    the path. *)
Definition attachParam (foundParams : list Param) (i : nat) (path : JsString)
    (node : Node) : Node * JsString :=
  match getAtPathIndex foundParams i with
  | Some p => (setParam node p, slice 0 i path ++ slice (endIndex p) (length path) path)
  | None => (node, path)
  end.

(** [node = tree[pathFragment]; if (!node) { node = ...; tree[pathFragment] = node }] *)
Definition childOrNew (tree : NodeByPathFragment) (i : nat) (path : JsString)
    (handler : Handler) : Node :=
  let pathFragment := slice 0 i path in
  match tree !! pathFragment with
  | Some node => node
  | None => newNode i path pathFragment handler
  end.

(** The loop of [Tree.#buildTree] from an iteration [i] in which [node], the
    node of iteration [i - 1], is defined and [tree] is its [childTree].
    The result is [node] after the rest of the loop has run. *)
Fixpoint buildLoop (fuel : nat) (foundParams : list Param) (handler : Handler)
    (i : nat) (path : JsString) (node : Node) : option Node :=
  match fuel with
  | 0 => None
  | S fuel' =>
      if decide (i ≤ length path) then
        let '(node, path) := attachParam foundParams i path node in
        let child := childOrNew (childTree node) i path handler in
        child' ← buildLoop fuel' foundParams handler (i + 1) path child;
        Some (setChildTree node (<[slice 0 i path := child']> (childTree node)))
      else Some node
  end.

Record Tree : Type := mkTree {
  nodeByPathFragment : NodeByPathFragment
}.

(** [new Tree()] *)
Definition Tree_new : Tree := mkTree ∅.

(** [Tree.build] / [Tree.#buildTree].  In the first iteration ([i = 1]) the
    variable [node] is still [undefined]: a parameter starting at index 1
    makes [node.param = param] throw before anything is changed. The second
    component is the tree the call leaves behind. *)
Definition Tree_build (tree : Tree) (path : JsString) (handler : Handler)
    : Completion unit * Tree :=
  match parseParams path with
  | None => (OutOfFuel, tree)
  | Some foundParams =>
      if decide (1 ≤ length path) then
        match getAtPathIndex foundParams 1 with
        | Some _ =>
            (Thrown (TypeError "Cannot set properties of undefined (setting 'param')"), tree)
        | None =>
            let child := childOrNew (nodeByPathFragment tree) 1 path handler in
            match buildLoop (length path) foundParams handler 2 path child with
            | Some child' =>
                (Returned (), mkTree (<[slice 0 1 path := child']> (nodeByPathFragment tree)))
            | None => (OutOfFuel, tree)
            end
        end
      else (Returned (), tree)
  end.

(** [type ParsedParams = Record<string, string>]: the own properties of the
    object literal [{}]. *)
Abbreviation ParsedParams := (gmap JsString JsString).

(** [parsedParams[key] = value] on an object created by [{}]: the assignment
    defines an own property, except for the key [__proto__], which is the
    accessor inherited from [Object.prototype]; its setter ignores a value
    that is not an object. *)
Definition setProperty (key value : JsString) (o : ParsedParams) : ParsedParams :=
  if decide (key = "__proto__") then o else <[key := value]> o.

(** The parameter branch of the loop body of [Tree.#traverseForHandler]:
    the value runs from [i + 1] to [paramEndIndex]; it is recorded and cut
    out of the path. *)
Definition captureParam (p : Param) (i : nat) (path : JsString)
    (parsedParams : ParsedParams) : JsString * ParsedParams :=
  let nextPosition := i + 1 in
  let paramValueEndIndex := paramEndIndex path nextPosition in
  let paramValue := slice nextPosition paramValueEndIndex path in
  (slice 0 (i + 1) path ++ slice paramValueEndIndex (length path) path,
   setProperty (name p) paramValue parsedParams).

(** The loop of [Tree.#traverseForHandler].  The state is the one of the
    source: the cursor [i], the (shrinking) [path], the current map, the
    variable [node] ([None] is [undefined]) and the parameters parsed so far.
    The result is the value of [node] and [parsedParams] after the loop.  A
    [childTree] is always an object, so the second [break] cannot be taken. *)
Fixpoint traverseLoop (fuel : nat) (i : nat) (path : JsString)
    (nodeByPathFragment : NodeByPathFragment) (node : option Node)
    (parsedParams : ParsedParams) : option (option Node * ParsedParams) :=
  match fuel with
  | 0 => None
  | S fuel' =>
      if decide (i ≤ length path) then
        match nodeByPathFragment !! slice 0 i path with
        | None => Some (None, parsedParams)
        | Some node' =>
            let '(path', parsedParams') :=
              match param node' with
              | Some p => captureParam p i path parsedParams
              | None => (path, parsedParams)
              end in
            traverseLoop fuel' (i + 1) path' (childTree node') (Some node') parsedParams'
        end
      else Some (node, parsedParams)
  end.

Record TraverseResult : Type := mkTraverseResult {
  handler : Handler;
  parsedParams : ParsedParams
}.

(** [if (node instanceof Leaf) return { handler: node.handler, parsedParams };
    return undefined] *)
Definition leafResult (r : option Node * ParsedParams) : option TraverseResult :=
  match r.1 with
  | Some node => (λ h, mkTraverseResult h r.2) <$> leafHandler node
  | None => None
  end.

(** [Tree.traverse] / [Tree.#traverseForHandler]: [None] is out of fuel,
    [Some None] is the result [undefined]. *)
Definition Tree_traverse (tree : Tree) (path : JsString) : option (option TraverseResult) :=
  leafResult <$> traverseLoop (S (length path)) 1 path (nodeByPathFragment tree) None ∅.

(** ** class RadixRouter *)

Abbreviation Method := string.

Record RadixRouter : Type := mkRouter {
  treeByMethod : gmap Method Tree;
  notFondHandler : Handler
}.

(** [new RadixRouter(notFoundCb)]: [notFoundCb ?? noopFn]. *)
Definition RadixRouter_new (notFoundCb : option Handler) : RadixRouter :=
  mkRouter ∅ (default noopFn notFoundCb).

(** The property names every object literal inherits from
    [Object.prototype]; each of them reads as a truthy value (a function,
    or the prototype object for [__proto__]). *)
Definition objectPrototypeKeys : list string :=
  [ "constructor"; "hasOwnProperty"; "isPrototypeOf"; "propertyIsEnumerable";
    "toLocaleString"; "toString"; "valueOf"; "__proto__";
    "__defineGetter__"; "__defineSetter__"; "__lookupGetter__"; "__lookupSetter__" ].

(** What [this.#treeByMethod[method]] evaluates to. *)
Inductive MethodSlot : Type :=
  | OwnTree (tree : Tree)
  | InheritedMember
  | NoTree.

Definition readTreeByMethod (st : RadixRouter) (method : Method) : MethodSlot :=
  match treeByMethod st !! method with
  | Some tree => OwnTree tree
  | None => if bool_decide (method ∈ objectPrototypeKeys) then InheritedMember else NoTree
  end.

Definition setTree (st : RadixRouter) (method : Method) (tree : Tree) : RadixRouter :=
  mkRouter (<[method := tree]> (treeByMethod st)) (notFondHandler st).

(** [#clearPath] *)
Definition clearPath (path : JsString) : JsString :=
  if bool_decide (1 < length path) && endsWith "/" path
  then slice 0 (length path - 1) path
  else path.

(** [RadixRouter.#traverseForHandler]: an inherited member is truthy and has
    no [traverse] method, so calling it throws. *)
Definition RadixRouter_traverseForHandler (st : RadixRouter) (method : Method)
    (path : JsString) : Completion (option TraverseResult) :=
  match readTreeByMethod st method with
  | OwnTree tree =>
      match Tree_traverse tree path with
      | Some r => Returned r
      | None => OutOfFuel
      end
  | InheritedMember => Thrown (TypeError "tree.traverse is not a function")
  | NoTree => Returned None
  end.

(** One call of a handler: the function called and its argument
    ([None] is [undefined]). *)
Record Invocation : Type := mkInvocation {
  callee : Handler;
  argument : option ParsedParams
}.

(** [handler = traversedResult?.handler ?? this.#notFondHandler;
    handler(traversedResult?.parsedParams)]: the calls made. *)
Definition dispatch (st : RadixRouter) (traversedResult : option TraverseResult)
    : list Invocation :=
  match traversedResult with
  | Some r => [mkInvocation (handler r) (Some (parsedParams r))]
  | None => [mkInvocation (notFondHandler st) None]
  end.

(** The part of [lookup] after [#clearPath]. *)
Definition resolve (st : RadixRouter) (method : Method) (clearedPath : JsString)
    : Completion (list Invocation) :=
  match RadixRouter_traverseForHandler st method clearedPath with
  | Returned traversedResult => Returned (dispatch st traversedResult)
  | Thrown e => Thrown e
  | OutOfFuel => OutOfFuel
  end.

(** [RadixRouter.lookup]: the handler invocations it performs. *)
Definition lookup (st : RadixRouter) (method : Method) (path : JsString)
    : Completion (list Invocation) :=
  resolve st method (clearPath path).

(** [#validatePath]: the string when every assertion holds, else the error
    of the first assertion that fails. *)
Definition validatePath (path : JsValue) : Error + JsString :=
  match path with
  | JsStr s =>
      if negb (startsWith "/" s) then inl (AssertionError "path must start with /")
      else if bool_decide (1 < length s) && endsWith "/" s
        then inl (AssertionError "path can't end with /")
      else if endsWith ":" s then inl (AssertionError "path can't end with :")
      else inr s
  | _ => inl (AssertionError "path must be a string")
  end.

(** [#validateHandler] *)
Definition validateHandler (handler : JsValue) : Error + Handler :=
  match handler with
  | JsFunction f => inr f
  | _ => inl (AssertionError "handler must be a function")
  end.

(** [RadixRouter.#buildTree]: the tree of the method is created and stored
    before [tree.build] runs; an inherited member is truthy, is not replaced
    and has no [build] method. *)
Definition RadixRouter_buildTree (st : RadixRouter) (method : Method)
    (path : JsString) (handler : Handler) : Completion unit * RadixRouter :=
  match readTreeByMethod st method with
  | OwnTree tree =>
      let '(c, tree') := Tree_build tree path handler in
      (c, setTree st method tree')
  | InheritedMember => (Thrown (TypeError "tree.build is not a function"), st)
  | NoTree =>
      let '(c, tree') := Tree_build Tree_new path handler in
      (c, setTree st method tree')
  end.

(** [RadixRouter.#register] *)
Definition register (st : RadixRouter) (method : Method) (path handler : JsValue)
    : Completion unit * RadixRouter :=
  match validatePath path with
  | inl e => (Thrown e, st)
  | inr p =>
      match validateHandler handler with
      | inl e => (Thrown e, st)
      | inr h => RadixRouter_buildTree st method p h
      end
  end.

(** [RadixRouter.get] *)
Definition get (st : RadixRouter) (path handler : JsValue) : Completion unit * RadixRouter :=
  register st "GET" path handler.

(** ** Vocabulary of the properties *)

(** What [Params.#parseParams] guarantees of every descriptor: it starts
    after the first character, on a colon, and ends after its start. *)
Definition wfParam (path : JsString) (p : Param) : Prop :=
  0 < startIndex p ∧ startIndex p < endIndex p ∧ path !! startIndex p = Some ":"%char.

(** The tree [tree.build] runs on: the one of the method, or a new one. *)
Definition treeOf (st : RadixRouter) (method : Method) : Tree :=
  default Tree_new (treeByMethod st !! method).

(** The root map seen as the child map of a node, so that [buildLoop] can
    start from the root. *)
Definition rootNode (tree : Tree) : Node := mkNode [] (nodeByPathFragment tree) None None.

(** No node of the subtree carries a parameter descriptor. *)
Inductive NoParam : Node → Prop :=
  | NoParam_intro frag ct lh :
      (∀ k c, ct !! k = Some c → NoParam c) → NoParam (mkNode frag ct None lh).

Definition NoParamMap (m : NodeByPathFragment) : Prop :=
  ∀ k c, m !! k = Some c → NoParam c.

(** The kind of node a walk ends on: [None] when it ends on no node,
    [Some None] on a plain node, [Some (Some h)] on a leaf holding [h]. *)
Definition kindOf (r : option Node * ParsedParams) : option (option Handler) :=
  leafHandler <$> r.1.

(** The node building [q] with [h] adds under the fragment [p], if it is not
    there yet: a leaf for [q] itself, a plain node for a shorter prefix. *)
Definition addedKind (p q : JsString) (h : Handler) : option (option Handler) :=
  if decide (p `prefix_of` q) then Some (if decide (p = q) then Some h else None) else None.

(** What is there stays; what is added shows where nothing was. *)
Definition mergeKind (old new : option (option Handler)) : option (option Handler) :=
  match old with
  | Some k => Some k
  | None => new
  end.

(** The kind of node the traversal of [p] ends on in [tree]. *)
Definition kindAt (tree : Tree) (p : JsString) : option (option Handler) :=
  traverseLoop (S (length p)) 1 p (nodeByPathFragment tree) None ∅ ≫= kindOf.

(** What one more path adds to the kinds: nothing under the empty string. *)
Definition addedAt (p q : JsString) (h : Handler) : option (option Handler) :=
  if decide (p = []) then None else addedKind p q h.

(** A call [register(method, path, handler)] with a string and a function. *)
Record Registration : Type := mkReg {
  regMethod : Method;
  regPath : JsString;
  regHandler : Handler
}.

Global Instance Registration_eq_dec : EqDecision Registration.
Proof. solve_decision. Defined.

(** The router after a sequence of registrations that all returned. *)
Fixpoint registerAll (st : RadixRouter) (rs : list Registration) : option RadixRouter :=
  match rs with
  | [] => Some st
  | mkReg m p h :: rs' =>
      match register st m (JsStr p) (JsFunction h) with
      | (Returned _, st') => registerAll st' rs'
      | _ => None
      end
  end.

(** The registrations of one method, in order. *)
Fixpoint pathsOf (m : Method) (rs : list Registration) : list (JsString * Handler) :=
  match rs with
  | [] => []
  | mkReg m' q h :: rs' => if decide (m' = m) then (q, h) :: pathsOf m rs' else pathsOf m rs'
  end.

(** The kind of node under [p] after building the paths [regs] in order:
    the first path that has [p] as a prefix decides. *)
Fixpoint specKind (regs : list (JsString * Handler)) (p : JsString)
    : option (option Handler) :=
  match regs with
  | [] => None
  | (q, h) :: regs' => mergeKind (addedAt p q h) (specKind regs' p)
  end.

(** The trie of method [m] holds no parameter and has the nodes of [regs]. *)
Definition trieInv (m : Method) (st : RadixRouter) (regs : list (JsString * Handler)) : Prop :=
  NoParamMap (nodeByPathFragment (treeOf st m)) ∧
  ∀ p, kindAt (treeOf st m) p = specKind regs p.

(** The call [lookup] makes when the traversal ends on a node of kind [k]
    with no parameter parsed. *)
Definition invocationOf (st : RadixRouter) (k : option (option Handler)) : list Invocation :=
  match k with
  | Some (Some h) => [mkInvocation h (Some ∅)]
  | _ => [mkInvocation (notFondHandler st) None]
  end.

(** [k] is the first index at or after [from] at which [path] has [c]. *)
Definition firstIndexFrom (c : ascii) (from : nat) (path : JsString) (k : nat) : Prop :=
  from ≤ k ∧ path !! k = Some c ∧ ∀ j, from ≤ j < k → path !! j ≠ Some c.

(** [path] has no [c] at or after [from]. *)
Definition noneFrom (c : ascii) (from : nat) (path : JsString) : Prop :=
  ∀ j, from ≤ j → path !! j ≠ Some c.

(** Where a parameter value that starts at [from] ends: at the first slash,
    else at the first question mark, else at the end of the path. *)
Definition valueBoundary (path : JsString) (from e : nat) : Prop :=
  firstIndexFrom "/" from path e
  ∨ (noneFrom "/" from path ∧ firstIndexFrom "?" from path e)
  ∨ (noneFrom "/" from path ∧ noneFrom "?" from path ∧ e = length path).

(** [register] throws an assertion error. *)
Definition rejected {S : Type} (r : Completion unit * S) : Prop :=
  ∃ message, r.1 = Thrown (AssertionError message).

(** The arguments [#validatePath] and [#validateHandler] refuse. *)
Definition invalidArguments (path h : JsValue) : Prop :=
  typeOf path ≠ "string"
  ∨ (∃ s, path = JsStr s
       ∧ (head s ≠ Some "/"%char
          ∨ (1 < length s ∧ last s = Some "/"%char)
          ∨ last s = Some ":"%char))
  ∨ typeOf h ≠ "function".

(** The router a new router becomes by the registrations [rs], when all of
    them return. *)
Definition routerAfter (rs : list Registration) : RadixRouter :=
  default (RadixRouter_new None) (registerAll (RadixRouter_new None) rs).

(** A pattern made of a literal prefix and one parameter, the descriptor
    [Params] finds in it, and the leaf [Tree.build] makes for it. *)
Definition paramPattern (pre nm : JsString) : JsString := pre ++ ":"%char :: nm.

Definition patternParam (pre nm : JsString) : Param :=
  mkParam nm (length pre) (length (paramPattern pre nm)).


(** What [Params.#parseParams] records in a descriptor of [path]: it starts
    after the first character, on a colon; it ends where the scan of
    [paramEndIndex] from the colon stops, inside the path; and its name is
    the text between the colon and that end. *)
Definition descriptorOf (path : JsString) (p : Param) : Prop :=
  0 < startIndex p
  ∧ path !! startIndex p = Some ":"%char
  ∧ startIndex p < endIndex p ≤ length path
  ∧ valueBoundary path (startIndex p) (endIndex p)
  ∧ name p = slice (startIndex p + 1) (endIndex p) path.

(** The descriptors are in the order of the path and do not overlap. *)
Definition inOrder (ps : list Param) : Prop :=
  ∀ i j p q, ps !! i = Some p → ps !! j = Some q → i < j → endIndex p ≤ startIndex q.

(** Every colon of [path] before [bound] lies in the span of a descriptor. *)
Definition coveredUpTo (path : JsString) (ps : list Param) (bound : nat) : Prop :=
  ∀ j, j < bound → path !! j = Some ":"%char →
    ∃ p, p ∈ ps ∧ startIndex p ≤ j < endIndex p.

(** [P] holds of every node of the subtree: of the key it is stored under,
    of its descriptor and of its handler ([None] where the node has none). *)
Inductive NodeAll (P : JsString → option Param → option Handler → Prop)
    : JsString → Node → Prop :=
  | NodeAll_intro key frag ct pr lh :
      P key pr lh → (∀ k c, ct !! k = Some c → NodeAll P k c) →
      NodeAll P key (mkNode frag ct pr lh).

Definition NodeAllMap (P : JsString → option Param → option Handler → Prop)
    (m : NodeByPathFragment) : Prop :=
  ∀ k c, m !! k = Some c → NodeAll P k c.

(** The handler of a leaf is one of [H]; the name of a descriptor is one of
    [Q]; a leaf has a colon in its key or a handler of [H]. *)
Definition handlersIn (H : Handler → Prop)
    (key : JsString) (pr : option Param) (lh : option Handler) : Prop :=
  ∀ h, lh = Some h → H h.

Definition namesIn (Q : JsString → Prop)
    (key : JsString) (pr : option Param) (lh : option Handler) : Prop :=
  ∀ d, pr = Some d → Q (name d).

Definition colonOrIn (H : Handler → Prop)
    (key : JsString) (pr : option Param) (lh : option Handler) : Prop :=
  ∀ h, lh = Some h → ":"%char ∈ key ∨ H h.

(** [h] is registered under [m] with a path that has at most one
    descriptor. *)
Definition registeredSimply (m : Method) (rs : list Registration) (h : Handler) : Prop :=
  ∃ q ps, mkReg m q h ∈ rs ∧ parseParams q = Some ps ∧ length ps ≤ 1.

(** [k] is the name of a descriptor of a path registered under [m]. *)
Definition paramNameOf (m : Method) (rs : list Registration) (k : JsString) : Prop :=
  ∃ q g ps d, mkReg m q g ∈ rs ∧ parseParams q = Some ps ∧ d ∈ ps ∧ name d = k.

(** Every property of the parameter object has a name of [Q], other than
    [__proto__], and a value without slash. *)
Definition paramsIn (Q : JsString → Prop) (pp : ParsedParams) : Prop :=
  ∀ k v, pp !! k = Some v → Q k ∧ k ≠ ("__proto__" : JsString) ∧ "/"%char ∉ v.

(** The routers a program can have in hand: a new one, and what a call of
    [register] (through [get] or not, returning or throwing) leaves of one. *)
Inductive reachable : RadixRouter → Prop :=
  | reachable_new notFoundCb : reachable (RadixRouter_new notFoundCb)
  | reachable_register st m path h :
      reachable st → reachable (register st m path h).2.

(** The root map of the trie has no key but the slash. *)
Definition rootKeys (tree : Tree) : Prop :=
  ∀ k c, nodeByPathFragment tree !! k = Some c → k = ["/"%char].

(** Among the registrations of one method no path is a prefix of the path of
    another registration, nor registered twice. *)
Definition prefixFree (rs : list Registration) : Prop :=
  Forall (λ r1,
    Forall (λ r2, regMethod r1 = regMethod r2 →
                  regPath r1 `prefix_of` regPath r2 → r1 = r2) rs) rs.

(** A pattern with one parameter: a literal prefix, the parameter, and a
    literal suffix (empty, or the following segments). *)
Definition routePattern (pre nm suf : JsString) : JsString := paramPattern pre nm ++ suf.

(** What stands between the prefix and the suffix in a request. *)
Definition routeValue (pre suf r : JsString) : JsString :=
  take (length r - length pre - length suf) (drop (length pre) r).

(** The request [r] is the prefix, a value without slash (the value may be
    empty) and the suffix; when the suffix is empty the value has no question
    mark either. *)
Definition matchesRoute (pre suf r : JsString) : Prop :=
  r = pre ++ routeValue pre suf r ++ suf
  ∧ ("/"%char ∉ routeValue pre suf r)
  ∧ (suf = [] → "?"%char ∉ routeValue pre suf r).

Global Instance matchesRoute_dec pre suf r : Decision (matchesRoute pre suf r).
Proof. unfold matchesRoute. apply _. Defined.

(** A node without children, descriptor and handler, as [new Node(...)]
    makes it. *)
Definition freshNode : Node := mkNode [] ∅ None None.

(** The nodes [Tree.build] hangs under [node] for a pattern with one
    parameter, seen from the iteration that has [k] characters of the
    prefix left: one plain node per character of the prefix; the node
    before the last character of the prefix holds the descriptor, and what
    hangs under it is what the loop builds for the collapsed pattern (prefix
    and suffix) from there on. *)
Fixpoint isRoute (pre nm collapsed : JsString) (h : Handler) (k : nat) (node : Node) : Prop :=
  match k with
  | 0 =>
      (∃ d, param node = Some d ∧ name d = nm)
      ∧ ∃ t, buildLoop (S (length collapsed)) [] h (length pre) collapsed freshNode = Some t
           ∧ childTree node = childTree t
  | S k' =>
      ∃ c, childTree node = {[ take (length pre - S k') pre := c ]}
        ∧ leafHandler c = None
        ∧ (k' ≠ 0 → param c = None)
        ∧ isRoute pre nm collapsed h k' c
  end.

(** [n'] is [n''] but for the descriptor [d], which the node under the key
    [pre] less its last character holds in [n'], [k] levels below. *)
Fixpoint sameButParam (pre : JsString) (d : Param) (k : nat) (n' n'' : Node) : Prop :=
  match k with
  | 0 => n' = setParam n'' d
  | S k' =>
      ∃ c' c'', childTree n'' !! take (length pre - S k') pre = Some c''
        ∧ n' = setChildTree n'' (<[take (length pre - S k') pre := c']> (childTree n''))
        ∧ sameButParam pre d k' c' c''
  end.

(** What [Tree.#traverseForHandler] makes of a request [x] on its way
    through the node that holds the descriptor of a pattern with the prefix
    [pre]: when the request begins with the prefix less its last character,
    the loop comes to the node and runs its parameter branch there; otherwise
    it never sees the node, and path and parameters stay as they are. *)
Definition throughParam (pre nm x : JsString) (pp : ParsedParams)
    : JsString * ParsedParams :=
  if decide (take (length pre - 1) pre `prefix_of` x)
  then captureParam (patternParam pre nm) (length pre - 1) x pp
  else (x, pp).

(** ** Example routers *)

(** [/ab] is registered before its prefix [/a]. *)
Definition regs_ab_a : list Registration :=
  [mkReg "GET" "/ab" (userFn 1); mkReg "GET" "/a" (userFn 2)].

(** The prefix [/a] is registered before [/ab]; another method has a route
    with a parameter. *)
Definition regs_a_ab : list Registration :=
  [mkReg "GET" "/a" (userFn 1); mkReg "POST" "/x/:id" (userFn 3);
   mkReg "GET" "/ab" (userFn 2)].

(** [/a] is registered twice. *)
Definition regs_a_a : list Registration :=
  [mkReg "GET" "/a" (userFn 1); mkReg "GET" "/a" (userFn 2)].

(** A pattern and a literal path it matches, in both orders. *)
Definition regs_id_42 : list Registration :=
  [mkReg "GET" "/items/:id" (userFn 1); mkReg "GET" "/items/42" (userFn 2)].

Definition regs_42_id : list Registration :=
  [mkReg "GET" "/items/42" (userFn 2); mkReg "GET" "/items/:id" (userFn 1)].

(** [/a] and [/a/b]; a single pattern; [/ab] next to a pattern of another
    method. *)
Definition regs_a_a_b : list Registration :=
  [mkReg "GET" "/a" (userFn 1); mkReg "GET" "/a/b" (userFn 2)].

Definition regs_items_id : list Registration :=
  [mkReg "GET" "/items/:id" (userFn 1)].



Definition regs_x_ab : list Registration :=
  [mkReg "POST" "/x/:id" (userFn 3); mkReg "GET" "/ab" (userFn 1)].

(** Two routes of which neither is a prefix of the other, in both orders. *)
Definition regs_a_b : list Registration :=
  [mkReg "GET" "/a" (userFn 1); mkReg "GET" "/b" (userFn 2)].

Definition regs_b_a : list Registration :=
  [mkReg "GET" "/b" (userFn 2); mkReg "GET" "/a" (userFn 1)].

(** Two patterns that differ in the name of the parameter only. *)
Definition regs_id_name : list Registration :=
  [mkReg "GET" "/items/:id" (userFn 1); mkReg "GET" "/items/:name" (userFn 2)].

(** A path with two parameters and the descriptors [Params] finds in it. *)
Definition path_x_y : JsString := "/a/:x/b/:y".

Definition params_x_y : list Param := [mkParam "x" 3 5; mkParam "y" 8 10].

(** A pattern with the parameter in the middle. *)
Definition regs_users_posts : list Registration :=
  [mkReg "GET" "/users/:id/posts" (userFn 1)].

(** A pattern with two parameters next to a pattern with one. *)
Definition regs_x_y_id : list Registration :=
  [mkReg "GET" "/a/:x/b/:y" (userFn 1); mkReg "GET" "/items/:id" (userFn 2)].

(** ** Strings: what [slice] and [indexOf] compute *)

Section strings.
Implicit Types (s path : JsString) (c : ascii).

Lemma slice_0 i s : slice 0 i s = take i s.
Proof. unfold slice. by rewrite Nat.sub_0_r, drop_0. Qed.

Lemma slice_to_end e s : slice e (length s) s = drop e s.
Proof. unfold slice. apply take_ge. rewrite length_drop. lia. Qed.

Lemma slice_lookup a b s j :
  slice a b s !! j = if decide (j < b - a) then s !! (a + j) else None.
Proof.
  unfold slice. case_decide.
  - by rewrite lookup_take_lt, lookup_drop.
  - apply lookup_take_ge. lia.
Qed.

Lemma length_slice_0 i s : i ≤ length s → length (slice 0 i s) = i.
Proof. intros. rewrite slice_0, length_take. lia. Qed.

Lemma indexOfChar_Some c s k :
  indexOfChar c s = Some k → s !! k = Some c ∧ ∀ j, j < k → s !! j ≠ Some c.
Proof.
  revert k. induction s as [|x s IH]; intros k; simpl; [done|].
  case_decide as Hx.
  - intros [= <-]. split; [by subst|]. lia.
  - destruct (indexOfChar c s) as [k'|] eqn:E; simpl; [|done].
    intros [= <-]. destruct (IH k' eq_refl) as [H1 H2]. split; [done|].
    intros [|j] Hj; simpl; [congruence|]. apply H2. lia.
Qed.

Lemma indexOfChar_None c s : indexOfChar c s = None ↔ c ∉ s.
Proof.
  induction s as [|x s IH]; simpl.
  - split; [intros _; apply not_elem_of_nil|done].
  - case_decide as Hx.
    + split; [done|]. intros []. subst. left.
    + rewrite not_elem_of_cons, <- IH, fmap_None.
      split; [intros ?; split; [congruence|done]|by intros [_ ?]].
Qed.

Lemma indexOf_Some c pos s k :
  indexOf c pos s = Some k →
  pos ≤ k ∧ s !! k = Some c ∧ ∀ j, pos ≤ j < k → s !! j ≠ Some c.
Proof.
  unfold indexOf. destruct (indexOfChar c (drop pos s)) as [k'|] eqn:E; simpl; [|done].
  intros [= <-]. apply indexOfChar_Some in E as [H1 H2].
  rewrite lookup_drop in H1. split; [lia|]. split; [done|].
  intros j Hj. specialize (H2 (j - pos)). rewrite lookup_drop in H2.
  replace (pos + (j - pos)) with j in H2 by lia. apply H2. lia.
Qed.

Lemma indexOf_None c pos s :
  indexOf c pos s = None ↔ ∀ j, pos ≤ j → s !! j ≠ Some c.
Proof.
  unfold indexOf. rewrite fmap_None, indexOfChar_None. split.
  - intros Hn j Hj Hs. apply Hn. apply list_elem_of_lookup. exists (j - pos).
    rewrite lookup_drop. by replace (pos + (j - pos)) with j by lia.
  - intros Hn [j Hj]%list_elem_of_lookup. rewrite lookup_drop in Hj.
    by apply (Hn (pos + j)); [lia|].
Qed.

Lemma indexOf_lt c pos s k : indexOf c pos s = Some k → k < length s.
Proof. intros (_ & H & _)%indexOf_Some. by eapply lookup_lt_Some. Qed.

Lemma indexOf_absent c pos s : c ∉ s → indexOf c pos s = None.
Proof.
  intros Hc. apply indexOf_None. intros j _ Hj. apply Hc.
  apply list_elem_of_lookup. eauto.
Qed.

Lemma paramEndIndex_le path from : paramEndIndex path from ≤ length path.
Proof.
  unfold paramEndIndex.
  destruct (indexOf "/" from path) eqn:E1; [apply indexOf_lt in E1; lia|].
  destruct (indexOf "?" from path) eqn:E2; [apply indexOf_lt in E2; lia|]. done.
Qed.

Lemma paramEndIndex_ge path from : from ≤ length path → from ≤ paramEndIndex path from.
Proof.
  unfold paramEndIndex. intros.
  destruct (indexOf "/" from path) eqn:E1; [apply indexOf_Some in E1; lia|].
  destruct (indexOf "?" from path) eqn:E2; [apply indexOf_Some in E2; lia|]. done.
Qed.

Lemma paramEndIndex_beyond path from : length path ≤ from → paramEndIndex path from = length path.
Proof.
  intros. unfold paramEndIndex.
  destruct (indexOf "/" from path) eqn:E1; [apply indexOf_Some in E1 as (?&?%lookup_lt_Some&_); lia|].
  destruct (indexOf "?" from path) eqn:E2; [apply indexOf_Some in E2 as (?&?%lookup_lt_Some&_); lia|].
  done.
Qed.

Lemma paramEndIndex_colon path from :
  path !! from = Some ":"%char → from < paramEndIndex path from.
Proof.
  intros Hc. pose proof (lookup_lt_Some _ _ _ Hc).
  unfold paramEndIndex.
  destruct (indexOf "/" from path) as [e|] eqn:E1.
  { apply indexOf_Some in E1 as (? & He & _).
    destruct (decide (e = from)) as [->|]; [congruence|lia]. }
  destruct (indexOf "?" from path) as [e|] eqn:E2; [|done].
  apply indexOf_Some in E2 as (? & He & _).
  destruct (decide (e = from)) as [->|]; [congruence|lia].
Qed.
End strings.

(** ** Termination: the fuel the callers pass is enough *)

Lemma parseParamsLoop_is_Some fuel path from acc :
  length path - from < fuel → is_Some (parseParamsLoop fuel path from acc).
Proof.
  revert from acc. induction fuel as [|fuel IH]; intros from acc Hf; [lia|]. simpl.
  destruct (indexOf ":" from path) as [s|] eqn:E; [|done].
  case_decide; [|done].
  apply indexOf_Some in E as (? & Hs & _).
  pose proof (paramEndIndex_colon _ _ Hs). pose proof (lookup_lt_Some _ _ _ Hs).
  apply IH. lia.
Qed.

Lemma parseParams_is_Some path : is_Some (parseParams path).
Proof. apply parseParamsLoop_is_Some. lia. Qed.

Lemma parseParamsLoop_wf fuel path from acc ps :
  Forall (wfParam path) acc →
  parseParamsLoop fuel path from acc = Some ps → Forall (wfParam path) ps.
Proof.
  revert from acc. induction fuel as [|fuel IH]; intros from acc Hacc; [done|]. simpl.
  destruct (indexOf ":" from path) as [s|] eqn:E; [|by intros [= <-]].
  case_decide; [|by intros [= <-]].
  apply indexOf_Some in E as (? & Hs & _).
  apply IH. apply Forall_app. split; [done|].
  apply Forall_singleton. split_and!; simpl; [done| |done].
  by apply paramEndIndex_colon.
Qed.

Lemma parseParams_wf path ps : parseParams path = Some ps → Forall (wfParam path) ps.
Proof. by apply parseParamsLoop_wf. Qed.

(** A path without a colon has no parameters. *)
Lemma parseParams_no_colon path : ":"%char ∉ path → parseParams path = Some [].
Proof. intros Hc. unfold parseParams. simpl. by rewrite indexOf_absent. Qed.

Lemma getAtPathIndex_Some ps i p :
  getAtPathIndex ps i = Some p → p ∈ ps ∧ startIndex p = i.
Proof.
  unfold getAtPathIndex. intros ([k q] & Hf & ->)%fmap_Some.
  apply list_find_Some in Hf as (Hk & Hq & _). simpl.
  split; [|done]. apply list_elem_of_lookup. eauto.
Qed.

Lemma getAtPathIndex_colon path ps i p :
  parseParams path = Some ps → getAtPathIndex ps i = Some p →
  path !! i = Some ":"%char ∧ i < endIndex p.
Proof.
  intros Hps%parseParams_wf [Hin <-]%getAtPathIndex_Some.
  rewrite Forall_forall in Hps. destruct (Hps p Hin) as (? & ? & ?). done.
Qed.

Lemma attachParam_length ps i path node :
  Forall (λ p, startIndex p < endIndex p) ps → i ≤ length path →
  i ≤ length (attachParam ps i path node).2 ≤ length path.
Proof.
  intros Hps Hi. unfold attachParam.
  destruct (getAtPathIndex ps i) as [p|] eqn:E; simpl; [|lia].
  apply getAtPathIndex_Some in E as [Hin <-].
  rewrite Forall_forall in Hps. specialize (Hps p Hin).
  rewrite length_app, slice_to_end, length_slice_0, length_drop by done. lia.
Qed.

Lemma buildLoop_is_Some fuel ps h i path node :
  Forall (λ p, startIndex p < endIndex p) ps →
  length path + 1 - i < fuel → is_Some (buildLoop fuel ps h i path node).
Proof.
  intros Hps. revert i path node.
  induction fuel as [|fuel IH]; intros i path node Hf; simpl; [lia|].
  case_decide as Hi; [|done].
  pose proof (attachParam_length ps i path node Hps Hi) as Hlen.
  destruct (attachParam ps i path node) as [node1 path1]. simpl in Hlen.
  destruct (IH (i + 1) path1 (childOrNew (childTree node1) i path1 h)) as [c ->]; [lia|].
  done.
Qed.

Lemma captureParam_length p i path pp :
  i ≤ length path →
  i ≤ length (captureParam p i path pp).1 ≤ length path.
Proof.
  intros Hi. unfold captureParam. simpl.
  rewrite length_app, slice_to_end, slice_0, length_take, length_drop.
  destruct (decide (i + 1 ≤ length path)).
  - pose proof (paramEndIndex_ge path (i + 1)). lia.
  - rewrite paramEndIndex_beyond by lia. lia.
Qed.

Lemma traverseLoop_is_Some fuel i path m nv pp :
  length path + 1 - i < fuel → is_Some (traverseLoop fuel i path m nv pp).
Proof.
  revert i path m nv pp.
  induction fuel as [|fuel IH]; intros i path m nv pp Hf; simpl; [lia|].
  case_decide as Hi; [|done].
  destruct (m !! slice 0 i path) as [n|]; [|done].
  destruct (param n) as [p|].
  - pose proof (captureParam_length p i path pp Hi) as Hlen.
    destruct (captureParam p i path pp) as [path1 pp1]. apply IH. simpl in Hlen. lia.
  - apply IH. lia.
Qed.

Lemma Tree_traverse_is_Some tree path : is_Some (Tree_traverse tree path).
Proof.
  unfold Tree_traverse. apply fmap_is_Some, traverseLoop_is_Some. lia.
Qed.

(** ** The router state across [register] *)

Lemma readTreeByMethod_setTree_eq st m tree :
  readTreeByMethod (setTree st m tree) m = OwnTree tree.
Proof. unfold readTreeByMethod, setTree. simpl. by rewrite lookup_insert_eq. Qed.

Lemma readTreeByMethod_setTree_ne st m m' tree :
  m ≠ m' → readTreeByMethod (setTree st m tree) m' = readTreeByMethod st m'.
Proof. intros. unfold readTreeByMethod, setTree. simpl. by rewrite lookup_insert_ne. Qed.

Lemma setTree_setTree st m t1 t2 : setTree (setTree st m t1) m t2 = setTree st m t2.
Proof. unfold setTree. simpl. by rewrite insert_insert_eq. Qed.

(** A registration that returns ran [Tree.build] to its end on the tree of
    the method, and stored nothing but its result. *)
Lemma register_Returned st m p h st' :
  register st m (JsStr p) (JsFunction h) = (Returned (), st') →
  validatePath (JsStr p) = inr p ∧
  ∃ tree', Tree_build (treeOf st m) p h = (Returned (), tree') ∧ st' = setTree st m tree'.
Proof.
  unfold register, treeOf. destruct (validatePath (JsStr p)) as [e|p'] eqn:Ev; [by intros [=]|].
  assert (p' = p) as ->.
  { simpl in Ev. repeat case_match; congruence. }
  simpl. unfold RadixRouter_buildTree, readTreeByMethod.
  destruct (treeByMethod st !! m) as [tree|] eqn:Et; simpl.
  - destruct (Tree_build tree p h) as [c tree'] eqn:Eb. intros [= -> <-]. eauto.
  - case_bool_decide; [by intros [=]|].
    destruct (Tree_build Tree_new p h) as [c tree'] eqn:Eb. intros [= -> <-]. eauto.
Qed.

Lemma register_setTree st m p h tree' :
  validatePath (JsStr p) = inr p →
  bool_decide (m ∈ objectPrototypeKeys) = false ∨ is_Some (treeByMethod st !! m) →
  Tree_build (treeOf st m) p h = (Returned (), tree') →
  register st m (JsStr p) (JsFunction h) = (Returned (), setTree st m tree').
Proof.
  intros Hv Hm Hb. unfold register. rewrite Hv. simpl.
  unfold RadixRouter_buildTree, readTreeByMethod. unfold treeOf in Hb.
  destruct (treeByMethod st !! m) as [tree|] eqn:Et; simpl in *.
  - by rewrite Hb.
  - destruct Hm as [->|[? [=]]]. by rewrite Hb.
Qed.

(** What a path that passed [#validatePath] looks like. *)
Lemma validatePath_inr v p :
  validatePath v = inr p →
  v = JsStr p ∧ head p = Some "/"%char ∧ (1 < length p → last p ≠ Some "/"%char)
  ∧ last p ≠ Some ":"%char.
Proof.
  destruct v; simpl; try done. unfold startsWith, endsWith.
  repeat case_bool_decide; simpl; try done.
  all: intros [= <-]; split_and!; try done; tauto.
Qed.

Lemma clearPath_valid v p : validatePath v = inr p → clearPath p = p.
Proof.
  intros (_ & _ & H & _)%validatePath_inr. unfold clearPath, endsWith.
  repeat case_bool_decide; simpl; try done. tauto.
Qed.

(** ** Registering the same path again changes nothing *)

Lemma buildLoop_idem fuel ps h1 h2 i path node node' :
  buildLoop fuel ps h1 i path node = Some node' →
  buildLoop fuel ps h2 i path node' = Some node'.
Proof.
  revert i path node node'.
  induction fuel as [|fuel IH]; intros i path node node'; simpl; [done|].
  case_decide as Hi; [|by intros [= <-]].
  unfold attachParam.
  destruct (getAtPathIndex ps i) as [p|] eqn:Ep.
  - destruct (buildLoop fuel ps h1 (i + 1) _ _) as [child'|] eqn:Eb; simpl; [|done].
    intros [= <-]. simpl. unfold childOrNew at 1. simpl. rewrite lookup_insert_eq.
    rewrite (IH _ _ _ _ Eb). simpl. unfold setChildTree, setParam. simpl.
    by rewrite insert_insert_eq.
  - destruct (buildLoop fuel ps h1 (i + 1) _ _) as [child'|] eqn:Eb; simpl; [|done].
    intros [= <-]. simpl. unfold childOrNew at 1. simpl. rewrite lookup_insert_eq.
    rewrite (IH _ _ _ _ Eb). simpl. unfold setChildTree. simpl.
    by rewrite insert_insert_eq.
Qed.

Lemma Tree_build_idem tree path h1 h2 tree' :
  Tree_build tree path h1 = (Returned (), tree') →
  Tree_build tree' path h2 = (Returned (), tree').
Proof.
  unfold Tree_build. destruct (parseParams path) as [ps|]; [|done].
  case_decide; [|by intros [= <-]].
  destruct (getAtPathIndex ps 1); [done|].
  destruct (buildLoop (length path) ps h1 2 path _) as [child'|] eqn:Eb; [|done].
  intros [= <-]. simpl. unfold childOrNew at 1. rewrite lookup_insert_eq.
  rewrite (buildLoop_idem _ _ _ h2 _ _ _ _ Eb). by rewrite insert_insert_eq.
Qed.

Lemma register_idem st m p h1 h2 st' :
  register st m (JsStr p) (JsFunction h1) = (Returned (), st') →
  register st' m (JsStr p) (JsFunction h2) = (Returned (), st').
Proof.
  intros (Hv & tree' & Hb & ->)%register_Returned.
  rewrite <- (setTree_setTree st m tree' tree') at 2.
  apply register_setTree; [done|right; simpl; by rewrite lookup_insert_eq|].
  unfold treeOf. simpl. rewrite lookup_insert_eq. simpl.
  by eapply Tree_build_idem.
Qed.

(** [Tree.build] is one run of [buildLoop] from the root, unless a parameter
    starts at index 1. *)
Lemma Tree_build_loop tree path h ps :
  parseParams path = Some ps → getAtPathIndex ps 1 = None →
  Tree_build tree path h =
    match buildLoop (S (length path)) ps h 1 path (rootNode tree) with
    | Some n => (Returned (), mkTree (childTree n))
    | None => (OutOfFuel, tree)
    end.
Proof.
  intros Hps H1. unfold Tree_build. rewrite Hps. simpl.
  case_decide; [|by destruct tree].
  unfold attachParam. rewrite H1. simpl.
  by destruct (buildLoop (length path) ps h _ path _).
Qed.

(** [Tree.build] returns for every path that has no colon right after its
    first character. *)
Lemma Tree_build_Returned tree path h :
  path !! 1 ≠ Some ":"%char → ∃ tree', Tree_build tree path h = (Returned (), tree').
Proof.
  intros Hc. destruct (parseParams_is_Some path) as [ps Hps].
  assert (getAtPathIndex ps 1 = None) as H1.
  { destruct (getAtPathIndex ps 1) as [p|] eqn:E; [|done].
    by destruct (getAtPathIndex_colon _ _ _ _ Hps E). }
  rewrite (Tree_build_loop _ _ _ _ Hps H1).
  destruct (buildLoop_is_Some (S (length path)) ps h 1 path (rootNode tree)) as [n ->].
  - eapply Forall_impl; [by apply parseParams_wf|]. by intros p (? & ? & ?).
  - lia.
  - eauto.
Qed.

(** [register] returns for every path that passes [#validatePath] and has
    no colon right after its slash, under every method that has a trie or is
    not the name of an inherited member. *)
Lemma register_returns st m p h :
  validatePath (JsStr p) = inr p → p !! 1 ≠ Some ":"%char →
  bool_decide (m ∈ objectPrototypeKeys) = false ∨ is_Some (treeByMethod st !! m) →
  ∃ st', register st m (JsStr p) (JsFunction h) = (Returned (), st').
Proof.
  intros Hv Hc Hm. destruct (Tree_build_Returned (treeOf st m) p h Hc) as [tree' Hb].
  exists (setTree st m tree'). by apply register_setTree.
Qed.

(** ** The loop of the traversal, one iteration at a time *)

Lemma traverseLoop_exit fuel i p m nv pp :
  length p < i → traverseLoop (S fuel) i p m nv pp = Some (nv, pp).
Proof. intros. simpl. rewrite decide_False by lia. done. Qed.

Lemma traverseLoop_dead fuel i p m nv pp :
  i ≤ length p → m !! slice 0 i p = None →
  traverseLoop (S fuel) i p m nv pp = Some (None, pp).
Proof. intros ? Hm. simpl. rewrite decide_True by done. by rewrite Hm. Qed.

Lemma traverseLoop_literal fuel i p m nv pp n :
  i ≤ length p → m !! slice 0 i p = Some n → param n = None →
  traverseLoop (S fuel) i p m nv pp =
  traverseLoop fuel (i + 1) p (childTree n) (Some n) pp.
Proof. intros ? Hm Hn. simpl. rewrite decide_True by done. by rewrite Hm, Hn. Qed.

Lemma traverseLoop_capture fuel i p m nv pp n d :
  i ≤ length p → m !! slice 0 i p = Some n → param n = Some d →
  traverseLoop (S fuel) i p m nv pp =
  traverseLoop fuel (i + 1) (captureParam d i p pp).1 (childTree n) (Some n)
    (captureParam d i p pp).2.
Proof.
  intros ? Hm Hn. simpl. rewrite decide_True by done. by rewrite Hm, Hn.
Qed.

Lemma traverseLoop_node_irrelevant fuel i p m nv nv' pp :
  i ≤ length p → traverseLoop fuel i p m nv pp = traverseLoop fuel i p m nv' pp.
Proof. intros. destruct fuel; simpl; [done|]. by rewrite !decide_True by done. Qed.

(** ** Tries without parameters *)

Lemma NoParam_inv node : NoParam node → param node = None ∧ NoParamMap (childTree node).
Proof. by intros []. Qed.

Lemma NoParam_setChildTree node m :
  NoParam node → NoParamMap m → NoParam (setChildTree node m).
Proof. intros [] ?. by constructor. Qed.

Lemma NoParamMap_empty : NoParamMap ∅.
Proof. intros k c. by rewrite lookup_empty. Qed.

Lemma NoParamMap_insert m k c : NoParamMap m → NoParam c → NoParamMap (<[k := c]> m).
Proof.
  intros Hm Hc k' c'. rewrite lookup_insert. case_decide; [by intros [= <-]|]. apply Hm.
Qed.

Lemma NoParam_newNode i path frag h : NoParam (newNode i path frag h).
Proof. unfold newNode. case_decide; constructor; apply NoParamMap_empty. Qed.

Lemma NoParam_childOrNew m i path h : NoParamMap m → NoParam (childOrNew m i path h).
Proof.
  intros Hm. unfold childOrNew. destruct (m !! slice 0 i path) eqn:E.
  - by eapply Hm.
  - apply NoParam_newNode.
Qed.

Lemma buildLoop_NoParam fuel h i path node node' :
  NoParam node → buildLoop fuel [] h i path node = Some node' → NoParam node'.
Proof.
  revert i path node node'.
  induction fuel as [|fuel IH]; intros i path node node' Hn; simpl; [done|].
  case_decide; [|by intros [= <-]].
  destruct (buildLoop fuel [] h (i + 1) path _) as [child'|] eqn:Eb; simpl; [|done].
  intros [= <-]. destruct (NoParam_inv _ Hn) as [_ Hct].
  apply NoParam_setChildTree; [done|]. apply NoParamMap_insert; [done|].
  eapply IH; [|done]. by apply NoParam_childOrNew.
Qed.

Lemma buildLoop_leafHandler fuel ps h i path node node' :
  buildLoop fuel ps h i path node = Some node' → leafHandler node' = leafHandler node.
Proof.
  destruct fuel; simpl; [done|]. case_decide; [|by intros [= <-]].
  unfold attachParam. destruct (getAtPathIndex ps i); simpl.
  all: destruct (buildLoop fuel ps h (i + 1) _ _); simpl; [|done]; by intros [= <-].
Qed.

Lemma traverseLoop_NoParam fuel i p m nv pp r :
  NoParamMap m → traverseLoop fuel i p m nv pp = Some r → r.2 = pp.
Proof.
  revert i m nv. induction fuel as [|fuel IH]; intros i m nv Hm; simpl; [done|].
  case_decide; [|by intros [= <-]].
  destruct (m !! slice 0 i p) as [n|] eqn:En; [|by intros [= <-]].
  destruct (NoParam_inv n (Hm _ _ En)) as [-> Hct]. by apply IH.
Qed.

Lemma prefix_slice (p q : JsString) i :
  p `prefix_of` q → i ≤ length p → slice 0 i p = slice 0 i q.
Proof. intros [k ->] ?. rewrite !slice_0. by rewrite take_app_le. Qed.

Lemma slice_full_prefix (p q : JsString) :
  length p ≤ length q → slice 0 (length p) p = slice 0 (length p) q → p `prefix_of` q.
Proof.
  rewrite !slice_0, firstn_all. intros ? ->. exists (drop (length p) q).
  by rewrite take_drop.
Qed.

Lemma prefix_same_length (p q : JsString) :
  p `prefix_of` q → length p = length q → p = q.
Proof.
  intros [k ->]. rewrite length_app. destruct k; simpl; [|lia]. by rewrite app_nil_r.
Qed.

(** Walking [p] after building [q]: what was found before is found again,
    and where nothing was found the nodes of [q] are. *)
Lemma buildLoop_kind fb fw i q p h node node' nv nv' pp :
  NoParam node → i ≤ length p → length p + 1 - i < fw →
  buildLoop fb [] h i q node = Some node' →
  ∃ r r', traverseLoop fw i p (childTree node) nv pp = Some r
    ∧ traverseLoop fw i p (childTree node') nv' pp = Some r'
    ∧ kindOf r' = mergeKind (kindOf r) (addedKind p q h).
Proof.
  revert fw i node node' nv nv'.
  induction fb as [|fb IH]; intros fw i node node' nv nv' Hn Hip Hfw Hb; [done|].
  simpl in Hb. destruct fw as [|fw]; [lia|].
  destruct (NoParam_inv _ Hn) as [_ Hct].
  case_decide as Hiq.
  2:{ injection Hb as <-.
      destruct (traverseLoop_is_Some (S fw) i p (childTree node) nv pp) as [r Hr]; [lia|].
      exists r, r. split; [done|]. split.
      { by rewrite (traverseLoop_node_irrelevant _ _ _ _ nv' nv). }
      unfold addedKind. rewrite decide_False; [by destruct (kindOf r)|].
      intros [k ->]. rewrite length_app in Hiq. lia. }
  unfold attachParam in Hb. simpl in Hb.
  set (child := childOrNew (childTree node) i q h) in *.
  destruct (buildLoop fb [] h (i + 1) q child) as [child'|] eqn:Eb; simpl in Hb; [|done].
  injection Hb as <-. cbn [childTree setChildTree].
  assert (NoParam child) as Hc by by apply NoParam_childOrNew.
  pose proof (buildLoop_NoParam _ _ _ _ _ _ Hc Eb) as Hc'.
  pose proof (buildLoop_leafHandler _ _ _ _ _ _ _ Eb) as Hlh.
  destruct (NoParam_inv _ Hc') as [Hpc' _].
  destruct (decide (slice 0 i p = slice 0 i q)) as [Heq|Hne].
  2:{ destruct (traverseLoop_is_Some (S fw) i p (childTree node) nv pp) as [r Hr]; [lia|].
      exists r, r. split; [done|]. split.
      { rewrite <- Hr. simpl. rewrite !decide_True by done.
        by rewrite lookup_insert_ne. }
      unfold addedKind. rewrite decide_False; [by destruct (kindOf r)|].
      intros Hpre. by apply Hne, prefix_slice. }
  rewrite (traverseLoop_literal fw i p (<[_ := _]> _) nv' pp child')
    by (try done; by rewrite Heq, lookup_insert_eq).
  subst child. unfold childOrNew in *.
  destruct (decide (i = length p)) as [->|Hlt].
  - destruct fw as [|fw]; [lia|]. rewrite (traverseLoop_exit fw (length p + 1)) by lia.
    destruct (childTree node !! slice 0 (length p) q) as [c|] eqn:Ec.
    + destruct (NoParam_inv _ Hc) as [Hpc _].
      rewrite (traverseLoop_literal _ _ _ _ _ _ c) by (try done; by rewrite Heq).
      rewrite (traverseLoop_exit fw (length p + 1)) by lia.
      eexists _, _. split; [done|]. split; [done|]. unfold kindOf. simpl. by rewrite Hlh.
    + rewrite traverseLoop_dead by (try done; by rewrite Heq).
      eexists _, _. split; [done|]. split; [done|]. unfold kindOf. simpl. rewrite Hlh.
      pose proof (slice_full_prefix p q Hiq Heq) as Hpre.
      unfold addedKind, newNode. rewrite (decide_True _ _ Hpre). f_equal.
      destruct (decide (length p = length q)) as [Hl|Hl].
      * by rewrite decide_True by by apply prefix_same_length.
      * by rewrite decide_False by congruence.
  - destruct (childTree node !! slice 0 i q) as [c|] eqn:Ec.
    + destruct (NoParam_inv _ Hc) as [Hpc _].
      rewrite (traverseLoop_literal _ _ _ _ _ _ c) by (try done; by rewrite Heq).
      apply (IH fw (i + 1) c child' (Some c) (Some child')); [done|lia|lia|done].
    + rewrite traverseLoop_dead by (try done; by rewrite Heq).
      destruct (IH fw (i + 1) _ child' (Some (newNode i q (slice 0 i q) h)) (Some child')
                  Hc ltac:(lia) ltac:(lia) Eb) as (r0 & r' & Hr0 & Hr' & Hk).
      assert (childTree (newNode i q (slice 0 i q) h) = ∅) as Hempty.
      { unfold newNode. by case_decide. }
      rewrite Hempty in Hr0. destruct fw as [|fw]; [lia|].
      rewrite traverseLoop_dead in Hr0 by (try lia; apply lookup_empty).
      injection Hr0 as <-. eauto.
Qed.

(** One [Tree.build] of a path without colon, seen through [kindAt]. *)
Lemma Tree_build_kind tree q h tree' :
  NoParamMap (nodeByPathFragment tree) → ":"%char ∉ q →
  Tree_build tree q h = (Returned (), tree') →
  NoParamMap (nodeByPathFragment tree') ∧
  ∀ p, kindAt tree' p = mergeKind (kindAt tree p) (addedAt p q h).
Proof.
  intros Ht Hq Hb. pose proof (parseParams_no_colon _ Hq) as Hps.
  rewrite (Tree_build_loop _ _ _ [] Hps eq_refl) in Hb.
  destruct (buildLoop (S (length q)) [] h 1 q (rootNode tree)) as [n|] eqn:En; [|done].
  injection Hb as <-. cbn [nodeByPathFragment].
  assert (NoParam (rootNode tree)) as Hroot by by constructor.
  split. { by destruct (NoParam_inv _ (buildLoop_NoParam _ _ _ _ _ _ Hroot En)). }
  intros p. unfold kindAt, addedAt. case_decide as Hp.
  - subst p. by rewrite !traverseLoop_exit by (simpl; lia).
  - assert (1 ≤ length p) as Hlen by (destruct p; simpl; [done|lia]).
    destruct (buildLoop_kind _ (S (length p)) 1 q p h _ _ None None ∅ Hroot Hlen
                ltac:(lia) En) as (r & r' & Hr & Hr' & Hk).
    change (childTree (rootNode tree)) with (nodeByPathFragment tree) in Hr.
    cbn [nodeByPathFragment]. by rewrite Hr, Hr'.
Qed.

(** ** Sequences of registrations *)

Lemma mergeKind_assoc a b c : mergeKind (mergeKind a b) c = mergeKind a (mergeKind b c).
Proof. by destruct a. Qed.

Lemma mergeKind_None_r a : mergeKind a None = a.
Proof. by destruct a. Qed.

Lemma specKind_app l1 l2 p : specKind (l1 ++ l2) p = mergeKind (specKind l1 p) (specKind l2 p).
Proof.
  induction l1 as [|[q h] l1 IH]; simpl; [done|]. by rewrite IH, mergeKind_assoc.
Qed.

Lemma pathsOf_app m l1 l2 : pathsOf m (l1 ++ l2) = pathsOf m l1 ++ pathsOf m l2.
Proof.
  induction l1 as [|[m' q h] l1 IH]; simpl; [done|]. case_decide; simpl; by rewrite IH.
Qed.

Lemma elem_of_pathsOf m rs q h : (q, h) ∈ pathsOf m rs ↔ mkReg m q h ∈ rs.
Proof.
  induction rs as [|[m' q' h'] rs IH]; simpl.
  - by rewrite !elem_of_nil.
  - case_decide as Hm.
    + subst m'. rewrite !elem_of_cons, IH. split.
      * intros [[= -> ->]|?]; [by left|by right].
      * intros [[= -> ->]|?]; [by left|by right].
    + rewrite elem_of_cons, IH. split; [by right|].
      intros [[= ? ? ?]|?]; [by subst|done].
Qed.

Lemma specKind_None regs p :
  (∀ q h, (q, h) ∈ regs → ¬ p `prefix_of` q) → specKind regs p = None.
Proof.
  induction regs as [|[q h] regs IH]; intros Hn; simpl; [done|].
  rewrite IH by (intros q' h' ?; apply (Hn q' h'); by right).
  unfold addedAt, addedKind. case_decide; [done|].
  rewrite decide_False; [done|]. apply (Hn q h). left.
Qed.

(** The first registration of a path makes its node a leaf with its handler,
    when no path registered before runs through that node. *)
Lemma specKind_first regs1 q h regs2 :
  q ≠ [] → (∀ q' h', (q', h') ∈ regs1 → ¬ q `prefix_of` q') →
  specKind (regs1 ++ (q, h) :: regs2) q = Some (Some h).
Proof.
  intros Hq Hn. rewrite specKind_app, specKind_None by done. simpl.
  unfold addedAt, addedKind. by rewrite decide_False, !decide_True by done.
Qed.

(** A leaf is the node of a registered path and holds a handler registered
    with it. *)
Lemma specKind_leaf regs p h : specKind regs p = Some (Some h) → (p, h) ∈ regs.
Proof.
  induction regs as [|[q h'] regs IH]; simpl; [done|].
  unfold addedAt, addedKind. repeat case_decide; simpl; try done.
  - intros ?. right. by apply IH.
  - intros [= <-]. subst. left.
  - intros ?. right. by apply IH.
Qed.

(** Under a non-empty prefix of a registered path there is a node. *)
Lemma specKind_prefix regs p q h :
  (q, h) ∈ regs → p ≠ [] → p `prefix_of` q → is_Some (specKind regs p).
Proof.
  induction regs as [|[q' h'] regs IH]; simpl; [by intros ?%elem_of_nil|].
  intros [[= <- <-]|Hin]%elem_of_cons Hp Hpre.
  - unfold addedAt, addedKind. by rewrite decide_False, decide_True by done.
  - destruct (addedAt p q' h'); simpl; [done|]. by apply IH.
Qed.

Lemma treeOf_setTree_eq st m tree : treeOf (setTree st m tree) m = tree.
Proof. unfold treeOf, setTree. simpl. by rewrite lookup_insert_eq. Qed.

Lemma treeOf_setTree_ne st m m' tree : m ≠ m' → treeOf (setTree st m tree) m' = treeOf st m'.
Proof. intros. unfold treeOf, setTree. simpl. by rewrite lookup_insert_ne. Qed.

Lemma kindAt_Tree_new p : kindAt Tree_new p = None.
Proof.
  unfold kindAt. destruct p as [|c p].
  - by rewrite traverseLoop_exit by (simpl; lia).
  - by rewrite traverseLoop_dead by (simpl; try lia; apply lookup_empty).
Qed.

Lemma trieInv_new m notFoundCb : trieInv m (RadixRouter_new notFoundCb) [].
Proof.
  split; [apply NoParamMap_empty|]. intros p. apply kindAt_Tree_new.
Qed.

(** The invariant along a sequence of registrations in which the paths of
    method [m] have no colon. *)
Lemma registerAll_trieInv m rs st done st' :
  (∀ q h, mkReg m q h ∈ rs → ":"%char ∉ q) →
  trieInv m st done → registerAll st rs = Some st' →
  trieInv m st' (done ++ pathsOf m rs).
Proof.
  revert st done. induction rs as [|[m' q h] rs IH]; intros st done Hcolon Hinv; simpl.
  - intros [= <-]. by rewrite app_nil_r.
  - destruct (register st m' (JsStr q) (JsFunction h)) as [[[]| |] st1] eqn:Er; try done.
    apply register_Returned in Er as (_ & tree' & Hb & ->). intros Hall.
    assert (∀ q h, mkReg m q h ∈ rs → ":"%char ∉ q) as Hcolon'
      by (intros; eapply Hcolon; by right).
    case_decide as Hm.
    + subst m'.
      replace (done ++ (q, h) :: pathsOf m rs) with ((done ++ [(q, h)]) ++ pathsOf m rs)
        by (by rewrite <- app_assoc).
      apply (IH (setTree st m tree') _ Hcolon'); [|done].
      destruct Hinv as [Hnp Hk].
      destruct (Tree_build_kind _ _ _ _ Hnp (Hcolon q h ltac:(left)) Hb) as [Hnp' Hk'].
      split; rewrite treeOf_setTree_eq; [done|].
      intros p. rewrite Hk', Hk, specKind_app. simpl. by rewrite mergeKind_None_r.
    + apply (IH (setTree st m' tree') _ Hcolon'); [|done].
      unfold trieInv. by rewrite treeOf_setTree_ne.
Qed.

Lemma register_notFondHandler st m path h :
  notFondHandler (register st m path h).2 = notFondHandler st.
Proof.
  unfold register. destruct (validatePath path); [done|].
  destruct (validateHandler h); [done|]. unfold RadixRouter_buildTree.
  destruct (readTreeByMethod st m); [|done|].
  all: by destruct (Tree_build _ _ _).
Qed.

Lemma registerAll_notFondHandler rs st st' :
  registerAll st rs = Some st' → notFondHandler st' = notFondHandler st.
Proof.
  revert st. induction rs as [|[m q h] rs IH]; intros st; simpl; [by intros [= <-]|].
  pose proof (register_notFondHandler st m (JsStr q) (JsFunction h)) as Hnf.
  destruct (register st m (JsStr q) (JsFunction h)) as [[[]| |] st1]; try done.
  intros ->%IH. done.
Qed.

Lemma register_keeps_tree st m m' path h :
  is_Some (treeByMethod st !! m') → is_Some (treeByMethod (register st m path h).2 !! m').
Proof.
  intros Hm'. unfold register. destruct (validatePath path); [done|].
  destruct (validateHandler h); [done|]. unfold RadixRouter_buildTree.
  destruct (readTreeByMethod st m); [|done|].
  all: destruct (Tree_build _ _ _); simpl; rewrite lookup_insert; by case_decide.
Qed.

Lemma registerAll_keeps_tree rs st st' m :
  registerAll st rs = Some st' → is_Some (treeByMethod st !! m) →
  is_Some (treeByMethod st' !! m).
Proof.
  revert st. induction rs as [|[m' q h] rs IH]; intros st; simpl; [by intros [= <-]|].
  pose proof (register_keeps_tree st m' m (JsStr q) (JsFunction h)) as Hk.
  destruct (register st m' (JsStr q) (JsFunction h)) as [[[]| |] st1]; try done.
  intros Hall Hm. apply (IH _ Hall). by apply Hk.
Qed.

(** After a registration of [m] that returned, the method has a tree. *)
Lemma registerAll_has_tree rs st st' m q h :
  registerAll st rs = Some st' → mkReg m q h ∈ rs → is_Some (treeByMethod st' !! m).
Proof.
  revert st. induction rs as [|[m' q' h'] rs IH]; intros st; simpl.
  { by intros _ ?%elem_of_nil. }
  destruct (register st m' (JsStr q') (JsFunction h')) as [[[]| |] st1] eqn:Er; try done.
  intros Hall [[= <- <- <-]|Hin]%elem_of_cons; [|by eapply IH].
  apply (registerAll_keeps_tree _ _ _ _ Hall).
  apply register_Returned in Er as (_ & tree' & _ & ->). simpl. by rewrite lookup_insert_eq.
Qed.

(** Every path of a sequence of registrations that returned passed
    [#validatePath]. *)
Lemma registerAll_valid rs st st' m q h :
  registerAll st rs = Some st' → mkReg m q h ∈ rs → validatePath (JsStr q) = inr q.
Proof.
  revert st. induction rs as [|[m' q' h'] rs IH]; intros st; simpl.
  { by intros _ ?%elem_of_nil. }
  destruct (register st m' (JsStr q') (JsFunction h')) as [[[]| |] st1] eqn:Er; try done.
  intros Hall [[= <- <- <-]|Hin]%elem_of_cons; [|by eapply IH].
  by apply register_Returned in Er as (? & _).
Qed.

(** ** Lookup in a trie without parameters *)

Lemma resolve_kind st m p tree :
  treeByMethod st !! m = Some tree → NoParamMap (nodeByPathFragment tree) →
  resolve st m p = Returned (invocationOf st (kindAt tree p)).
Proof.
  intros Ht Hnp. unfold resolve, RadixRouter_traverseForHandler, readTreeByMethod.
  rewrite Ht. unfold Tree_traverse, kindAt.
  destruct (traverseLoop_is_Some (S (length p)) 1 p (nodeByPathFragment tree) None ∅)
    as [[nv pp] Hr]; [lia|].
  rewrite Hr. simpl. apply (traverseLoop_NoParam _ _ _ _ _ _ _ Hnp) in Hr. simpl in Hr.
  subst pp. unfold leafResult, kindOf. simpl.
  destruct nv as [n|]; simpl; [|done]. by destruct (leafHandler n).
Qed.

(** The trie of a method after registrations without colon under it, from a
    new router. *)
Lemma registerAll_trie notFoundCb rs st m q0 h0 :
  registerAll (RadixRouter_new notFoundCb) rs = Some st →
  mkReg m q0 h0 ∈ rs →
  Forall (λ r, regMethod r = m → ":"%char ∉ regPath r) rs →
  ∃ tree, treeByMethod st !! m = Some tree
    ∧ NoParamMap (nodeByPathFragment tree)
    ∧ (∀ p, kindAt tree p = specKind (pathsOf m rs) p)
    ∧ notFondHandler st = default noopFn notFoundCb.
Proof.
  intros Hall Hin Hcolon.
  destruct (registerAll_has_tree _ _ _ _ _ _ Hall Hin) as [tree Ht].
  exists tree. split; [done|].
  assert (∀ q h, mkReg m q h ∈ rs → ":"%char ∉ q) as Hcolon'.
  { intros q h Hq. rewrite Forall_forall in Hcolon. by apply (Hcolon _ Hq). }
  destruct (registerAll_trieInv m rs _ [] st Hcolon' (trieInv_new m notFoundCb) Hall)
    as [Hnp Hk].
  unfold treeOf in Hnp, Hk. rewrite Ht in Hnp, Hk. simpl in Hnp, Hk.
  split_and!; [done|done|]. by rewrite (registerAll_notFondHandler _ _ _ Hall).
Qed.

Lemma valid_nonempty v p : validatePath v = inr p → p ≠ [].
Proof. intros (_ & Hh & _)%validatePath_inr. by destruct p. Qed.


(** ** Lookup right after a registration *)

Lemma lookup_setTree_eq st m tree path :
  lookup (setTree st m tree) m path =
  match Tree_traverse tree (clearPath path) with
  | Some (Some r) => Returned [mkInvocation (handler r) (Some (parsedParams r))]
  | Some None => Returned [mkInvocation (notFondHandler st) None]
  | None => OutOfFuel
  end.
Proof.
  unfold lookup, resolve, RadixRouter_traverseForHandler.
  rewrite readTreeByMethod_setTree_eq.
  by destruct (Tree_traverse tree (clearPath path)) as [[r|]|].
Qed.

Lemma lookup_setTree_ne st m m' tree path :
  m ≠ m' → lookup (setTree st m tree) m' path = lookup st m' path.
Proof.
  intros. unfold lookup, resolve, RadixRouter_traverseForHandler.
  by rewrite readTreeByMethod_setTree_ne.
Qed.

(** The first registration under a method builds in a new tree. *)
Lemma register_new_method st m p h st' :
  treeByMethod st !! m = None →
  register st m (JsStr p) (JsFunction h) = (Returned (), st') →
  Tree_build Tree_new p h = (Returned (), (Tree_build Tree_new p h).2)
  ∧ st' = setTree st m (Tree_build Tree_new p h).2.
Proof.
  intros Hm (_ & tree' & Hb & ->)%register_Returned.
  unfold treeOf in Hb. rewrite Hm in Hb. simpl in Hb. by rewrite Hb.
Qed.

(** What [register] leaves behind: the router as it was, or the router with
    another tree for the method. *)
Lemma register_state st m path h :
  (register st m path h).2 = st ∨ ∃ tree, (register st m path h).2 = setTree st m tree.
Proof.
  unfold register. destruct (validatePath path); [by left|].
  destruct (validateHandler h); [by left|]. unfold RadixRouter_buildTree.
  destruct (readTreeByMethod st m); [|by left|].
  all: destruct (Tree_build _ _ _); right; eauto.
Qed.

(** ** What [#clearPath] does *)

Lemma clearPath_trailing_slash (q : JsString) : q ≠ [] → clearPath (q ++ ["/"%char]) = q.
Proof.
  intros Hq. unfold clearPath, endsWith.
  rewrite bool_decide_eq_true_2 by (rewrite length_app; destruct q; simpl; [done|lia]).
  rewrite bool_decide_eq_true_2 by apply last_snoc. simpl.
  rewrite slice_0, length_app. simpl.
  replace (length q + 1 - 1) with (length q) by lia. by rewrite take_app_length.
Qed.

Lemma clearPath_unchanged (p : JsString) :
  length p ≤ 1 ∨ last p ≠ Some "/"%char → clearPath p = p.
Proof.
  intros Hp. unfold clearPath, endsWith. repeat case_bool_decide; simpl; try done.
  destruct Hp; [lia|done].
Qed.

Lemma clearPath_prefix (p : JsString) : clearPath p `prefix_of` p.
Proof.
  unfold clearPath. destruct (_ && _); [|done].
  rewrite slice_0. exists (drop (length p - 1) p). by rewrite take_drop.
Qed.

Lemma clearPath_nonempty (p : JsString) : p ≠ [] → clearPath p ≠ [].
Proof.
  intros Hp. unfold clearPath. case_bool_decide; simpl; [|done].
  destruct (endsWith "/" p); [|done]. rewrite slice_0.
  intros Hnil%(f_equal length). rewrite length_take in Hnil. simpl in Hnil. lia.
Qed.

(** ** The boundary of a parameter value *)

Lemma paramEndIndex_spec path from : valueBoundary path from (paramEndIndex path from).
Proof.
  unfold valueBoundary, paramEndIndex.
  destruct (indexOf "/" from path) as [e|] eqn:E1.
  { left. by apply indexOf_Some. }
  pose proof (proj1 (indexOf_None _ _ _) E1) as H1. right.
  destruct (indexOf "?" from path) as [e|] eqn:E2.
  { left. split; [done|]. by apply indexOf_Some. }
  pose proof (proj1 (indexOf_None _ _ _) E2) as H2. by right.
Qed.

(** An assignment [o[key] = value] defines the property, for every key but
    [__proto__]. *)
Lemma setProperty_lookup (key v : JsString) (o : ParsedParams) :
  key ≠ ("__proto__" : JsString) → setProperty key v o !! key = Some v.
Proof. intros. unfold setProperty. rewrite decide_False by done. apply lookup_insert_eq. Qed.

(** The object an assignment makes of [{}]. *)
Lemma setProperty_empty (key v : JsString) :
  setProperty key v ∅
  = if decide (key = ("__proto__" : JsString)) then ∅ else {[ key := v ]}.
Proof. unfold setProperty. case_decide; [done|]. apply insert_empty. Qed.

Lemma indexOfChar_first c (l1 l2 : JsString) :
  c ∉ l1 → indexOfChar c (l1 ++ c :: l2) = Some (length l1).
Proof.
  intros Hc. induction l1 as [|x l1 IH]; simpl.
  - by rewrite decide_True.
  - apply not_elem_of_cons in Hc as [Hx Hc]. rewrite decide_False by done.
    by rewrite (IH Hc).
Qed.

Lemma indexOf_first c (l1 l2 : JsString) :
  c ∉ l1 → indexOf c 0 (l1 ++ c :: l2) = Some (length l1).
Proof. intros Hc. unfold indexOf. by rewrite drop_0, indexOfChar_first. Qed.

Lemma indexOf_beyond c pos (s : JsString) :
  (∀ x, x ∈ drop pos s → x ≠ c) → indexOf c pos s = None.
Proof.
  intros Hn. apply indexOf_None. intros j Hj Hs.
  apply (Hn c); [|done]. apply list_elem_of_lookup. exists (j - pos).
  rewrite lookup_drop. by replace (pos + (j - pos)) with j by lia.
Qed.

Lemma paramEndIndex_no_terminator (s : JsString) from :
  (∀ x, x ∈ drop from s → x ≠ "/"%char ∧ x ≠ "?"%char) →
  paramEndIndex s from = length s.
Proof.
  intros Hn. unfold paramEndIndex.
  rewrite !indexOf_beyond; [done| |]; intros x Hx; by destruct (Hn x Hx).
Qed.

(** ** The loops, one iteration at a time *)

Lemma parseParamsLoop_done fuel (path : JsString) from acc :
  0 < fuel → indexOf ":" from path = None → parseParamsLoop fuel path from acc = Some acc.
Proof. intros Hf Hi. destruct fuel; [lia|]. cbn [parseParamsLoop]. by rewrite Hi. Qed.

Lemma buildLoop_exit fuel ps h i (path : JsString) node :
  length path < i → 0 < fuel → buildLoop fuel ps h i path node = Some node.
Proof.
  intros ? ?. destruct fuel; [lia|]. cbn [buildLoop]. by rewrite decide_False by lia.
Qed.

Lemma buildLoop_step fuel ps h i (path : JsString) node :
  i ≤ length path →
  buildLoop (S fuel) ps h i path node =
  (let '(node1, path1) := attachParam ps i path node in
   child' ← buildLoop fuel ps h (i + 1) path1 (childOrNew (childTree node1) i path1 h);
   Some (setChildTree node1 (<[slice 0 i path1 := child']> (childTree node1)))).
Proof. intros ?. cbn [buildLoop]. by rewrite decide_True by done. Qed.

(** ** One pattern with one parameter, and a request it matches

    The pattern is a literal prefix [pre] of two characters or more without
    colon, a colon and a name [nm]; the request is [pre] followed by a value
    [v]; neither name nor value has a slash or a question mark. *)

Section capture.
Context (pre nm v : JsString) (h : Handler).
Hypothesis pre_no_colon : ":"%char ∉ pre.
Hypothesis pre_length : 2 ≤ length pre.
Hypothesis nm_no_slash : "/"%char ∉ nm.
Hypothesis nm_no_question : "?"%char ∉ nm.
Hypothesis v_nonempty : v ≠ [].
Hypothesis v_no_slash : "/"%char ∉ v.
Hypothesis v_no_question : "?"%char ∉ v.

Lemma paramPattern_length : length (paramPattern pre nm) = length pre + S (length nm).
Proof. unfold paramPattern. by rewrite length_app. Qed.


Lemma getAtPathIndex_patternParam j :
  getAtPathIndex [patternParam pre nm] j
  = if decide (length pre = j) then Some (patternParam pre nm) else None.
Proof. unfold getAtPathIndex. simpl. by case_decide. Qed.





End capture.

(** ** When [lookup] returns, and when it matches *)

(** [lookup] returns whenever reading the trie of the method does not give
    a member inherited from [Object.prototype] (it never does for a method
    outside [objectPrototypeKeys]); without a match it calls the not-found
    handler without argument. *)
Lemma lookup_returns st m p :
  readTreeByMethod st m ≠ InheritedMember →
  ∃ r, RadixRouter_traverseForHandler st m (clearPath p) = Returned r
     ∧ lookup st m p = Returned (dispatch st r)
     ∧ (r = None → lookup st m p = Returned [mkInvocation (notFondHandler st) None]).
Proof.
  intros Hm. unfold lookup, resolve, RadixRouter_traverseForHandler.
  destruct (readTreeByMethod st m) as [tree| |]; [|done|].
  - destruct (Tree_traverse_is_Some tree (clearPath p)) as [r ->].
    exists r. split_and!; [done|done|by intros ->].
  - exists None. done.
Qed.

Lemma readTreeByMethod_not_inherited st m :
  m ∉ objectPrototypeKeys → readTreeByMethod st m ≠ InheritedMember.
Proof.
  intros Hm. unfold readTreeByMethod. destruct (treeByMethod st !! m); [done|].
  by rewrite bool_decide_eq_false_2.
Qed.

(** A lookup calls a registered handler exactly when the walk ran to the end
    of the (collapsed) path and the node of its last iteration is a leaf. *)
Lemma lookup_match_iff st m path h pp :
  lookup st m path = Returned [mkInvocation h (Some pp)]
  ↔ ∃ tree node,
      treeByMethod st !! m = Some tree
      ∧ traverseLoop (S (length (clearPath path))) 1 (clearPath path)
          (nodeByPathFragment tree) None ∅ = Some (Some node, pp)
      ∧ leafHandler node = Some h.
Proof.
  unfold lookup, resolve, RadixRouter_traverseForHandler, readTreeByMethod, Tree_traverse.
  destruct (treeByMethod st !! m) as [tree|] eqn:Et.
  - destruct (traverseLoop _ 1 _ _ None ∅) as [[nv pp']|] eqn:Er; cbn -[traverseLoop].
    + unfold leafResult. cbn -[traverseLoop]. destruct nv as [node|]; cbn -[traverseLoop].
      * destruct (leafHandler node) as [h'|] eqn:El; cbn -[traverseLoop].
        -- split.
           ++ intros [= -> ->]. by exists tree, node.
           ++ intros (tree' & node' & Ht' & Hw & Hl). congruence.
        -- split; [done|]. intros (tree' & node' & Ht' & Hw & Hl). congruence.
      * split; [done|]. intros (tree' & node' & Ht' & Hw & _). congruence.
    + split; [done|]. intros (tree' & node' & Ht' & Hw & _). congruence.
  - split; [|by intros (tree' & node' & [=] & _)]. by case_bool_decide.
Qed.

(** ** Validation *)

Lemma Tree_build_not_rejected tree p h : ¬ rejected (Tree_build tree p h).
Proof.
  unfold rejected, Tree_build. intros [msg Hr].
  destruct (parseParams p); [|done]. case_decide; [|done].
  destruct (getAtPathIndex _ 1); [done|]. by destruct (buildLoop _ _ _ _ _ _).
Qed.

Lemma buildTree_not_rejected st m p h : ¬ rejected (RadixRouter_buildTree st m p h).
Proof.
  unfold RadixRouter_buildTree. destruct (readTreeByMethod st m).
  - pose proof (Tree_build_not_rejected tree p h) as Hn.
    by destruct (Tree_build tree p h).
  - by intros [msg Hr].
  - pose proof (Tree_build_not_rejected Tree_new p h) as Hn.
    by destruct (Tree_build Tree_new p h).
Qed.

(** ** The tests of the repository, on the embedding *)

Example test_path_must_be_a_string :
  (get (RadixRouter_new None) (JsNumber 123) (JsFunction (userFn 1))).1
  = Thrown (AssertionError "path must be a string").
Proof. reflexivity. Qed.

Example test_handler_must_be_a_function :
  (get (RadixRouter_new None) (JsStr "/") (JsNumber 123)).1
  = Thrown (AssertionError "handler must be a function").
Proof. reflexivity. Qed.

Example test_path_must_start_with_slash :
  (get (RadixRouter_new None) (JsStr "some/path") (JsFunction (userFn 1))).1
  = Thrown (AssertionError "path must start with /").
Proof. reflexivity. Qed.

Example test_root_handler_is_called :
  lookup (routerAfter [mkReg "GET" "/" (userFn 1)]) "GET" "/"
  = Returned [mkInvocation (userFn 1) (Some ∅)].
Proof. vm_compute. reflexivity. Qed.

Example test_right_handler_among_several :
  lookup (routerAfter [mkReg "GET" "/" (userFn 0); mkReg "GET" "/A" (userFn 1);
                       mkReg "GET" "/B" (userFn 2)]) "GET" "/A"
  = Returned [mkInvocation (userFn 1) (Some ∅)].
Proof. vm_compute. reflexivity. Qed.

Example test_right_handler_for_nested_path :
  lookup (routerAfter [mkReg "GET" "/A/1" (userFn 1); mkReg "GET" "/B/1" (userFn 2);
                       mkReg "GET" "/C/1" (userFn 3)]) "GET" "/A/1"
  = Returned [mkInvocation (userFn 1) (Some ∅)].
Proof. vm_compute. reflexivity. Qed.

Example test_no_throw_when_nothing_is_registered :
  lookup (RadixRouter_new None) "GET" "/some/no/existing/path"
  = Returned [mkInvocation noopFn None].
Proof. vm_compute. reflexivity. Qed.

Example test_not_found_handler_is_called :
  (λ st, lookup st "GET" "/some/no/existing/path")
    <$> registerAll (RadixRouter_new (Some (userFn 404))) [mkReg "GET" "/A/1" (userFn 1)]
  = Some (Returned [mkInvocation (userFn 404) None]).
Proof. vm_compute. reflexivity. Qed.

(** * The properties the specification claims *)

(** C1, as stated, fails.  [/a] registered after [/ab] finds the plain node
    that [/ab] created under [/a]; no leaf is made of it, and the lookup of
    [/a] calls the not-found handler, not the handler registered.  A path
    without parameter registered after a pattern that matches it is shadowed
    by the pattern; registered before the pattern it is lost, because the
    traversal takes [42] for the value of [id] and then stands on a plain
    node. *)
Lemma C1_counterexample :
  (registerAll (RadixRouter_new None) regs_ab_a = Some (routerAfter regs_ab_a)
   ∧ mkReg "GET" "/a" (userFn 2) ∈ regs_ab_a
   ∧ (":"%char ∉ ("/a" : JsString))
   ∧ lookup (routerAfter regs_ab_a) "GET" "/a" = Returned [mkInvocation noopFn None]
   ∧ (lookup (routerAfter regs_ab_a) "GET" "/a"
      ≠ Returned [mkInvocation (userFn 2) (Some ∅)]))
  ∧ (registerAll (RadixRouter_new None) regs_id_42 = Some (routerAfter regs_id_42)
     ∧ mkReg "GET" "/items/42" (userFn 2) ∈ regs_id_42
     ∧ lookup (routerAfter regs_id_42) "GET" "/items/42"
       = Returned [mkInvocation (userFn 1)
                     (Some {[ ("id" : JsString) := ("42" : JsString) ]})])
  ∧ (registerAll (RadixRouter_new None) regs_42_id = Some (routerAfter regs_42_id)
     ∧ mkReg "GET" "/items/42" (userFn 2) ∈ regs_42_id
     ∧ lookup (routerAfter regs_42_id) "GET" "/items/42"
       = Returned [mkInvocation noopFn None]).
Proof.
  split_and!; try (vm_compute; reflexivity); try compute_done.
  vm_compute. discriminate.
Qed.

(** C1, amended: from a new router, after any sequence of registrations
    that all returned and of which those under [m] have no colon in their
    path, a path registered under [m] when no path registered before under [m]
    had it as a prefix is found: [lookup] calls its handler, once, with an
    empty parameter object, and the traversal of the path ends on a leaf
    holding that handler. *)
Theorem C1_registered_path_is_found notFoundCb before m p h after st :
  registerAll (RadixRouter_new notFoundCb) (before ++ mkReg m p h :: after) = Some st →
  Forall (λ r, regMethod r = m → ":"%char ∉ regPath r) (before ++ mkReg m p h :: after) →
  Forall (λ r, regMethod r = m → ¬ p `prefix_of` regPath r) before →
  lookup st m p = Returned [mkInvocation h (Some ∅)]
  ∧ ∃ tree, treeByMethod st !! m = Some tree ∧ kindAt tree p = Some (Some h).
Proof.
  intros Hall Hcolon Hfirst.
  assert (mkReg m p h ∈ before ++ mkReg m p h :: after) as Hin.
  { apply elem_of_app. right. left. }
  destruct (registerAll_trie _ _ _ _ _ _ Hall Hin Hcolon) as (tree & Ht & Hnp & Hk & Hnf).
  pose proof (registerAll_valid _ _ _ _ _ _ Hall Hin) as Hv.
  assert (kindAt tree p = Some (Some h)) as Hleaf.
  { rewrite Hk, pathsOf_app. simpl. rewrite decide_True by done.
    apply specKind_first; [by eapply valid_nonempty|].
    intros q' h' Hq'%elem_of_pathsOf. rewrite Forall_forall in Hfirst.
    by apply (Hfirst _ Hq'). }
  split; [|eauto]. unfold lookup. rewrite (clearPath_valid _ _ Hv).
  rewrite (resolve_kind _ _ _ _ Ht Hnp), Hleaf. done.
Qed.

(** The theorem of C1 on [regs_a_ab]: [/ab], registered last, is found. *)
Lemma C1_witness :
  lookup (routerAfter regs_a_ab) "GET" "/ab" = Returned [mkInvocation (userFn 2) (Some ∅)]
  ∧ ∃ tree, treeByMethod (routerAfter regs_a_ab) !! "GET" = Some tree
      ∧ kindAt tree "/ab" = Some (Some (userFn 2)).
Proof.
  apply (C1_registered_path_is_found None
           [mkReg "GET" "/a" (userFn 1); mkReg "POST" "/x/:id" (userFn 3)]
           "GET" "/ab" (userFn 2) []).
  - vm_compute. reflexivity.
  - apply (bool_decide_unpack _). vm_compute. reflexivity.
  - apply (bool_decide_unpack _). vm_compute. reflexivity.
Defined.

(** C2, as stated, fails: the second registration of [/a] returns, finds
    the leaf of the first and leaves it as it is; the lookup calls the first
    handler. *)
Lemma C2_counterexample :
  registerAll (RadixRouter_new None) regs_a_a = Some (routerAfter regs_a_a)
  ∧ lookup (routerAfter regs_a_a) "GET" "/a" = Returned [mkInvocation (userFn 1) (Some ∅)]
  ∧ (lookup (routerAfter regs_a_a) "GET" "/a"
     ≠ Returned [mkInvocation (userFn 2) (Some ∅)]).
Proof.
  split_and!; [vm_compute; reflexivity|vm_compute; reflexivity|vm_compute; discriminate].
Qed.

(** C2, amended (first write wins): when a registration has returned,
    registering the same method and path again with another handler returns
    too, raises nothing and leaves the router exactly as it was, so every
    lookup behaves as before the second registration; in particular, when
    the method had no trie before the first registration and the path has no
    colon, the lookup of the path calls the first handler. *)
Theorem C2_first_write_wins st m p h1 h2 st1 :
  register st m (JsStr p) (JsFunction h1) = (Returned (), st1) →
  register st1 m (JsStr p) (JsFunction h2) = (Returned (), st1)
  ∧ (∀ m' path, lookup (register st1 m (JsStr p) (JsFunction h2)).2 m' path
                = lookup st1 m' path)
  ∧ (treeByMethod st !! m = None → ":"%char ∉ p →
     lookup st1 m p = Returned [mkInvocation h1 (Some ∅)]).
Proof.
  intros Hr. pose proof (register_idem _ _ _ _ h2 _ Hr) as Hr2.
  split; [done|]. split; [by rewrite Hr2|].
  intros Hm Hp. apply register_Returned in Hr as (Hv & tree' & Hb & ->).
  unfold treeOf in Hb. rewrite Hm in Hb. simpl in Hb.
  destruct (Tree_build_kind Tree_new _ _ _ NoParamMap_empty Hp Hb) as [Hnp Hk].
  unfold lookup. rewrite (clearPath_valid _ _ Hv).
  rewrite (resolve_kind _ _ _ tree') by (try done; simpl; by rewrite lookup_insert_eq).
  rewrite Hk, kindAt_Tree_new. simpl. unfold addedAt, addedKind.
  by rewrite decide_False, !decide_True by (try done; by eapply valid_nonempty).
Qed.

(** The theorem of C2 on a router in which [/a] is registered. *)
Lemma C2_witness :
  register (routerAfter [mkReg "GET" "/a" (userFn 1)]) "GET" (JsStr "/a")
    (JsFunction (userFn 2))
  = (Returned (), routerAfter [mkReg "GET" "/a" (userFn 1)])
  ∧ lookup (routerAfter [mkReg "GET" "/a" (userFn 1)]) "GET" "/a"
    = Returned [mkInvocation (userFn 1) (Some ∅)].
Proof.
  destruct (C2_first_write_wins (RadixRouter_new None) "GET" "/a" (userFn 1) (userFn 2)
              (routerAfter [mkReg "GET" "/a" (userFn 1)])) as (H2 & _ & Hl).
  - vm_compute. reflexivity.
  - split; [exact H2|]. apply Hl; [reflexivity|].
    apply (bool_decide_unpack _). vm_compute. reflexivity.
Defined.




(** C5: after only [/items/:id] has been registered under a method, the
    lookup of [/items/42/extra] calls the not-found handler: the traversal
    assigns [42] to [id] and then finds no child for what is left of the
    path. *)
Theorem C5_suffix_after_parameter_not_found st m h st' :
  treeByMethod st !! m = None →
  register st m (JsStr "/items/:id") (JsFunction h) = (Returned (), st') →
  lookup st' m "/items/42/extra" = Returned [mkInvocation (notFondHandler st') None]
  ∧ ∃ tree, treeByMethod st' !! m = Some tree
      ∧ traverseLoop (S (length ("/items/42/extra" : JsString))) 1 "/items/42/extra"
          (nodeByPathFragment tree) None ∅
        = Some (None, {[ ("id" : JsString) := ("42" : JsString) ]}).
Proof.
  intros Hm [_ ->]%register_new_method; [|done]. split.
  - rewrite lookup_setTree_eq. vm_compute. reflexivity.
  - eexists. split; [simpl; apply lookup_insert_eq|]. vm_compute. reflexivity.
Qed.

(** The theorem of C5 on the new router and the method [GET]. *)
Lemma C5_witness :
  lookup (routerAfter regs_items_id) "GET" "/items/42/extra"
  = Returned [mkInvocation noopFn None].
Proof.
  apply (C5_suffix_after_parameter_not_found (RadixRouter_new None) "GET" (userFn 1)).
  - reflexivity.
  - vm_compute. reflexivity.
Defined.

(** C9: [lookup] resolves the path with one trailing slash removed, when
    the path is longer than one character and ends with a slash, and the
    path as it is otherwise.  So [/items/] finds a registered [/items] and
    [//] finds a registered [/], while [/items//] is resolved as [/items/]
    and finds nothing. *)
Theorem C9_one_trailing_slash_is_stripped :
  (∀ st m (q : JsString), q ≠ [] → lookup st m (q ++ ["/"%char]) = resolve st m q)
  ∧ (∀ st m (p : JsString),
       length p ≤ 1 ∨ last p ≠ Some "/"%char → lookup st m p = resolve st m p)
  ∧ (∀ st m h st',
       treeByMethod st !! m = None →
       register st m (JsStr "/items") (JsFunction h) = (Returned (), st') →
       lookup st' m "/items/" = Returned [mkInvocation h (Some ∅)]
       ∧ lookup st' m "/items//" = Returned [mkInvocation (notFondHandler st') None])
  ∧ (∀ st m h st',
       treeByMethod st !! m = None →
       register st m (JsStr "/") (JsFunction h) = (Returned (), st') →
       lookup st' m "//" = Returned [mkInvocation h (Some ∅)]).
Proof.
  split_and!.
  - intros st m q Hq. unfold lookup. by rewrite clearPath_trailing_slash.
  - intros st m p Hp. unfold lookup. by rewrite clearPath_unchanged.
  - intros st m h st' Hm [_ ->]%register_new_method; [|done].
    split; rewrite lookup_setTree_eq; vm_compute; reflexivity.
  - intros st m h st' Hm [_ ->]%register_new_method; [|done].
    rewrite lookup_setTree_eq. vm_compute. reflexivity.
Qed.

(** The theorem of C9 on a router in which [/items] is registered. *)
Lemma C9_witness :
  lookup (routerAfter [mkReg "GET" "/items" (userFn 1)]) "GET" "/items/"
  = resolve (routerAfter [mkReg "GET" "/items" (userFn 1)]) "GET" "/items"
  ∧ lookup (routerAfter [mkReg "GET" "/items" (userFn 1)]) "GET" "/items/"
    = Returned [mkInvocation (userFn 1) (Some ∅)]
  ∧ lookup (routerAfter [mkReg "GET" "/items" (userFn 1)]) "GET" "/items//"
    = Returned [mkInvocation noopFn None].
Proof.
  destruct C9_one_trailing_slash_is_stripped as (Hstrip & _ & Hitems & _).
  split.
  - apply (Hstrip _ "GET" ("/items" : JsString)). vm_compute. discriminate.
  - apply (Hitems (RadixRouter_new None) "GET" (userFn 1)).
    + reflexivity.
    + vm_compute. reflexivity.
Defined.

(** C10: a call of [register] under one method, whatever its arguments and
    however it ends, leaves every lookup under another method as it was:
    the same handler is called with the same parameters. *)
Theorem C10_method_isolation st m1 m2 path h p :
  m1 ≠ m2 → lookup (register st m1 path h).2 m2 p = lookup st m2 p.
Proof.
  intros Hne. destruct (register_state st m1 path h) as [->|[tree ->]]; [done|].
  by apply lookup_setTree_ne.
Qed.

(** The theorem of C10 for a registration under [POST] and a lookup under
    [GET]. *)
Lemma C10_witness :
  lookup (register (routerAfter regs_items_id) "POST" (JsStr "/items/42")
            (JsFunction (userFn 2))).2 "GET" "/items/42"
  = lookup (routerAfter regs_items_id) "GET" "/items/42".
Proof. apply (C10_method_isolation _ "POST" "GET"). vm_compute. discriminate. Defined.

(** C7: [register] throws an assertion error exactly when the path is not
    a string, does not start with a slash, ends with a slash while longer
    than one character, or ends with a colon, or when the handler is not a
    function; and then the router is left as it was. *)
Theorem C7_validation st m path h :
  (rejected (register st m path h) ↔ invalidArguments path h)
  ∧ (rejected (register st m path h) → (register st m path h).2 = st).
Proof.
  unfold register.
  destruct (validatePath path) as [e|p] eqn:Ev.
  - assert (rejected (Thrown (A:=unit) e, st)) as Hrej.
    { destruct path; simpl in Ev; repeat case_match; simplify_eq; by eexists. }
    split; [|done]. split; [|done]. intros _.
    destruct path; try (left; by simpl). right. left. eexists. split; [done|].
    simpl in Ev. unfold startsWith, endsWith in Ev.
    repeat case_bool_decide; simpl in Ev; try done; tauto.
  - apply validatePath_inr in Ev as (-> & Hh & Hs & Hc).
    destruct (validateHandler h) as [e|f] eqn:Eh.
    + assert (rejected (Thrown (A:=unit) e, st)) as Hrej.
      { destruct h; simplify_eq/=; by eexists. }
      split; [|done]. split; [|done]. intros _. right. right.
      destruct h; simplify_eq/=; done.
    + destruct h; simplify_eq/=. split.
      * split; [by intros ?%buildTree_not_rejected|].
        intros [?|[(s & [= <-] & [?|[[Hlen Hlast]|?]])|?]]; try done.
        by destruct (Hs Hlen).
      * by intros ?%buildTree_not_rejected.
Qed.

(** The theorem of C7 on a path that does not start with a slash. *)
Lemma C7_witness :
  rejected (register (RadixRouter_new None) "GET" (JsStr "some/path") (JsFunction (userFn 1)))
  ∧ (register (RadixRouter_new None) "GET" (JsStr "some/path") (JsFunction (userFn 1))).2
    = RadixRouter_new None.
Proof.
  destruct (C7_validation (RadixRouter_new None) "GET" (JsStr "some/path")
              (JsFunction (userFn 1))) as [[_ Hrej] Hst].
  assert (invalidArguments (JsStr "some/path") (JsFunction (userFn 1))) as Hinv.
  { right. left. eexists. split; [reflexivity|]. left. vm_compute. discriminate. }
  split; [exact (Hrej Hinv)|exact (Hst (Hrej Hinv))].
Defined.

(** C4 fails on the code: [/:id] passes [#validatePath], its parameter
    starts at index 1, and the first iteration of [Tree.#buildTree] assigns
    to [node.param] while [node] is still [undefined]: a [TypeError].  The
    router is left with an empty trie for the method.  (Two parameters
    without separator, as in [/a/:x:y], are one descriptor named [x:y] for
    [Params], and the build returns.) *)
Theorem C4_build_throws_on_leading_parameter :
  validatePath (JsStr "/:id") = inr ("/:id" : JsString)
  ∧ (∀ tree h,
       Tree_build tree "/:id" h
       = (Thrown (TypeError "Cannot set properties of undefined (setting 'param')"), tree))
  ∧ register (RadixRouter_new None) "GET" (JsStr "/:id") (JsFunction (userFn 1))
    = (Thrown (TypeError "Cannot set properties of undefined (setting 'param')"),
       setTree (RadixRouter_new None) "GET" Tree_new)
  ∧ parseParams "/a/:x:y" = Some [mkParam "x:y" 3 7]
  ∧ (Tree_build Tree_new "/a/:x:y" (userFn 1)).1 = Returned ().
Proof.
  split_and!; [by vm_compute|intros tree h; by vm_compute|by vm_compute..].
Qed.

(** C8 fails on the code: for a method named like a member every object
    inherits, [this.#treeByMethod[method]] is that member, which is truthy
    and has no [traverse] method; [lookup] throws a [TypeError] and the
    not-found handler is not called. *)
Theorem C8_lookup_throws_on_inherited_method :
  lookup (RadixRouter_new None) "constructor" "/"
  = Thrown (TypeError "tree.traverse is not a function")
  ∧ lookup (get (RadixRouter_new None) (JsStr "/") (JsFunction (userFn 1))).2 "toString" "/"
    = Thrown (TypeError "tree.traverse is not a function").
Proof. split; by vm_compute. Qed.

(** C6, as stated, fails in two ways.  [/a/] is a strict prefix of the
    registered [/a/b] and was never registered, yet its lookup strips the
    slash and finds the leaf of [/a].  [/items/:i] is a strict prefix of the
    registered [/items/:id] and was never registered, yet its lookup takes
    [:i] as the value of [id] and finds the leaf. *)
Lemma C6_counterexample :
  (registerAll (RadixRouter_new None) regs_a_a_b = Some (routerAfter regs_a_a_b)
   ∧ mkReg "GET" "/a/b" (userFn 2) ∈ regs_a_a_b
   ∧ ("/a/" : JsString) `prefix_of` ("/a/b" : JsString)
   ∧ Forall (λ r, regPath r ≠ ("/a/" : JsString)) regs_a_a_b
   ∧ lookup (routerAfter regs_a_a_b) "GET" "/a/"
     = Returned [mkInvocation (userFn 1) (Some ∅)])
  ∧ (registerAll (RadixRouter_new None) regs_items_id = Some (routerAfter regs_items_id)
     ∧ mkReg "GET" "/items/:id" (userFn 1) ∈ regs_items_id
     ∧ ("/items/:i" : JsString) `prefix_of` ("/items/:id" : JsString)
     ∧ Forall (λ r, regPath r ≠ ("/items/:i" : JsString)) regs_items_id
     ∧ lookup (routerAfter regs_items_id) "GET" "/items/:i"
       = Returned [mkInvocation (userFn 1)
                     (Some {[ ("id" : JsString) := (":i" : JsString) ]})]).
Proof. split_and!; try (vm_compute; reflexivity); compute_done. Qed.

(** C6, amended: from a new router, after registrations that all returned
    and of which those under [m] have no colon in their path, the lookup of a
    strict prefix [p] of a path registered under [m] calls the not-found
    handler, provided [p] without its trailing slash was never registered
    under [m]; when [p] is not empty its traversal ends on a node that is
    not a leaf.  And in every router a lookup calls a registered handler if
    and only if the traversal ran to the end of the path and the node of its
    last iteration is a leaf. *)
Theorem C6_unregistered_prefix_not_found :
  (∀ notFoundCb rs st m q h (p : JsString),
     registerAll (RadixRouter_new notFoundCb) rs = Some st →
     mkReg m q h ∈ rs →
     Forall (λ r, regMethod r = m → ":"%char ∉ regPath r) rs →
     p `prefix_of` q → p ≠ q →
     Forall (λ r, regMethod r = m → regPath r ≠ clearPath p) rs →
     lookup st m p = Returned [mkInvocation (default noopFn notFoundCb) None]
     ∧ (p ≠ [] →
        ∃ tree, treeByMethod st !! m = Some tree
          ∧ kindAt tree (clearPath p) = Some None))
  ∧ (∀ st m path h pp,
       lookup st m path = Returned [mkInvocation h (Some pp)]
       ↔ ∃ tree node,
           treeByMethod st !! m = Some tree
           ∧ traverseLoop (S (length (clearPath path))) 1 (clearPath path)
               (nodeByPathFragment tree) None ∅ = Some (Some node, pp)
           ∧ leafHandler node = Some h).
Proof.
  split; [|apply lookup_match_iff].
  intros notFoundCb rs st m q h p Hall Hin Hcolon Hpre Hne Hnever.
  destruct (registerAll_trie _ _ _ _ _ _ Hall Hin Hcolon) as (tree & Ht & Hnp & Hk & Hnf).
  assert (∀ h', kindAt tree (clearPath p) ≠ Some (Some h')) as Hnoleaf.
  { intros h' Hl. rewrite Hk in Hl. apply specKind_leaf, elem_of_pathsOf in Hl.
    rewrite Forall_forall in Hnever. by apply (Hnever _ Hl). }
  split.
  - unfold lookup. rewrite (resolve_kind _ _ _ _ Ht Hnp).
    destruct (kindAt tree (clearPath p)) as [[h'|]|] eqn:Ek; simpl; rewrite ?Hnf; [|done|done].
    by destruct (Hnoleaf h').
  - intros Hp. exists tree. split; [done|].
    assert (is_Some (kindAt tree (clearPath p))) as [k Hkind].
    { rewrite Hk. apply (specKind_prefix _ _ q h).
      - by apply elem_of_pathsOf.
      - by apply clearPath_nonempty.
      - etrans; [apply clearPath_prefix|done]. }
    rewrite Hkind. destruct k as [h'|]; [|done]. by destruct (Hnoleaf h').
Qed.

(** The theorem of C6 on [regs_x_ab]: the prefix [/a] of [/ab] is not found. *)
Lemma C6_witness :
  lookup (routerAfter regs_x_ab) "GET" "/a" = Returned [mkInvocation noopFn None]
  ∧ (("/a" : JsString) ≠ [] →
     ∃ tree, treeByMethod (routerAfter regs_x_ab) !! "GET" = Some tree
       ∧ kindAt tree (clearPath "/a") = Some None).
Proof.
  apply (proj1 C6_unregistered_prefix_not_found None regs_x_ab _ "GET" "/ab" (userFn 1) "/a").
  - vm_compute. reflexivity.
  - apply (bool_decide_unpack _). vm_compute. reflexivity.
  - apply (bool_decide_unpack _). vm_compute. reflexivity.
  - apply (bool_decide_unpack _). vm_compute. reflexivity.
  - vm_compute. discriminate.
  - apply (bool_decide_unpack _). vm_compute. reflexivity.
Defined.

(** * Further properties of the router *)

(** ** The descriptors [Params] finds *)

Lemma inOrder_snoc ps p from :
  inOrder ps → Forall (λ q, endIndex q ≤ from) ps → from ≤ startIndex p →
  inOrder (ps ++ [p]).
Proof.
  intros Hord Hall Hp i j a b Ha Hb Hij.
  assert (i < length ps) as Hi.
  { apply lookup_lt_Some in Hb. rewrite length_app in Hb. simpl in Hb. lia. }
  rewrite lookup_app_l in Ha by done.
  destruct (decide (j < length ps)) as [Hj|Hj].
  - rewrite lookup_app_l in Hb by done. eauto.
  - rewrite lookup_app_r in Hb by lia.
    destruct (j - length ps) eqn:E; simpl in Hb; [|done].
    injection Hb as <-.
    rewrite Forall_lookup in Hall. specialize (Hall _ _ Ha). simpl in Hall. lia.
Qed.

(** The loop keeps the descriptors well formed and in order: the scan for
    the next colon starts where the last descriptor ended. *)
Lemma parseParamsLoop_descriptors fuel path from acc ps :
  Forall (descriptorOf path) acc → inOrder acc →
  Forall (λ q, endIndex q ≤ from) acc →
  parseParamsLoop fuel path from acc = Some ps →
  Forall (descriptorOf path) ps ∧ inOrder ps.
Proof.
  revert from acc. induction fuel as [|fuel IH]; intros from acc Hd Ho Hb; simpl; [done|].
  destruct (indexOf ":" from path) as [s|] eqn:E; [|by intros [= <-]].
  case_decide as Hs; [|by intros [= <-]].
  destruct (indexOf_Some _ _ _ _ E) as (Hfrom & Hcolon & _).
  pose proof (paramEndIndex_colon _ _ Hcolon) as Hlt.
  pose proof (paramEndIndex_le path s) as Hle.
  apply IH.
  - apply Forall_app. split; [done|]. apply Forall_singleton.
    repeat split; simpl; try done. apply paramEndIndex_spec.
  - by apply inOrder_snoc with from.
  - apply Forall_app. split.
    + eapply Forall_impl; [done|]. simpl. intros. lia.
    + apply Forall_singleton. done.
Qed.

Lemma parseParams_in_order path ps :
  parseParams path = Some ps → Forall (descriptorOf path) ps ∧ inOrder ps.
Proof.
  apply parseParamsLoop_descriptors; [done| |done].
  intros ????. by rewrite lookup_nil.
Qed.

(** The loop leaves no colon behind: between the end of a descriptor and
    the start of the next there is none. *)
Lemma parseParamsLoop_covers fuel path from acc ps :
  length path - from < fuel →
  path !! 0 ≠ Some ":"%char →
  coveredUpTo path acc from →
  parseParamsLoop fuel path from acc = Some ps →
  coveredUpTo path ps (length path).
Proof.
  revert from acc. induction fuel as [|fuel IH]; intros from acc Hf H0 Hc; simpl; [done|].
  destruct (indexOf ":" from path) as [s|] eqn:E.
  - destruct (indexOf_Some _ _ _ _ E) as (Hfrom & Hcolon & Hfirst).
    case_decide as Hs.
    + pose proof (paramEndIndex_colon _ _ Hcolon) as Hlt.
      apply IH; [|done|].
      { apply lookup_lt_Some in Hcolon. lia. }
      intros j Hj Hjc.
      destruct (decide (j < from)) as [Hjf|Hjf].
      { destruct (Hc j Hjf Hjc) as (p & Hp & Hspan). exists p. split; [|done].
        apply elem_of_app. by left. }
      destruct (decide (j < s)) as [Hjs|Hjs].
      { exfalso. apply (Hfirst j); [lia|done]. }
      eexists. split; [apply elem_of_app; right; apply list_elem_of_singleton; done|].
      simpl. lia.
    + assert (s = 0) as -> by lia. done.
  - intros [= <-] j Hj Hjc.
    destruct (decide (j < from)) as [Hjf|Hjf]; [by apply Hc|].
    exfalso. apply (proj1 (indexOf_None _ _ _) E j); [lia|done].
Qed.

Lemma descriptor_name_no_slash path p : descriptorOf path p → "/"%char ∉ name p.
Proof.
  intros (Hs & Hc & [Hlt Hle] & Hb & ->) Hin.
  apply list_elem_of_lookup in Hin as [j Hj].
  rewrite slice_lookup in Hj. case_decide as Hje; [|done].
  destruct Hb as [(_ & _ & Hn)|[(Hn & _)|(Hn & _)]].
  - apply (Hn (startIndex p + 1 + j)); [lia|done].
  - apply (Hn (startIndex p + 1 + j)); [lia|done].
  - apply (Hn (startIndex p + 1 + j)); [lia|done].
Qed.

(** Two descriptors of a path do not start at the same index. *)
Lemma inOrder_unique path ps i j p q :
  Forall (descriptorOf path) ps → inOrder ps →
  ps !! i = Some p → ps !! j = Some q → startIndex p = startIndex q → i = j.
Proof.
  intros Hd Ho Hp Hq Heq.
  rewrite Forall_lookup in Hd.
  pose proof (Hd _ _ Hp) as (_ & _ & [? _] & _).
  pose proof (Hd _ _ Hq) as (_ & _ & [? _] & _).
  destruct (Nat.lt_trichotomy i j) as [Hlt|[->|Hlt]]; [|done|].
  - pose proof (Ho _ _ _ _ Hp Hq Hlt). lia.
  - pose proof (Ho _ _ _ _ Hq Hp Hlt). lia.
Qed.

(** X1: for every string [Params.#parseParams] ends, and every descriptor it
    returns starts after the first character, on a colon, ends after its
    start and inside the path, at the first slash from the colon on, else at
    the first question mark, else at the end of the path; its name is the
    text between the colon and that end and has no slash.  The descriptors
    are in the order of the path and their spans do not overlap. *)
Theorem X1_descriptors_are_well_formed path :
  ∃ ps, parseParams path = Some ps
    ∧ Forall (descriptorOf path) ps
    ∧ Forall (λ p, "/"%char ∉ name p) ps
    ∧ inOrder ps.
Proof.
  destruct (parseParams_is_Some path) as [ps Hps]. exists ps. split; [done|].
  destruct (parseParams_in_order _ _ Hps) as [Hd Ho].
  split_and!; [done| |done].
  eapply Forall_impl; [exact Hd|]. apply descriptor_name_no_slash.
Qed.

(** X2: on the descriptors of a path, [getAtPathIndex(i)] returns a
    descriptor exactly when that descriptor is one of them and starts at
    [i] (no two start at the same index, so [find] has no choice), and
    [hasAtPathIndex(i)] holds only at an index after the first character at
    which the path has a colon. *)
Theorem X2_descriptor_by_start_index path ps :
  parseParams path = Some ps →
  (∀ i p, getAtPathIndex ps i = Some p ↔ p ∈ ps ∧ startIndex p = i)
  ∧ (∀ i, hasAtPathIndex ps i = true → 0 < i ∧ path !! i = Some ":"%char).
Proof.
  intros Hps. destruct (parseParams_in_order _ _ Hps) as [Hd Ho].
  split.
  - intros i p. split; [apply getAtPathIndex_Some|].
    intros [Hin Hi]. unfold getAtPathIndex.
    destruct (list_find (λ p0, startIndex p0 = i) ps) as [[k q]|] eqn:E; simpl.
    + apply list_find_Some in E as (Hk & Hq & _).
      apply list_elem_of_lookup in Hin as [k' Hk'].
      assert (k' = k) as ->.
      { eapply inOrder_unique; [exact Hd|exact Ho|exact Hk'|exact Hk|congruence]. }
      congruence.
    + exfalso. rewrite list_find_None in E. rewrite Forall_forall in E. by apply (E p).
  - intros i Hi. unfold hasAtPathIndex in Hi. apply bool_decide_eq_true in Hi as [p Hp].
    apply getAtPathIndex_Some in Hp as [Hin <-].
    rewrite Forall_forall in Hd. destruct (Hd _ Hin) as (? & ? & _). done.
Qed.

(** The theorem of X2 on [/a/:x/b/:y]: the descriptor found at index 8 is
    the one of [y]. *)
Lemma X2_witness :
  getAtPathIndex params_x_y 8 = Some (mkParam "y" 8 10)
  ↔ mkParam "y" 8 10 ∈ params_x_y ∧ startIndex (mkParam "y" 8 10) = 8.
Proof.
  apply (X2_descriptor_by_start_index path_x_y params_x_y). vm_compute. reflexivity.
Defined.

(** X3: a path that starts with a colon has no descriptor at all; in any
    other path (every path [#validatePath] accepts) every colon lies in the
    span of a descriptor: it starts one or is part of the name of one. *)
Theorem X3_every_colon_is_covered path ps :
  parseParams path = Some ps →
  (path !! 0 = Some ":"%char → ps = [])
  ∧ (path !! 0 ≠ Some ":"%char →
     ∀ j, path !! j = Some ":"%char → ∃ p, p ∈ ps ∧ startIndex p ≤ j < endIndex p).
Proof.
  intros Hps. split.
  - intros H0. unfold parseParams in Hps. simpl in Hps.
    destruct (indexOf ":" 0 path) as [s|] eqn:E; [|congruence].
    destruct (indexOf_Some _ _ _ _ E) as (_ & _ & Hfirst).
    case_decide as Hs; [|congruence].
    exfalso. apply (Hfirst 0); [lia|done].
  - intros H0 j Hj.
    apply (parseParamsLoop_covers (S (length path)) path 0 [] ps);
      [lia|done|intros ? ?; lia|done|by eapply lookup_lt_Some|done].
Qed.

(** The theorem of X3 on [/a/:x/b/:y]: the colon at index 8 is covered. *)
Lemma X3_witness :
  ∃ p, p ∈ params_x_y ∧ startIndex p ≤ 8 < endIndex p.
Proof.
  apply (proj2 (X3_every_colon_is_covered path_x_y params_x_y
                  ltac:(vm_compute; reflexivity))).
  - vm_compute. discriminate.
  - vm_compute. reflexivity.
Defined.

(** ** How [register] ends *)

(** The loop appends: what is found so far is the beginning of the result. *)
Lemma parseParamsLoop_prefix fuel path from acc ps :
  parseParamsLoop fuel path from acc = Some ps → acc `prefix_of` ps.
Proof.
  revert from acc. induction fuel as [|fuel IH]; intros from acc; simpl; [done|].
  destruct (indexOf ":" from path) as [s|]; [|by intros [= <-]].
  case_decide; [|by intros [= <-]].
  intros Hl. apply IH in Hl. etrans; [|exact Hl]. by apply prefix_app_r.
Qed.

Lemma parseParams_second_colon (path : JsString) :
  path !! 0 ≠ Some ":"%char → path !! 1 = Some ":"%char →
  ∃ p ps, parseParams path = Some (p :: ps) ∧ startIndex p = 1.
Proof.
  intros H0 H1.
  destruct (parseParams_is_Some path) as [ps Hps]. revert Hps.
  unfold parseParams. cbn [parseParamsLoop].
  assert (indexOf ":" 0 path = Some 1) as ->.
  { destruct (indexOf ":" 0 path) as [k|] eqn:E.
    - destruct (indexOf_Some _ _ _ _ E) as (_ & Hk & Hfirst).
      destruct k as [|[|k]]; [done|done|]. exfalso. apply (Hfirst 1); [lia|done].
    - exfalso. apply (proj1 (indexOf_None _ _ _) E 1); [lia|done]. }
  rewrite decide_True by lia. simpl app. intros Hps.
  destruct (parseParamsLoop_prefix _ _ _ _ _ Hps) as [rest ->].
  rewrite Hps. simpl. eauto.
Qed.

(** [Tree.build] throws exactly for a colon in the second place. *)
Lemma Tree_build_completion tree (p : JsString) h :
  p !! 0 ≠ Some ":"%char →
  (Tree_build tree p h).1 =
    if decide (p !! 1 = Some ":"%char)
    then Thrown (TypeError "Cannot set properties of undefined (setting 'param')")
    else Returned ().
Proof.
  intros H0. case_decide as H1.
  - destruct (parseParams_second_colon p H0 H1) as (d & ps & Hps & Hd).
    unfold Tree_build. rewrite Hps.
    rewrite decide_True by (apply lookup_lt_Some in H1; lia).
    unfold getAtPathIndex. simpl. by rewrite decide_True.
  - destruct (Tree_build_Returned tree p h H1) as [tree' ->]. done.
Qed.

Lemma Tree_build_Thrown tree path h e :
  (Tree_build tree path h).1 = Thrown e → (Tree_build tree path h).2 = tree.
Proof.
  unfold Tree_build. destruct (parseParams path) as [ps|]; [|done].
  case_decide; [|done]. destruct (getAtPathIndex ps 1); [done|].
  by destruct (buildLoop _ _ _ _ _ _).
Qed.

Lemma Tree_build_fuel tree path h : (Tree_build tree path h).1 ≠ OutOfFuel.
Proof.
  unfold Tree_build.
  destruct (parseParams path) as [ps|] eqn:Hps.
  2:{ by destruct (parseParams_is_Some path) as [? ?]; simplify_eq. }
  case_decide as Hlen; [|done].
  destruct (getAtPathIndex ps 1); [done|].
  edestruct (buildLoop_is_Some (length path) ps h 2 path) as [child' ->]; [| |done].
  - eapply Forall_impl; [exact (parseParams_wf _ _ Hps)|]. by intros ? (? & ? & ?).
  - lia.
Qed.

Lemma Tree_traverse_new p : Tree_traverse Tree_new p = Some None.
Proof.
  unfold Tree_traverse. cbn [traverseLoop]. case_decide; [|done].
  simpl. by rewrite lookup_empty.
Qed.

Lemma setTree_same st m tree : treeByMethod st !! m = Some tree → setTree st m tree = st.
Proof. destruct st as [tbm nf]. unfold setTree. simpl. intros H. by rewrite insert_id. Qed.

(** X4: how [register] ends for a path that passes [#validatePath] and a
    function.  Under a method that names a member of [Object.prototype] and
    has no trie, it throws a TypeError ([tree.build] is not a function);
    under any other method it throws a TypeError when the second character of
    the path is a colon (the first iteration of [Tree.#buildTree] assigns to
    [node.param] while [node] is undefined) and returns otherwise. *)
Theorem X4_register_completion st m p h :
  validatePath (JsStr p) = inr p →
  (register st m (JsStr p) (JsFunction h)).1 =
    match readTreeByMethod st m with
    | InheritedMember => Thrown (TypeError "tree.build is not a function")
    | _ =>
        if decide (p !! 1 = Some ":"%char)
        then Thrown (TypeError "Cannot set properties of undefined (setting 'param')")
        else Returned ()
    end.
Proof.
  intros Hv. unfold register. rewrite Hv. simpl.
  apply validatePath_inr in Hv as (_ & Hhead & _).
  assert (p !! 0 ≠ Some ":"%char) as H0.
  { rewrite <- head_lookup, Hhead. done. }
  unfold RadixRouter_buildTree. destruct (readTreeByMethod st m) as [tree| |]; [|done|].
  - rewrite <- (Tree_build_completion tree p h H0). by destruct (Tree_build tree p h).
  - rewrite <- (Tree_build_completion Tree_new p h H0). by destruct (Tree_build Tree_new p h).
Qed.

(** The theorem of X4 for [get('/:id', handler)] on a new router. *)
Lemma X4_witness :
  (get (RadixRouter_new None) (JsStr "/:id") (JsFunction (userFn 1))).1
  = Thrown (TypeError "Cannot set properties of undefined (setting 'param')").
Proof.
  apply (X4_register_completion (RadixRouter_new None) "GET" "/:id" (userFn 1)).
  reflexivity.
Defined.

(** X5: a call of [register] that throws, whatever the error, changes no
    lookup: every method and every path resolve afterwards as before.  (When
    [Tree.build] throws under a method that had no trie, an empty trie stays
    behind for the method; no lookup can tell it from no trie.) *)
Theorem X5_failed_registration_changes_no_lookup st m path h e :
  (register st m path h).1 = Thrown e →
  ∀ m' p, lookup (register st m path h).2 m' p = lookup st m' p.
Proof.
  unfold register. destruct (validatePath path) as [|q]; [done|].
  destruct (validateHandler h) as [|f]; [done|].
  unfold RadixRouter_buildTree.
  destruct (readTreeByMethod st m) as [tree| |] eqn:Hs; [| done |].
  - pose proof (Tree_build_Thrown tree q f e) as Hsame.
    destruct (Tree_build tree q f) as [c tree']. simpl in *.
    intros Hc m' p. rewrite (Hsame Hc). rewrite setTree_same; [done|].
    unfold readTreeByMethod in Hs. destruct (treeByMethod st !! m); [congruence|].
    by case_bool_decide.
  - pose proof (Tree_build_Thrown Tree_new q f e) as Hsame.
    destruct (Tree_build Tree_new q f) as [c tree']. simpl in *.
    intros Hc m' p. rewrite (Hsame Hc).
    destruct (decide (m = m')) as [<-|Hne]; [|by rewrite lookup_setTree_ne].
    rewrite lookup_setTree_eq, Tree_traverse_new.
    unfold lookup, resolve, RadixRouter_traverseForHandler. by rewrite Hs.
Qed.

(** The theorem of X5 for the registration of [/:id], which throws, on a
    router with the route [/items/:id]. *)
Lemma X5_witness :
  lookup (register (routerAfter regs_items_id) "GET" (JsStr "/:id")
            (JsFunction (userFn 2))).2 "GET" "/items/42"
  = lookup (routerAfter regs_items_id) "GET" "/items/42".
Proof.
  apply (X5_failed_registration_changes_no_lookup _ "GET" _ _
           (TypeError "Cannot set properties of undefined (setting 'param')")).
  vm_compute. reflexivity.
Defined.

(** X6: every call of [register] and of [lookup] ends, on every router and
    for all arguments: the loops of [Params.#parseParams], [Tree.#buildTree]
    and [Tree.#traverseForHandler] stop within the iterations their callers
    allow them, although the last two rewrite the path they walk. *)
Theorem X6_register_and_lookup_terminate st m :
  (∀ path h, (register st m path h).1 ≠ OutOfFuel)
  ∧ (∀ p, lookup st m p ≠ OutOfFuel).
Proof.
  split.
  - intros path h. unfold register.
    destruct (validatePath path) as [|q]; [done|].
    destruct (validateHandler h) as [|f]; [done|].
    unfold RadixRouter_buildTree. destruct (readTreeByMethod st m) as [tree| |]; [|done|].
    + pose proof (Tree_build_fuel tree q f). by destruct (Tree_build tree q f).
    + pose proof (Tree_build_fuel Tree_new q f). by destruct (Tree_build Tree_new q f).
  - intros p. unfold lookup, resolve, RadixRouter_traverseForHandler.
    destruct (readTreeByMethod st m) as [tree| |]; [|done|done].
    by destruct (Tree_traverse_is_Some tree (clearPath p)) as [r ->].
Qed.

(** X7: which assertion fails.  [#register] checks the path before the
    handler and [#validatePath] makes its checks in a fixed order, so the
    message tells the first check that fails: not a string; no leading
    slash (the empty string included); a trailing slash on a path longer
    than one character; a trailing colon; and only for a path that passes
    all of these, a handler that is not a function.  In each case the router
    is not changed. *)
Theorem X7_first_failing_assertion st m path h :
  (typeOf path ≠ "string" →
   register st m path h = (Thrown (AssertionError "path must be a string"), st))
  ∧ (∀ s, path = JsStr s → head s ≠ Some "/"%char →
     register st m path h = (Thrown (AssertionError "path must start with /"), st))
  ∧ (∀ s, path = JsStr s → head s = Some "/"%char →
     1 < length s → last s = Some "/"%char →
     register st m path h = (Thrown (AssertionError "path can't end with /"), st))
  ∧ (∀ s, path = JsStr s → head s = Some "/"%char → last s = Some ":"%char →
     register st m path h = (Thrown (AssertionError "path can't end with :"), st))
  ∧ (∀ s, validatePath path = inr s → typeOf h ≠ "function" →
     register st m path h = (Thrown (AssertionError "handler must be a function"), st)).
Proof.
  unfold register. split_and!.
  - by destruct path.
  - intros s -> Hs. simpl. unfold startsWith. by rewrite bool_decide_eq_false_2.
  - intros s -> Hs Hl He. simpl. unfold startsWith, endsWith.
    rewrite (bool_decide_eq_true_2 _ Hs). simpl.
    by rewrite (bool_decide_eq_true_2 _ Hl), (bool_decide_eq_true_2 _ He).
  - intros s -> Hs He. simpl. unfold startsWith, endsWith.
    rewrite (bool_decide_eq_true_2 _ Hs). simpl.
    rewrite (bool_decide_eq_false_2 (last s = Some "/"%char)) by (rewrite He; done).
    rewrite andb_false_r. by rewrite (bool_decide_eq_true_2 _ He).
  - intros s -> Hh. by destruct h.
Qed.

(** The theorem of X7 for a path that ends with a colon and a handler that
    is not a function: the error is the one of the path. *)
Lemma X7_witness :
  register (RadixRouter_new None) "GET" (JsStr "/a:") JsUndefined
  = (Thrown (AssertionError "path can't end with :"), RadixRouter_new None).
Proof.
  destruct (X7_first_failing_assertion (RadixRouter_new None) "GET" (JsStr "/a:")
              JsUndefined) as (_ & _ & _ & Hcolon & _).
  apply (Hcolon "/a:"); reflexivity.
Defined.

(** ** What a lookup can call and pass *)

Section node_all.
Context (P : JsString → option Param → option Handler → Prop).

Lemma NodeAll_inv key node :
  NodeAll P key node →
  P key (param node) (leafHandler node) ∧ NodeAllMap P (childTree node).
Proof. by destruct 1. Qed.

Lemma NodeAll_setChildTree key node m :
  NodeAll P key node → NodeAllMap P m → NodeAll P key (setChildTree node m).
Proof. destruct 1. intros. by constructor. Qed.

Lemma NodeAllMap_insert m k c :
  NodeAllMap P m → NodeAll P k c → NodeAllMap P (<[k := c]> m).
Proof.
  intros Hm Hc k' c'. destruct (decide (k = k')) as [->|Hne].
  - rewrite lookup_insert_eq. by intros [= <-].
  - rewrite lookup_insert_ne by done. apply Hm.
Qed.

Lemma NodeAllMap_empty : NodeAllMap P ∅.
Proof. intros k c. by rewrite lookup_empty. Qed.

Lemma NodeAll_rootNode tree key :
  P key None None → NodeAllMap P (nodeByPathFragment tree) → NodeAll P key (rootNode tree).
Proof. intros. by constructor. Qed.

(** The node of an iteration: the one found, or a new one. *)
Lemma NodeAll_childOrNew m i path h :
  P (slice 0 i path) None (if decide (i = length path) then Some h else None) →
  NodeAllMap P m → NodeAll P (slice 0 i path) (childOrNew m i path h).
Proof.
  intros Hnew Hm. unfold childOrNew. destruct (m !! slice 0 i path) eqn:E; [by eapply Hm|].
  unfold newNode. case_decide; constructor; try done; apply NodeAllMap_empty.
Qed.

(** [Tree.#buildTree] makes new nodes without descriptor, with the handler
    it is given or none, and stores descriptors of the path only. *)
Lemma buildLoop_NodeAll fuel ps h i path key node node' :
  (∀ k d pr lh, d ∈ ps → P k pr lh → P k (Some d) lh) →
  (∀ k, P k None None) → (∀ k, P k None (Some h)) →
  NodeAll P key node → buildLoop fuel ps h i path node = Some node' → NodeAll P key node'.
Proof.
  intros Hd Hplain Hleaf. revert i path key node node'.
  induction fuel as [|fuel IH]; intros i path key node node' Hn; simpl; [done|].
  case_decide; [|by intros [= <-]].
  destruct (attachParam ps i path node) as [node1 path1] eqn:Ha.
  assert (NodeAll P key node1) as Hn1.
  { unfold attachParam in Ha. destruct (getAtPathIndex ps i) as [d|] eqn:Hg; simplify_eq; [|done].
    apply getAtPathIndex_Some in Hg as [Hin _].
    destruct Hn. constructor; [|done]. by eapply Hd. }
  destruct (buildLoop fuel ps h (i + 1) path1 _) as [child'|] eqn:Hc; simpl; [|done].
  intros [= <-]. apply NodeAll_setChildTree; [done|].
  apply NodeAllMap_insert; [exact (proj2 (NodeAll_inv _ _ Hn1))|].
  eapply IH; [|exact Hc].
  apply NodeAll_childOrNew; [by case_decide|exact (proj2 (NodeAll_inv _ _ Hn1))].
Qed.

Lemma Tree_build_NodeAll tree path h :
  (∀ ps k d pr lh, parseParams path = Some ps → d ∈ ps → P k pr lh → P k (Some d) lh) →
  (∀ k, P k None None) → (∀ k, P k None (Some h)) →
  NodeAllMap P (nodeByPathFragment tree) →
  NodeAllMap P (nodeByPathFragment (Tree_build tree path h).2).
Proof.
  intros Hd Hplain Hleaf Ht. unfold Tree_build.
  destruct (parseParams path) as [ps|] eqn:Hps; [|done].
  case_decide; [|done].
  destruct (getAtPathIndex ps 1); [done|].
  destruct (buildLoop _ _ _ _ _ _) as [child'|] eqn:Hc; [|done].
  simpl. apply NodeAllMap_insert; [done|].
  eapply buildLoop_NodeAll; [|done|done| |exact Hc].
  { intros k d pr lh. by apply Hd. }
  apply NodeAll_childOrNew; [by case_decide|done].
Qed.

(** The node a traversal ends on is a node of the trie, and its key is made
    of characters of the path: the path is compared prefix by prefix and
    only ever shortened. *)
Lemma traverseLoop_NodeAll fuel i (p : JsString) m nv pp n pp' :
  NodeAllMap P m → (∀ n0, nv = Some n0 → ∃ key, NodeAll P key n0 ∧ key ⊆ p) →
  traverseLoop fuel i p m nv pp = Some (Some n, pp') →
  ∃ key, NodeAll P key n ∧ key ⊆ p.
Proof.
  revert i p m nv pp. induction fuel as [|fuel IH]; intros i p m nv pp Hm Hnv; simpl; [done|].
  case_decide.
  - destruct (m !! slice 0 i p) as [c|] eqn:E; [|done].
    assert (∀ p1 pp1, slice 0 i p ⊆ p1 → p1 ⊆ p →
              traverseLoop fuel (i + 1) p1 (childTree c) (Some c) pp1 = Some (Some n, pp') →
              ∃ key, NodeAll P key n ∧ key ⊆ p) as Hnext.
    { intros p1 pp1 Hk Hp1 Ht.
      destruct (IH (i + 1) p1 (childTree c) (Some c) pp1) as (key & Hkey & Hsub); [| |done|].
      - exact (proj2 (NodeAll_inv _ _ (Hm _ _ E))).
      - intros ? [= <-]. exists (slice 0 i p). split; [by eapply Hm|done].
      - exists key. split; [done|]. by etrans. }
    destruct (param c) as [d|].
    + apply Hnext; unfold captureParam; cbn [fst]; rewrite !slice_0, ?slice_to_end.
      * intros x Hx. apply elem_of_app. left.
        replace i with (i `min` (i + 1)) in Hx by lia.
        rewrite <- take_take in Hx. by eapply subseteq_take.
      * intros x [Hx|Hx]%elem_of_app; [by eapply subseteq_take|by eapply subseteq_drop].
    + apply Hnext; [|done]. rewrite slice_0. apply subseteq_take.
  - intros [= -> ->]. by apply Hnv.
Qed.

(** A property of the trie of [m] that every build under [m] keeps holds
    after any sequence of registrations. *)
Lemma registerAll_tree_invariant (I : Tree → Prop) m rs st st' :
  (∀ tree q h, mkReg m q h ∈ rs → I tree → I (Tree_build tree q h).2) →
  I (treeOf st m) → registerAll st rs = Some st' → I (treeOf st' m).
Proof.
  revert st. induction rs as [|[m0 q h] rs IH]; intros st Hb Hinv; simpl; [by intros [= <-]|].
  destruct (register st m0 (JsStr q) (JsFunction h)) as [[[]| |] st1] eqn:Hr; try done.
  apply IH.
  - intros tree q' h' Hin. apply Hb. by right.
  - apply register_Returned in Hr as (_ & tree' & Hbuild & ->).
    destruct (decide (m0 = m)) as [->|Hne].
    + rewrite treeOf_setTree_eq.
      change tree' with (Returned (), tree').2. rewrite <- Hbuild.
      apply Hb; [by left|done].
    + by rewrite treeOf_setTree_ne.
Qed.

Lemma registerAll_NodeAll m rs st st' :
  (∀ q h ps k d pr lh, mkReg m q h ∈ rs → parseParams q = Some ps → d ∈ ps →
     P k pr lh → P k (Some d) lh) →
  (∀ k, P k None None) → (∀ k q h, mkReg m q h ∈ rs → P k None (Some h)) →
  NodeAllMap P (nodeByPathFragment (treeOf st m)) →
  registerAll st rs = Some st' →
  NodeAllMap P (nodeByPathFragment (treeOf st' m)).
Proof.
  intros Hd Hplain Hleaf.
  apply (registerAll_tree_invariant (λ tree, NodeAllMap P (nodeByPathFragment tree))).
  intros tree q h Hin. apply Tree_build_NodeAll; [|done|].
  - intros ps k d pr lh. by apply (Hd q h).
  - intros k. by apply (Hleaf k q).
Qed.
End node_all.

Lemma NodeAllMap_new P notFoundCb m :
  NodeAllMap P (nodeByPathFragment (treeOf (RadixRouter_new notFoundCb) m)).
Proof. intros k c. unfold treeOf. simpl. by rewrite lookup_empty. Qed.

(** X8: a lookup calls one function, once: either a handler that was
    registered under the method of the lookup, with a parameter object, or
    the not-found handler given to the constructor ([noopFn] when none was
    given), without argument.  No handler of another method and no handler
    that was never registered is ever called; this holds for every sequence
    of registrations, with or without parameters. *)
Theorem X8_lookup_calls_a_registered_handler notFoundCb rs st m p invocations :
  registerAll (RadixRouter_new notFoundCb) rs = Some st →
  lookup st m p = Returned invocations →
  (∃ q h pp, mkReg m q h ∈ rs ∧ invocations = [mkInvocation h (Some pp)])
  ∨ invocations = [mkInvocation (default noopFn notFoundCb) None].
Proof.
  intros Hall Hl.
  assert (∃ r, invocations = dispatch st r) as [r ->].
  { unfold lookup, resolve in Hl.
    destruct (RadixRouter_traverseForHandler st m (clearPath p)); simplify_eq. eauto. }
  destruct r as [[h pp]|]; simpl in *.
  - left. apply lookup_match_iff in Hl as (tree & node & Ht & Hw & Hh).
    pose proof (registerAll_NodeAll (handlersIn (λ h, ∃ q, mkReg m q h ∈ rs)) m rs _ _
      ltac:(by intros ????????? Hp) ltac:(done)
      ltac:(by intros k q g Hin ? [= <-]; exists q) (NodeAllMap_new _ _ _) Hall) as Hinv.
    unfold treeOf in Hinv. rewrite Ht in Hinv. simpl in Hinv.
    assert (∃ q, mkReg m q h ∈ rs) as [q Hq]; [|by exists q, h, pp].
    edestruct traverseLoop_NodeAll as (key & Hnode & _); [exact Hinv| |exact Hw|]; [done|].
    apply NodeAll_inv in Hnode as [Hnode _]. by apply Hnode.
  - right. by rewrite (registerAll_notFondHandler _ _ _ Hall).
Qed.

(** The theorem of X8 on [regs_id_42] and the lookup of [/items/42]. *)
Lemma X8_witness :
  (∃ q h pp, mkReg "GET" q h ∈ regs_id_42
     ∧ [mkInvocation (userFn 1) (Some {[ ("id" : JsString) := ("42" : JsString) ]})]
       = [mkInvocation h (Some pp)])
  ∨ [mkInvocation (userFn 1) (Some {[ ("id" : JsString) := ("42" : JsString) ]})]
    = [mkInvocation (default noopFn None) None].
Proof.
  apply (X8_lookup_calls_a_registered_handler None regs_id_42 (routerAfter regs_id_42)
           "GET" "/items/42").
  - vm_compute. reflexivity.
  - vm_compute. reflexivity.
Defined.

(** The value of a parameter stops before the first slash. *)
Lemma value_no_slash (path : JsString) from :
  "/"%char ∉ slice from (paramEndIndex path from) path.
Proof.
  intros [j Hj]%list_elem_of_lookup.
  rewrite slice_lookup in Hj. case_decide as Hje; [|done].
  destruct (paramEndIndex_spec path from) as [(_ & _ & Hn)|[(Hn & _)|(Hn & _)]].
  - apply (Hn (from + j)); [lia|done].
  - apply (Hn (from + j)); [lia|done].
  - apply (Hn (from + j)); [lia|done].
Qed.

Lemma traverseLoop_paramsIn Q fuel i p m nv pp r :
  NodeAllMap (namesIn Q) m → paramsIn Q pp →
  traverseLoop fuel i p m nv pp = Some r → paramsIn Q r.2.
Proof.
  revert i p m nv pp. induction fuel as [|fuel IH]; intros i p m nv pp Hm Hpp; simpl; [done|].
  case_decide; [|by intros [= <-]].
  destruct (m !! slice 0 i p) as [c|] eqn:E; [|by intros [= <-]].
  pose proof (NodeAll_inv _ _ c (Hm _ _ E)) as [Hc Hct].
  destruct (param c) as [d|] eqn:Hd.
  - apply IH; [done|]. unfold captureParam, setProperty. simpl.
    case_decide; [done|]. intros k v.
    destruct (decide (name d = k)) as [<-|Hne].
    + rewrite lookup_insert_eq. intros [= <-].
      split_and!; [by apply Hc|done|apply value_no_slash].
    + rewrite lookup_insert_ne by done. apply Hpp.
  - by apply IH.
Qed.

(** X9: the parameter object a handler receives.  Every property of it has
    the name of a descriptor that [Params] finds in a path registered under
    the method of the lookup; no property is named [__proto__] (the
    assignment to that name is lost); and no value contains a slash. *)
Theorem X9_parameters_passed_to_a_handler notFoundCb rs st m p h pp :
  registerAll (RadixRouter_new notFoundCb) rs = Some st →
  lookup st m p = Returned [mkInvocation h (Some pp)] →
  ∀ k v, pp !! k = Some v →
    paramNameOf m rs k ∧ k ≠ ("__proto__" : JsString) ∧ "/"%char ∉ v.
Proof.
  intros Hall Hl.
  apply lookup_match_iff in Hl as (tree & node & Ht & Hw & Hh).
  pose proof (registerAll_NodeAll (namesIn (paramNameOf m rs)) m rs
    (RadixRouter_new notFoundCb) st) as Hinv.
  specialize (Hinv
    ltac:(by intros q g ps k d pr lh Hin Hps Hd _ d' [= <-]; exists q, g, ps, d)
    ltac:(done) ltac:(done) (NodeAllMap_new _ _ _) Hall).
  unfold treeOf in Hinv. rewrite Ht in Hinv. simpl in Hinv.
  refine (traverseLoop_paramsIn _ _ _ _ _ _ _ _ Hinv _ Hw).
  intros k v. by rewrite lookup_empty.
Qed.

(** The theorem of X9 on [regs_id_42] and the lookup of [/items/42]. *)
Lemma X9_witness :
  paramNameOf "GET" regs_id_42 "id"
  ∧ ("id" : JsString) ≠ ("__proto__" : JsString)
  ∧ "/"%char ∉ ("42" : JsString).
Proof.
  apply (X9_parameters_passed_to_a_handler None regs_id_42 (routerAfter regs_id_42)
           "GET" "/items/42" (userFn 1) {[ ("id" : JsString) := ("42" : JsString) ]}).
  - vm_compute. reflexivity.
  - vm_compute. reflexivity.
  - vm_compute. reflexivity.
Defined.

(** ** Registrations of paths without parameter *)

Lemma buildLoop_param_nil fuel h i path node node' :
  buildLoop fuel [] h i path node = Some node' → param node' = param node.
Proof.
  destruct fuel as [|fuel]; [done|].
  destruct (decide (i ≤ length path)) as [Hi|Hi].
  - rewrite buildLoop_step by done.
    change (attachParam [] i path node) with (node, path). cbv beta iota.
    destruct (buildLoop fuel [] h (i + 1) path _); simpl; [|done]. by intros [= <-].
  - rewrite buildLoop_exit by lia. by intros [= <-].
Qed.

(** Building a path without parameter puts new nodes where there were none
    and touches nothing else: a traversal that ended on a node before ends
    on a node with the same handler, having parsed the same parameters,
    whatever descriptors the trie holds. *)
Lemma buildLoop_stable fb : ∀ fw i q p h node node' nv nv' pp n pp',
  buildLoop fb [] h i q node = Some node' →
  leafHandler <$> nv = leafHandler <$> nv' →
  traverseLoop fw i p (childTree node) nv pp = Some (Some n, pp') →
  ∃ n', traverseLoop fw i p (childTree node') nv' pp = Some (Some n', pp')
        ∧ leafHandler n' = leafHandler n.
Proof.
  induction fb as [|fb IH]; intros fw i q p h node node' nv nv' pp n pp' Hb Hk Ht; [done|].
  destruct fw as [|fw]; [done|].
  destruct (decide (i ≤ length p)) as [Hip|Hip].
  2:{ rewrite traverseLoop_exit in Ht |- * by lia. injection Ht as -> ->.
      destruct nv' as [n'|]; simpl in Hk; [|done]. injection Hk as Hk. eauto. }
  destruct (decide (i ≤ length q)) as [Hiq|Hiq].
  2:{ rewrite buildLoop_exit in Hb by lia. injection Hb as <-. exists n. split; [|done].
      rewrite <- Ht. by apply traverseLoop_node_irrelevant. }
  rewrite buildLoop_step in Hb by done.
  change (attachParam [] i q node) with (node, q) in Hb. cbv beta iota in Hb.
  destruct (buildLoop fb [] h (i + 1) q _) as [child'|] eqn:Hc; simpl in Hb; [|done].
  injection Hb as <-. cbn [childTree setChildTree].
  destruct (childTree node !! slice 0 i p) as [c|] eqn:Hl.
  2:{ by rewrite traverseLoop_dead in Ht. }
  destruct (decide (slice 0 i p = slice 0 i q)) as [Heq|Hne].
  - unfold childOrNew in Hc. rewrite <- Heq, Hl in Hc.
    pose proof (buildLoop_param_nil _ _ _ _ _ _ Hc) as Hpar.
    pose proof (buildLoop_leafHandler _ _ _ _ _ _ _ Hc) as Hleaf.
    assert (<[slice 0 i q := child']> (childTree node) !! slice 0 i p = Some child') as Hl'.
    { rewrite Heq. apply lookup_insert_eq. }
    destruct (param c) as [d|] eqn:Hpc.
    + rewrite (traverseLoop_capture _ _ _ _ _ _ c d) in Ht by done.
      rewrite (traverseLoop_capture _ _ _ _ _ _ child' d) by done.
      apply (IH _ _ _ _ _ _ _ (Some c) _ _ _ _ Hc); [simpl; congruence|exact Ht].
    + rewrite (traverseLoop_literal _ _ _ _ _ _ c) in Ht by done.
      rewrite (traverseLoop_literal _ _ _ _ _ _ child') by done.
      apply (IH _ _ _ _ _ _ _ (Some c) _ _ _ _ Hc); [simpl; congruence|exact Ht].
  - exists n. split; [|done]. rewrite <- Ht.
    cbn [traverseLoop]. rewrite !decide_True by done.
    rewrite lookup_insert_ne by done. by rewrite Hl.
Qed.

Lemma Tree_build_stable tree q h tree' p n pp :
  ":"%char ∉ q → Tree_build tree q h = (Returned (), tree') →
  traverseLoop (S (length p)) 1 p (nodeByPathFragment tree) None ∅ = Some (Some n, pp) →
  ∃ n', traverseLoop (S (length p)) 1 p (nodeByPathFragment tree') None ∅ = Some (Some n', pp)
        ∧ leafHandler n' = leafHandler n.
Proof.
  intros Hq Hb Ht.
  rewrite (Tree_build_loop _ _ _ [] (parseParams_no_colon _ Hq) eq_refl) in Hb.
  destruct (buildLoop _ _ _ _ _ _) as [root'|] eqn:Hr; [|done].
  injection Hb as <-. cbn [nodeByPathFragment].
  by apply (buildLoop_stable _ _ _ _ _ _ _ _ None None _ _ _ Hr).
Qed.

(** X10: registering a path without colon never takes a route away.  On any
    router, with or without parameters in its tries, a lookup that called a
    handler before the registration calls the same handler with the same
    parameters after it, under every method. *)
Theorem X10_registration_keeps_matches st m q h st' m' p g pp :
  register st m (JsStr q) (JsFunction h) = (Returned (), st') →
  ":"%char ∉ q →
  lookup st m' p = Returned [mkInvocation g (Some pp)] →
  lookup st' m' p = Returned [mkInvocation g (Some pp)].
Proof.
  intros Hr Hq Hl.
  apply register_Returned in Hr as (_ & tree' & Hb & ->).
  destruct (decide (m = m')) as [<-|Hne]; [|by rewrite lookup_setTree_ne].
  apply lookup_match_iff in Hl as (tree & n & Ht & Hw & Hh).
  unfold treeOf in Hb. rewrite Ht in Hb. simpl in Hb.
  destruct (Tree_build_stable _ _ _ _ _ _ _ Hq Hb Hw) as (n' & Hw' & Hh').
  apply lookup_match_iff. exists tree', n'. split_and!; [|done|congruence].
  simpl. apply lookup_insert_eq.
Qed.

(** The theorem of X10 for the registration of [/items/42] after
    [/items/:id]: the lookup of [/items/7] still finds the pattern. *)
Lemma X10_witness :
  lookup (routerAfter regs_id_42) "GET" "/items/7"
  = Returned [mkInvocation (userFn 1) (Some {[ ("id" : JsString) := ("7" : JsString) ]})].
Proof.
  apply (X10_registration_keeps_matches (routerAfter regs_items_id) "GET" "/items/42"
           (userFn 2) (routerAfter regs_id_42) "GET").
  - vm_compute. reflexivity.
  - apply (bool_decide_unpack _). vm_compute. reflexivity.
  - vm_compute. reflexivity.
Defined.

(** The lookups of a method whose paths have no colon, read off the list of
    registrations. *)
Lemma lookup_specKind notFoundCb rs st m p :
  registerAll (RadixRouter_new notFoundCb) rs = Some st →
  Forall (λ r, regMethod r = m → ":"%char ∉ regPath r) rs →
  readTreeByMethod st m ≠ InheritedMember →
  lookup st m p = Returned (invocationOf st (specKind (pathsOf m rs) (clearPath p))).
Proof.
  intros Hall Hfree Hm.
  pose proof (registerAll_trieInv m rs _ [] st
    ltac:(intros q h Hin; rewrite Forall_forall in Hfree; by apply (Hfree _ Hin))
    (trieInv_new m notFoundCb) Hall) as [Hnp Hkind].
  simpl in Hkind.
  unfold lookup.
  destruct (treeByMethod st !! m) as [tree|] eqn:Ht.
  - unfold treeOf in Hnp, Hkind. rewrite Ht in Hnp, Hkind. simpl in Hnp, Hkind.
    by rewrite (resolve_kind _ _ _ tree Ht Hnp), Hkind.
  - unfold treeOf in Hkind. rewrite Ht in Hkind. simpl in Hkind.
    rewrite <- Hkind, kindAt_Tree_new.
    unfold resolve, RadixRouter_traverseForHandler.
    unfold readTreeByMethod in Hm |- *. rewrite Ht in Hm |- *.
    by case_bool_decide.
Qed.

(** No call of [register] stores a trie under the name of a member of
    [Object.prototype]: the member is found instead, and [tree.build]
    throws before anything is stored. *)
Lemma reachable_no_inherited_tree st m :
  reachable st → m ∈ objectPrototypeKeys → treeByMethod st !! m = None.
Proof.
  intros Hst Hm. induction Hst as [cb|st m0 path h Hst IH]; [apply lookup_empty|].
  unfold register. destruct (validatePath path) as [|q]; [done|].
  destruct (validateHandler h) as [|f]; [done|].
  unfold RadixRouter_buildTree, readTreeByMethod.
  destruct (treeByMethod st !! m0) as [tree|] eqn:Hm0.
  - destruct (Tree_build tree q f) as [c tree']. simpl.
    rewrite lookup_insert_ne; [done|]. intros ->. congruence.
  - case_bool_decide as Hin; [done|].
    destruct (Tree_build Tree_new q f) as [c tree']. simpl.
    rewrite lookup_insert_ne; [done|]. by intros ->.
Qed.

Lemma registerAll_reachable rs : ∀ st st',
  reachable st → registerAll st rs = Some st' → reachable st'.
Proof.
  induction rs as [|[m q h] rs IH]; intros st st' Hst; simpl.
  - by intros [= <-].
  - destruct (register st m (JsStr q) (JsFunction h)) as [[[]| |] st1] eqn:Er; try done.
    apply IH. replace st1 with (register st m (JsStr q) (JsFunction h)).2 by by rewrite Er.
    by constructor.
Qed.

(** Under the name of a member of [Object.prototype] the lookup finds the
    member, which has no method [traverse]. *)
Lemma lookup_inherited st m p :
  reachable st → m ∈ objectPrototypeKeys →
  lookup st m p = Thrown (TypeError "tree.traverse is not a function").
Proof.
  intros Hst Hm. unfold lookup, resolve, RadixRouter_traverseForHandler, readTreeByMethod.
  rewrite (reachable_no_inherited_tree _ _ Hst Hm). by rewrite bool_decide_eq_true_2.
Qed.

(** X11: routing without parameters, in full.  After registrations from a
    new router of which those under [m] have no colon, a lookup under [m],
    when [m] is not the name of a member of [Object.prototype], is decided
    by the first registration under [m], in the order of the calls, whose
    path has the request path (one trailing slash stripped) as a prefix:
    when that path is the request path itself its handler is called with an
    empty parameter object; when it is longer, or when there is no such
    registration, the not-found handler is called with [undefined].  When
    [m] is the name of a member of [Object.prototype] the lookup throws the
    TypeError of calling [tree.traverse] and calls nothing. *)
Theorem X11_lookup_without_parameters notFoundCb rs st m p :
  registerAll (RadixRouter_new notFoundCb) rs = Some st →
  Forall (λ r, regMethod r = m → ":"%char ∉ regPath r) rs →
  lookup st m p =
    if decide (m ∈ objectPrototypeKeys)
    then Thrown (TypeError "tree.traverse is not a function")
    else Returned (match specKind (pathsOf m rs) (clearPath p) with
                   | Some (Some h) => [mkInvocation h (Some ∅)]
                   | _ => [mkInvocation (default noopFn notFoundCb) None]
                   end).
Proof.
  intros Hall Hfree. case_decide as Hm.
  - apply lookup_inherited; [|done].
    eapply registerAll_reachable; [apply reachable_new|exact Hall].
  - rewrite (lookup_specKind _ _ _ _ _ Hall Hfree (readTreeByMethod_not_inherited _ _ Hm)).
    unfold invocationOf. by rewrite (registerAll_notFondHandler _ _ _ Hall).
Qed.

(** The theorem of X11 on [regs_ab_a]: the first path that has [/a] as a
    prefix is [/ab], so [/a], registered after it, is not found. *)
Lemma X11_witness :
  lookup (routerAfter regs_ab_a) "GET" "/a" = Returned [mkInvocation noopFn None].
Proof.
  apply (X11_lookup_without_parameters None regs_ab_a (routerAfter regs_ab_a) "GET" "/a").
  - vm_compute. reflexivity.
  - apply (bool_decide_unpack _). vm_compute. reflexivity.
Defined.

Lemma pathsOf_Permutation m rs rs' : rs ≡ₚ rs' → pathsOf m rs ≡ₚ pathsOf m rs'.
Proof.
  induction 1 as [|[m1 q1 h1] ? ? ? IH|[m1 q1 h1] [m2 q2 h2] ?|]; simpl.
  - done.
  - case_decide; [by constructor|done].
  - repeat case_decide; try done. apply perm_swap.
  - by etrans.
Qed.

Lemma specKind_Some_inv regs x k :
  specKind regs x = Some k → x ≠ [] ∧ ∃ q h, (q, h) ∈ regs ∧ x `prefix_of` q.
Proof.
  induction regs as [|[q h] regs IH]; simpl; [done|].
  unfold addedAt, addedKind. case_decide as Hx.
  - simpl. intros H. destruct (IH H) as (? & q' & h' & ? & ?). split; [done|].
    exists q', h'. split; [by right|done].
  - case_decide as Hp; simpl.
    + intros _. split; [done|]. exists q, h. split; [by left|done].
    + intros H. destruct (IH H) as (? & q' & h' & ? & ?). split; [done|].
      exists q', h'. split; [by right|done].
Qed.

Lemma specKind_registered regs x h :
  (∀ q1 h1 q2 h2, (q1, h1) ∈ regs → (q2, h2) ∈ regs → q1 `prefix_of` q2 →
     (q1, h1) = (q2, h2)) →
  x ≠ [] → (x, h) ∈ regs → specKind regs x = Some (Some h).
Proof.
  intros Hpf Hx. induction regs as [|[q g] regs IH]; intros Hin; [by apply elem_of_nil in Hin|].
  simpl. unfold addedAt, addedKind. rewrite decide_False by done.
  destruct (decide (x `prefix_of` q)) as [Hp|Hp].
  - assert ((x, h) = (q, g)) as [= <- <-] by (apply Hpf; [done|by left|done]).
    by rewrite decide_True.
  - simpl. apply IH.
    + intros q1 h1 q2 h2 H1 H2. apply Hpf; by right.
    + apply elem_of_cons in Hin as [[= <- <-]|Hin]; [|done]. by destruct Hp.
Qed.

(** Where no path is a prefix of another the kind of node under a fragment
    does not depend on the order of the paths. *)
Lemma specKind_Permutation regs regs' x :
  regs ≡ₚ regs' →
  (∀ q1 h1 q2 h2, (q1, h1) ∈ regs → (q2, h2) ∈ regs → q1 `prefix_of` q2 →
     (q1, h1) = (q2, h2)) →
  specKind regs x = specKind regs' x.
Proof.
  intros Hperm Hpf.
  assert (∀ q1 h1 q2 h2, (q1, h1) ∈ regs' → (q2, h2) ∈ regs' → q1 `prefix_of` q2 →
     (q1, h1) = (q2, h2)) as Hpf'.
  { intros q1 h1 q2 h2 H1 H2. apply Hpf; by rewrite Hperm. }
  destruct (specKind regs x) as [[h|]|] eqn:E.
  - pose proof (specKind_Some_inv _ _ _ E) as [Hx _].
    apply specKind_leaf in E. rewrite Hperm in E.
    symmetry. by apply specKind_registered.
  - destruct (specKind_Some_inv _ _ _ E) as (Hx & q & h & Hin & Hp).
    rewrite Hperm in Hin.
    destruct (specKind_prefix regs' x q h Hin Hx Hp) as [[g|] E']; [|done].
    apply specKind_leaf in E'. rewrite <- Hperm in E'.
    rewrite (specKind_registered regs x g Hpf Hx E') in E. done.
  - destruct (specKind regs' x) as [k|] eqn:E'; [|done].
    destruct (specKind_Some_inv _ _ _ E') as (Hx & q & h & Hin & Hp).
    rewrite <- Hperm in Hin.
    destruct (specKind_prefix regs x q h Hin Hx Hp) as [? ?]. congruence.
Qed.

(** A method has a trie only if it had one or a registration made it. *)
Lemma registerAll_tree_origin rs st st' m :
  registerAll st rs = Some st' → is_Some (treeByMethod st' !! m) →
  is_Some (treeByMethod st !! m) ∨ ∃ q h, mkReg m q h ∈ rs.
Proof.
  revert st. induction rs as [|[m0 q h] rs IH]; intros st; simpl.
  - intros [= <-]. by left.
  - destruct (register st m0 (JsStr q) (JsFunction h)) as [[[]| |] st1] eqn:Hr; try done.
    intros Hall Hs. destruct (IH _ Hall Hs) as [Ht|(q' & h' & Hin)].
    + apply register_Returned in Hr as (_ & tree' & _ & ->).
      destruct (decide (m0 = m)) as [->|Hne].
      * right. exists q, h. by left.
      * left. simpl in Ht. by rewrite lookup_insert_ne in Ht.
    + right. exists q', h'. by right.
Qed.

(** X12: when no registered path has a colon and, under each method, no
    registered path is a prefix of another (nor registered twice), the
    order of the registrations does not matter: two routers built from a
    new router by the same registrations in different orders answer every
    lookup alike. *)
Theorem X12_registration_order_is_irrelevant notFoundCb rs rs' st st' m p :
  rs ≡ₚ rs' →
  registerAll (RadixRouter_new notFoundCb) rs = Some st →
  registerAll (RadixRouter_new notFoundCb) rs' = Some st' →
  Forall (λ r, ":"%char ∉ regPath r) rs →
  prefixFree rs →
  lookup st m p = lookup st' m p.
Proof.
  intros Hperm Hall Hall' Hfree Hpf.
  assert (is_Some (treeByMethod st !! m) ↔ is_Some (treeByMethod st' !! m)) as Htree.
  { split; intros Hs.
    - destruct (registerAll_tree_origin _ _ _ _ Hall Hs) as [[? Ht]|(q & h & Hin)].
      + simpl in Ht. by rewrite lookup_empty in Ht.
      + rewrite Hperm in Hin. by eapply registerAll_has_tree.
    - destruct (registerAll_tree_origin _ _ _ _ Hall' Hs) as [[? Ht]|(q & h & Hin)].
      + simpl in Ht. by rewrite lookup_empty in Ht.
      + rewrite <- Hperm in Hin. by eapply registerAll_has_tree. }
  assert (readTreeByMethod st m = InheritedMember
          ∨ readTreeByMethod st m ≠ InheritedMember) as [Hi|Hi]
    by (destruct (readTreeByMethod st m); eauto).
  - assert (readTreeByMethod st' m = InheritedMember) as Hi'.
    { unfold readTreeByMethod in Hi |- *.
      destruct (treeByMethod st !! m) eqn:E; [done|].
      destruct (treeByMethod st' !! m) eqn:E'.
      - destruct (proj2 Htree) as [? ?]; [by eexists|done].
      - done. }
    unfold lookup, resolve, RadixRouter_traverseForHandler. by rewrite Hi, Hi'.
  - assert (readTreeByMethod st' m ≠ InheritedMember) as Hi'.
    { unfold readTreeByMethod in Hi |- *.
      destruct (treeByMethod st' !! m) eqn:E'; [done|].
      destruct (treeByMethod st !! m) eqn:E; [|done].
      destruct (proj1 Htree) as [? ?]; [by eexists|done]. }
    assert (Forall (λ r, regMethod r = m → ":"%char ∉ regPath r) rs) as Hfree'.
    { eapply Forall_impl; [exact Hfree|]. by intros r Hr _. }
    rewrite (lookup_specKind notFoundCb rs st m p Hall Hfree' Hi).
    rewrite (lookup_specKind notFoundCb rs' st' m p Hall'); [|by rewrite <- Hperm|done].
    rewrite (specKind_Permutation _ (pathsOf m rs') _ (pathsOf_Permutation m _ _ Hperm)).
    + unfold invocationOf.
      by rewrite (registerAll_notFondHandler _ _ _ Hall),
                 (registerAll_notFondHandler _ _ _ Hall').
    + intros q1 h1 q2 h2 H1%elem_of_pathsOf H2%elem_of_pathsOf Hp.
      unfold prefixFree in Hpf. rewrite Forall_forall in Hpf.
      pose proof (Hpf _ H1) as Hpf1. rewrite Forall_forall in Hpf1.
      by pose proof (Hpf1 _ H2 eq_refl Hp) as [= -> ->].
Qed.

(** The theorem of X12 for [/a] and [/b] in both orders. *)
Lemma X12_witness :
  lookup (routerAfter regs_a_b) "GET" "/b" = lookup (routerAfter regs_b_a) "GET" "/b".
Proof.
  apply (X12_registration_order_is_irrelevant None regs_a_b regs_b_a).
  - apply perm_swap.
  - vm_compute. reflexivity.
  - vm_compute. reflexivity.
  - apply (bool_decide_unpack _). vm_compute. reflexivity.
  - apply (bool_decide_unpack _). vm_compute. reflexivity.
Defined.

(** ** One pattern, every request *)

(** Descriptors that start before the cursor play no part in the rest of
    the loop. *)
Lemma buildLoop_params_behind fuel ps h : ∀ i path node,
  Forall (λ d, startIndex d < i) ps →
  buildLoop fuel ps h i path node = buildLoop fuel [] h i path node.
Proof.
  induction fuel as [|fuel IH]; intros i path node Hps; [done|].
  destruct (decide (i ≤ length path)) as [Hi|Hi].
  2:{ by rewrite !buildLoop_exit by lia. }
  rewrite !buildLoop_step by done.
  assert (getAtPathIndex ps i = None) as Hnone.
  { destruct (getAtPathIndex ps i) as [d|] eqn:E; [|done].
    apply getAtPathIndex_Some in E as [Hin Hd].
    rewrite Forall_forall in Hps. specialize (Hps _ Hin). lia. }
  unfold attachParam. rewrite Hnone. change (getAtPathIndex [] i) with (@None Param).
  cbv beta iota. rewrite IH; [done|].
  eapply Forall_impl; [done|]. simpl. intros. lia.
Qed.

(** With no descriptor the result does not depend on the fuel, once there
    is enough of it. *)
Lemma buildLoop_nil_fuel f1 : ∀ f2 h i path node,
  length path + 1 - i < f1 → length path + 1 - i < f2 →
  buildLoop f1 [] h i path node = buildLoop f2 [] h i path node.
Proof.
  induction f1 as [|f1 IH]; intros f2 h i path node H1 H2; [lia|].
  destruct f2 as [|f2]; [lia|].
  destruct (decide (i ≤ length path)) as [Hi|Hi].
  2:{ by rewrite !buildLoop_exit by lia. }
  rewrite !buildLoop_step by done.
  change (attachParam [] i path node) with (node, path). cbv beta iota.
  rewrite (IH f2) by lia. done.
Qed.

(** With no descriptor the loop reads the child map of the node it is
    given and nothing else of it. *)
Lemma buildLoop_nil_childTree fuel h i path node node' node2 :
  buildLoop fuel [] h i path node = Some node' →
  childTree node2 = childTree node →
  buildLoop fuel [] h i path node2 = Some (setChildTree node2 (childTree node')).
Proof.
  destruct fuel as [|fuel]; [done|]. intros Hb Hct.
  destruct (decide (i ≤ length path)) as [Hi|Hi].
  - rewrite buildLoop_step in Hb |- * by done.
    change (attachParam [] i path node) with (node, path) in Hb.
    change (attachParam [] i path node2) with (node2, path).
    cbv beta iota in Hb |- *. rewrite Hct.
    destruct (buildLoop fuel [] h (i + 1) path _) as [child'|]; simpl in *; [|done].
    by injection Hb as <-.
  - rewrite buildLoop_exit in Hb |- * by lia. injection Hb as <-.
    destruct node2. simpl in *. by rewrite Hct.
Qed.

(** The iteration that finds a descriptor: it stores it, cuts it out of the
    path and goes on as a loop without descriptors would. *)
Lemma buildLoop_attach fuel ps h i (path : JsString) node d :
  i ≤ length path → getAtPathIndex ps i = Some d →
  Forall (λ d', startIndex d' ≤ i) ps →
  i ≤ length (slice 0 i path ++ slice (endIndex d) (length path) path) →
  buildLoop (S fuel) ps h i path node
  = buildLoop (S fuel) [] h i (slice 0 i path ++ slice (endIndex d) (length path) path)
      (setParam node d).
Proof.
  intros Hi Hd Hps Hi'.
  rewrite !buildLoop_step by done.
  unfold attachParam at 1. rewrite Hd.
  change (attachParam [] i ?p ?n) with (n, p). cbv beta iota.
  rewrite buildLoop_params_behind; [done|].
  eapply Forall_impl; [done|]. simpl. intros. lia.
Qed.

Lemma NoParam_freshNode : NoParam freshNode.
Proof. constructor. intros k c. by rewrite lookup_empty. Qed.

Section route.
Context (pre suf : JsString).
Hypothesis pre_no_colon : ":"%char ∉ pre.
Hypothesis pre_length : 2 ≤ length pre.
Hypothesis suf_no_colon : ":"%char ∉ suf.
Hypothesis suf_shape : suf = [] ∨ head suf = Some "/"%char.

Lemma routePattern_length nm :
  length (routePattern pre nm suf) = length pre + S (length nm) + length suf.
Proof. unfold routePattern. by rewrite length_app, paramPattern_length. Qed.

(** Where the value ends in a request made of the prefix, a value and the
    suffix. *)
Lemma route_value_end (v : JsString) :
  "/"%char ∉ v → (suf = [] → "?"%char ∉ v) →
  paramEndIndex (pre ++ v ++ suf) (length pre) = length pre + length v.
Proof.
  intros Hs Hq. destruct suf_shape as [->|Hhead].
  - rewrite paramEndIndex_no_terminator.
    + rewrite !length_app. simpl. lia.
    + rewrite drop_app_length, app_nil_r. intros x Hx.
      split; intros ->; [done|by apply Hq].
  - destruct suf as [|c s]; [done|]. injection Hhead as ->.
    unfold paramEndIndex, indexOf. rewrite drop_app_length.
    by rewrite indexOfChar_first.
Qed.

Lemma parseParams_routePattern nm :
  "/"%char ∉ nm → (suf = [] → "?"%char ∉ nm) →
  parseParams (routePattern pre nm suf) = Some [patternParam pre nm].
Proof.
  intros Hs Hq.
  pose proof (routePattern_length nm) as Hlen.
  assert (routePattern pre nm suf = pre ++ (":"%char :: nm) ++ suf) as Hpat.
  { unfold routePattern, paramPattern. by rewrite <- app_assoc. }
  unfold parseParams. cbn [parseParamsLoop].
  assert (indexOf ":" 0 (routePattern pre nm suf) = Some (length pre)) as ->.
  { rewrite Hpat. simpl. by apply indexOf_first. }
  rewrite decide_True by lia.
  assert (paramEndIndex (routePattern pre nm suf) (length pre)
          = length (paramPattern pre nm)) as ->.
  { rewrite Hpat, paramPattern_length.
    destruct suf_shape as [->|Hhead].
    - rewrite paramEndIndex_no_terminator.
      + rewrite !length_app. simpl. lia.
      + rewrite drop_app_length, app_nil_r.
        intros x [->|Hx]%elem_of_cons; [done|]. split; intros ->; [done|by apply Hq].
    - destruct suf as [|c s]; [done|]. injection Hhead as ->.
      unfold paramEndIndex, indexOf. rewrite drop_app_length.
      rewrite indexOfChar_first; [done|].
      by intros [?|?]%elem_of_cons. }
  assert (slice (length pre + 1) (length (paramPattern pre nm)) (routePattern pre nm suf)
          = nm) as ->.
  { unfold slice. rewrite paramPattern_length.
    replace (length pre + S (length nm) - (length pre + 1)) with (length nm) by lia.
    unfold routePattern, paramPattern.
    replace (length pre + 1) with (length (pre ++ [":"%char]))
      by (rewrite length_app; simpl; lia).
    rewrite (cons_middle _ pre nm), (assoc_L (++) pre), <- (assoc_L (++) (pre ++ _)).
    by rewrite drop_app_length, take_app_length. }
  apply parseParamsLoop_done; [lia|].
  apply indexOf_beyond. unfold routePattern. rewrite drop_app_length.
  by intros x Hx ->.
Qed.

Lemma route_key nm j :
  j ≤ length pre → slice 0 j (routePattern pre nm suf) = take j pre.
Proof.
  intros. rewrite slice_0. unfold routePattern, paramPattern.
  rewrite <- app_assoc. by rewrite take_app_le.
Qed.

Lemma route_collapse nm :
  slice 0 (length pre) (routePattern pre nm suf)
  ++ slice (endIndex (patternParam pre nm)) (length (routePattern pre nm suf))
       (routePattern pre nm suf) = pre ++ suf.
Proof.
  rewrite slice_to_end, route_key, firstn_all by done. f_equal.
  unfold routePattern. simpl. by rewrite drop_app_length.
Qed.

(** Cutting the value out of a request leaves the collapsed pattern exactly
    when the request is the prefix, a value and the suffix. *)
Lemma collapsed_request (r : JsString) :
  slice 0 (length pre) r ++ slice (paramEndIndex r (length pre)) (length r) r
  = pre ++ suf
  ↔ matchesRoute pre suf r.
Proof.
  rewrite slice_0, slice_to_end. split.
  - intros H.
    pose proof (f_equal length H) as Hlen.
    rewrite !length_app, length_take, length_drop in Hlen.
    pose proof (paramEndIndex_le r (length pre)) as Hle.
    assert (length pre ≤ length r) as Hpr.
    { destruct (decide (length pre ≤ length r)); [done|].
      rewrite paramEndIndex_beyond in Hlen by lia. lia. }
    pose proof (paramEndIndex_ge r (length pre) Hpr) as Hge.
    apply app_inj_1 in H as [Htake Hdrop]; [|rewrite length_take; lia].
    assert (routeValue pre suf r
            = slice (length pre) (paramEndIndex r (length pre)) r) as Hv.
    { unfold routeValue, slice. f_equal. lia. }
    split_and!.
    + rewrite Hv. unfold slice.
      transitivity (take (length pre) r
                    ++ take (paramEndIndex r (length pre) - length pre) (drop (length pre) r)
                    ++ drop (paramEndIndex r (length pre)) r);
        [|by rewrite Htake, Hdrop].
      etrans; [symmetry; apply (take_drop (length pre) r)|]. f_equal.
      etrans; [symmetry; apply (take_drop (paramEndIndex r (length pre) - length pre))|].
      f_equal. rewrite drop_drop. f_equal. lia.
    + rewrite Hv. apply value_no_slash.
    + intros ->. rewrite Hv. intros [j Hj]%list_elem_of_lookup.
      rewrite slice_lookup in Hj. case_decide as Hje; [|done].
      simpl in Hlen.
      destruct (paramEndIndex_spec r (length pre))
        as [(_ & Hc & _)|[(_ & _ & Hc & _)|(_ & Hn & _)]].
      * apply lookup_lt_Some in Hc. lia.
      * apply lookup_lt_Some in Hc. lia.
      * apply (Hn (length pre + j)); [lia|done].
  - intros (Hr & Hs & Hq).
    set (v := routeValue pre suf r) in *. clearbody v. subst r.
    rewrite (route_value_end v Hs Hq).
    rewrite take_app_length. f_equal.
    rewrite <- (length_app pre v), (assoc_L (++)). by rewrite drop_app_length.
Qed.

Lemma captured_value (r : JsString) :
  matchesRoute pre suf r →
  slice (length pre) (paramEndIndex r (length pre)) r = routeValue pre suf r.
Proof.
  intros (Hr & Hs & Hq).
  set (v := routeValue pre suf r) in *. clearbody v. subst r.
  rewrite (route_value_end v Hs Hq). unfold slice.
  replace (length pre + length v - length pre) with (length v) by lia.
  by rewrite drop_app_length, take_app_length.
Qed.

(** Building the pattern under a node without children hangs the route
    under it. *)
Lemma buildLoop_fresh_route nm h k : ∀ j fb node,
  j + k = length pre → 1 ≤ j → childTree node = ∅ →
  length (routePattern pre nm suf) + 1 - j < fb →
  ∃ node', buildLoop fb [patternParam pre nm] h j (routePattern pre nm suf) node = Some node'
    ∧ param node' = (if decide (j = length pre) then Some (patternParam pre nm) else param node)
    ∧ isRoute pre nm (pre ++ suf) h k node'.
Proof.
  pose proof (routePattern_length nm) as Hpat.
  induction k as [|k IH]; intros j fb node Hjk Hj Hct Hfb.
  - assert (j = length pre) as -> by lia.
    destruct fb as [|fb]; [lia|].
    rewrite (buildLoop_attach _ _ _ _ _ _ (patternParam pre nm));
      [|lia|by rewrite getAtPathIndex_patternParam, decide_True
       |by apply Forall_singleton
       |rewrite route_collapse, length_app; lia].
    rewrite route_collapse.
    destruct (buildLoop_is_Some (S (length (pre ++ suf))) [] h (length pre) (pre ++ suf)
                freshNode) as [t Ht]; [done|lia|].
    rewrite (buildLoop_nil_childTree _ _ _ _ freshNode t (setParam node (patternParam pre nm)));
      [| |done].
    2:{ rewrite <- Ht. apply buildLoop_nil_fuel; rewrite length_app; lia. }
    eexists. split; [done|]. split; [by rewrite decide_True|].
    split; [by eexists|]. by exists t.
  - assert (j < length pre) as Hlt by lia.
    destruct fb as [|fb]; [lia|].
    rewrite buildLoop_step by lia.
    unfold attachParam. rewrite getAtPathIndex_patternParam, decide_False by lia.
    set (child := childOrNew (childTree node) j (routePattern pre nm suf) h).
    assert (childTree child = ∅ ∧ param child = None ∧ leafHandler child = None)
      as (Hcc & Hcp & Hcl).
    { unfold child, childOrNew. rewrite Hct, lookup_empty. unfold newNode.
      by rewrite decide_False by lia. }
    destruct (IH (j + 1) fb child ltac:(lia) ltac:(lia) Hcc ltac:(lia))
      as (child' & Hb & Hp & Hr).
    pose proof (buildLoop_leafHandler _ _ _ _ _ _ _ Hb) as Hl'. rewrite Hcl in Hl'.
    rewrite Hb. cbn [mbind option_bind]. eexists. split; [done|].
    split; [by rewrite decide_False by lia|].
    exists child'. cbn [childTree setChildTree]. split_and!; [|done| |done].
    + rewrite Hct, insert_empty, route_key by lia. do 2 f_equal. lia.
    + intros Hk. rewrite Hp, decide_False by lia. done.
Qed.

(** Building a pattern with the same prefix and suffix and another name
    over the route replaces the descriptor and nothing else. *)
Lemma buildLoop_again_route nm1 h1 nm2 h2 k : ∀ j fb node,
  j + k = length pre → 1 ≤ j → isRoute pre nm1 (pre ++ suf) h1 k node →
  length (routePattern pre nm2 suf) + 1 - j < fb →
  ∃ node', buildLoop fb [patternParam pre nm2] h2 j (routePattern pre nm2 suf) node = Some node'
    ∧ param node' = (if decide (j = length pre) then Some (patternParam pre nm2) else param node)
    ∧ leafHandler node' = leafHandler node
    ∧ isRoute pre nm2 (pre ++ suf) h1 k node'.
Proof.
  pose proof (routePattern_length nm2) as Hpat.
  induction k as [|k IH]; intros j fb node Hjk Hj Hr Hfb.
  - assert (j = length pre) as -> by lia.
    destruct Hr as (_ & t & Ht & Hct).
    destruct fb as [|fb]; [lia|].
    rewrite (buildLoop_attach _ _ _ _ _ _ (patternParam pre nm2));
      [|lia|by rewrite getAtPathIndex_patternParam, decide_True
       |by apply Forall_singleton
       |rewrite route_collapse, length_app; lia].
    rewrite route_collapse.
    pose proof (buildLoop_idem _ _ _ h2 _ _ _ _ Ht) as Ht2.
    rewrite (buildLoop_nil_childTree _ _ _ _ t t (setParam node (patternParam pre nm2)));
      [| |done].
    2:{ rewrite <- Ht2. apply buildLoop_nil_fuel; rewrite length_app; lia. }
    eexists. split; [done|]. split; [by rewrite decide_True|]. split; [done|].
    split; [by eexists|]. by exists t.
  - assert (j < length pre) as Hlt by lia.
    destruct Hr as (c & Hct & Hcl & Hcp & Hr).
    assert (length pre - S k = j) as Hkey by lia. rewrite Hkey in Hct.
    destruct fb as [|fb]; [lia|].
    rewrite buildLoop_step by lia.
    unfold attachParam. rewrite getAtPathIndex_patternParam, decide_False by lia.
    unfold childOrNew. rewrite route_key by lia. rewrite Hct, lookup_singleton_eq.
    destruct (IH (j + 1) fb c ltac:(lia) ltac:(lia) Hr ltac:(lia))
      as (c' & Hb & Hp & Hl & Hr').
    rewrite Hb. cbn [mbind option_bind]. eexists. split; [done|].
    split; [by rewrite decide_False by lia|]. split; [done|].
    exists c'. cbn [childTree setChildTree]. split_and!; [|congruence| |done].
    + by rewrite insert_singleton_eq, Hkey.
    + intros Hk. rewrite Hp, decide_False by lia. by apply Hcp.
Qed.

(** The traversal of any request along the route. *)
Lemma traverseLoop_route nm h k : ∀ j node fw nv pp r,
  j + k = length pre → 1 ≤ j → isRoute pre nm (pre ++ suf) h k node →
  length r + 1 - j < fw →
  (∀ n, nv = Some n → leafHandler n = None) →
  (0 < k →
   leafResult <$> traverseLoop fw j r (childTree node) nv pp
   = Some (if decide (matchesRoute pre suf r)
           then Some (mkTraverseResult h (setProperty nm (routeValue pre suf r) pp))
           else None))
  ∧ (k = 0 →
     leafResult <$> traverseLoop fw j r (childTree node) nv pp
     = Some (if decide (r = pre ++ suf) then Some (mkTraverseResult h pp) else None)).
Proof.
  induction k as [|k IH]; intros j node fw nv pp r Hjk Hj Hr Hfw Hnv.
  - assert (j = length pre) as -> by lia.
    destruct Hr as (_ & t & Ht & Hct). split; [lia|]. intros _. rewrite Hct.
    destruct fw as [|fw]; [lia|].
    destruct (decide (length pre ≤ length r)) as [Hle|Hgt].
    2:{ rewrite traverseLoop_exit by lia.
        rewrite decide_False by (intros ->; rewrite length_app in Hgt; lia).
        simpl. unfold leafResult. simpl. destruct nv as [n|]; [|done].
        by rewrite (Hnv n eq_refl). }
    destruct (buildLoop_kind _ (S fw) _ _ r _ _ _ nv nv pp NoParam_freshNode Hle
                ltac:(lia) Ht) as (r0 & r' & H0 & H' & Hkind).
    rewrite traverseLoop_dead in H0 by done. injection H0 as <-.
    pose proof (buildLoop_NoParam _ _ _ _ _ _ NoParam_freshNode Ht) as Hnp.
    apply NoParam_inv in Hnp as [_ Hnp].
    pose proof (traverseLoop_NoParam _ _ _ _ _ _ _ Hnp H') as Hpp.
    rewrite H'. simpl. f_equal.
    destruct r' as [[n|] pp']; simpl in Hpp; subst pp'; simpl in Hkind;
      unfold addedKind in Hkind; unfold leafResult; simpl.
    + destruct (decide (r `prefix_of` pre ++ suf)); [|done].
      injection Hkind as ->. by case_decide.
    + destruct (decide (r `prefix_of` pre ++ suf)); [done|].
      rewrite decide_False; [done|]. by intros ->.
  - assert (j < length pre) as Hlt by lia.
    destruct Hr as (c & Hct & Hcl & Hcp & Hr).
    assert (length pre - S k = j) as Hkey' by lia. rewrite Hkey' in Hct.
    split; [|lia]. intros _. rewrite Hct.
    destruct fw as [|fw]; [lia|].
    destruct (decide (j ≤ length r)) as [Hle|Hgt].
    2:{ rewrite traverseLoop_exit by lia.
        rewrite decide_False.
        - simpl. unfold leafResult. simpl. destruct nv as [n|]; [|done].
          by rewrite (Hnv n eq_refl).
        - intros (Hm & _). rewrite Hm, !length_app in Hgt. lia. }
    destruct (decide (slice 0 j r = take j pre)) as [Hkey|Hkey].
    2:{ rewrite traverseLoop_dead; [|lia|by rewrite lookup_singleton_ne].
        rewrite decide_False; [done|].
        intros (Hm & _). apply Hkey. rewrite Hm, !slice_0. by rewrite take_app_le by lia. }
    assert (∀ n, Some c = Some n → leafHandler n = None) as Hnv'
      by (by intros ? [= <-]).
    destruct k as [|k].
    + destruct Hr as ((d & Hd & Hnm) & Htail).
      rewrite (traverseLoop_capture _ _ _ _ _ _ c d); [| lia | | done].
      2:{ by rewrite Hkey, lookup_singleton_eq. }
      pose proof (captureParam_length d j r pp Hle) as Hcl'.
      destruct (IH (j + 1) c fw (Some c) (captureParam d j r pp).2
                  (captureParam d j r pp).1 ltac:(lia) ltac:(lia)
                  ltac:(split; [by exists d|done]) ltac:(lia) Hnv')
        as [_ Ht2].
      rewrite Ht2 by done. f_equal.
      unfold captureParam. cbn [fst snd]. rewrite Hnm.
      replace (j + 1) with (length pre) by lia.
      destruct (decide (matchesRoute pre suf r)) as [Hm|Hm].
      * rewrite decide_True by (by apply collapsed_request).
        by rewrite captured_value.
      * by rewrite decide_False by (by rewrite collapsed_request).
    + rewrite (traverseLoop_literal _ _ _ _ _ _ c); [| lia | | by apply Hcp].
      2:{ by rewrite Hkey, lookup_singleton_eq. }
      destruct (IH (j + 1) c fw (Some c) pp r ltac:(lia) ltac:(lia) Hr ltac:(lia) Hnv')
        as [Ht1 _].
      apply Ht1. lia.
Qed.

Lemma Tree_build_route nm h tree' :
  "/"%char ∉ nm → (suf = [] → "?"%char ∉ nm) →
  Tree_build Tree_new (routePattern pre nm suf) h = (Returned (), tree') →
  isRoute pre nm (pre ++ suf) h (length pre - 1) (rootNode tree').
Proof.
  intros Hs Hq.
  rewrite (Tree_build_loop _ _ _ _ (parseParams_routePattern nm Hs Hq))
    by (rewrite getAtPathIndex_patternParam; by rewrite decide_False by lia).
  destruct (buildLoop_fresh_route nm h (length pre - 1) 1
              (S (length (routePattern pre nm suf))) (rootNode Tree_new))
    as (n & -> & _ & Hr); [lia|lia|done|lia|].
  intros [= <-]. by destruct (length pre - 1) as [|k] eqn:E; [lia|].
Qed.

Lemma Tree_build_again_route nm1 h1 nm2 h2 tree tree' :
  "/"%char ∉ nm2 → (suf = [] → "?"%char ∉ nm2) →
  isRoute pre nm1 (pre ++ suf) h1 (length pre - 1) (rootNode tree) →
  Tree_build tree (routePattern pre nm2 suf) h2 = (Returned (), tree') →
  isRoute pre nm2 (pre ++ suf) h1 (length pre - 1) (rootNode tree').
Proof.
  intros Hs Hq Hr.
  rewrite (Tree_build_loop _ _ _ _ (parseParams_routePattern nm2 Hs Hq))
    by (rewrite getAtPathIndex_patternParam; by rewrite decide_False by lia).
  destruct (buildLoop_again_route nm1 h1 nm2 h2 (length pre - 1) 1
              (S (length (routePattern pre nm2 suf))) (rootNode tree))
    as (n & -> & _ & _ & Hr'); [lia|lia|done|lia|].
  intros [= <-]. by destruct (length pre - 1) as [|k] eqn:E; [lia|].
Qed.

Lemma Tree_traverse_route nm h tree r :
  isRoute pre nm (pre ++ suf) h (length pre - 1) (rootNode tree) →
  Tree_traverse tree r
  = Some (if decide (matchesRoute pre suf r)
          then Some (mkTraverseResult h (setProperty nm (routeValue pre suf r) ∅))
          else None).
Proof.
  intros Hr. unfold Tree_traverse.
  destruct (traverseLoop_route nm h (length pre - 1) 1 (rootNode tree) (S (length r))
              None ∅ r) as [Ht _]; [lia|lia|done|lia|done|].
  apply Ht. lia.
Qed.
End route.

(** X13: one route with one parameter, for every request.  The pattern is
    a literal prefix [pre] (two characters or more, no colon), a parameter
    [:nm] (no slash in the name) and a literal suffix [suf] without colon
    that is empty or starts with a slash, as in [/users/:id/posts]; with an
    empty suffix the name has no question mark.  After its registration
    under a method without trie, a lookup under that method calls the
    handler exactly when the request path, one trailing slash stripped, is
    the prefix, a value without slash and the suffix (with an empty suffix:
    a value without question mark either); the handler gets the object
    that has the value, which may be empty, under [nm], and [{}] when [nm]
    is [__proto__].  Every other request calls the not-found handler: more
    segments than the pattern has, fewer, or a query string after a
    parameter that ends the pattern. *)
Theorem X13_single_parameter_route (pre nm suf : JsString) h st m st' r :
  ":"%char ∉ pre → 2 ≤ length pre → "/"%char ∉ nm →
  ":"%char ∉ suf → suf = [] ∨ head suf = Some "/"%char →
  (suf = [] → "?"%char ∉ nm) →
  treeByMethod st !! m = None →
  register st m (JsStr (routePattern pre nm suf)) (JsFunction h) = (Returned (), st') →
  lookup st' m r =
    Returned (if decide (matchesRoute pre suf (clearPath r))
              then [mkInvocation h
                      (Some (if decide (nm = ("__proto__" : JsString)) then ∅
                             else {[ nm := routeValue pre suf (clearPath r) ]}))]
              else [mkInvocation (notFondHandler st) None]).
Proof.
  intros H1 H2 H3 H4 H5 H6 Hm [Hb ->]%register_new_method; [|done].
  rewrite <- setProperty_empty, lookup_setTree_eq.
  rewrite (Tree_traverse_route pre suf H2 H4 H5 nm h _ _
             (Tree_build_route pre suf H1 H2 H4 H5 nm h _ H3 H6 Hb)).
  by case_decide.
Qed.

(** The theorem of X13 for [/users/:id/posts] and the request
    [/users/42/posts]. *)
Lemma X13_witness :
  lookup (routerAfter regs_users_posts) "GET" "/users/42/posts"
  = Returned [mkInvocation (userFn 1) (Some {[ ("id" : JsString) := ("42" : JsString) ]})].
Proof.
  apply (X13_single_parameter_route "/users/" "id" "/posts" (userFn 1)
           (RadixRouter_new None) "GET" (routerAfter regs_users_posts) "/users/42/posts").
  - apply (bool_decide_unpack _). vm_compute. reflexivity.
  - simpl. lia.
  - apply (bool_decide_unpack _). vm_compute. reflexivity.
  - apply (bool_decide_unpack _). vm_compute. reflexivity.
  - right. reflexivity.
  - discriminate.
  - reflexivity.
  - vm_compute. reflexivity.
Defined.

(** X14: two patterns that differ in the name of the parameter only,
    registered one after the other under a method that had no trie (the
    patterns as in X13).  Afterwards every request the route matches calls
    the handler of the first registration with the object that has the value
    under the name of the second, and with [{}] when that name is
    [__proto__]; every other request calls the not-found handler.  The
    second registration changes the name and nothing else; its handler is
    stored nowhere. *)
Theorem X14_same_route_other_name (pre nm1 nm2 suf : JsString) h1 h2 st m st1 st2 r :
  ":"%char ∉ pre → 2 ≤ length pre → "/"%char ∉ nm1 → "/"%char ∉ nm2 →
  ":"%char ∉ suf → suf = [] ∨ head suf = Some "/"%char →
  (suf = [] → ("?"%char ∉ nm1) ∧ ("?"%char ∉ nm2)) →
  treeByMethod st !! m = None →
  register st m (JsStr (routePattern pre nm1 suf)) (JsFunction h1) = (Returned (), st1) →
  register st1 m (JsStr (routePattern pre nm2 suf)) (JsFunction h2) = (Returned (), st2) →
  lookup st2 m r =
    Returned (if decide (matchesRoute pre suf (clearPath r))
              then [mkInvocation h1
                      (Some (if decide (nm2 = ("__proto__" : JsString)) then ∅
                             else {[ nm2 := routeValue pre suf (clearPath r) ]}))]
              else [mkInvocation (notFondHandler st) None]).
Proof.
  intros H1 H2 H3 H4 H5 H6 H7 Hm [Hb ->]%register_new_method; [|done].
  intros (_ & tree2 & Hb2 & ->)%register_Returned.
  rewrite treeOf_setTree_eq in Hb2.
  rewrite <- setProperty_empty, lookup_setTree_eq.
  rewrite (Tree_traverse_route pre suf H2 H5 H6 nm2 h1 tree2 _).
  - by case_decide.
  - eapply (Tree_build_again_route pre suf H1 H2 H5 H6 nm1 h1 nm2 h2);
      [done|intros Hn; by destruct (H7 Hn)| |exact Hb2].
    eapply (Tree_build_route pre suf H1 H2 H5 H6); [done|intros Hn; by destruct (H7 Hn)|done].
Qed.

(** The theorem of X14 for [/items/:id] and then [/items/:name]. *)
Lemma X14_witness :
  lookup (routerAfter regs_id_name) "GET" "/items/42"
  = Returned [mkInvocation (userFn 1)
                (Some {[ ("name" : JsString) := ("42" : JsString) ]})].
Proof.
  apply (X14_same_route_other_name "/items/" "id" "name" [] (userFn 1) (userFn 2)
           (RadixRouter_new None) "GET" (routerAfter regs_items_id)
           (routerAfter regs_id_name) "/items/42").
  - apply (bool_decide_unpack _). vm_compute. reflexivity.
  - simpl. lia.
  - apply (bool_decide_unpack _). vm_compute. reflexivity.
  - apply (bool_decide_unpack _). vm_compute. reflexivity.
  - apply (bool_decide_unpack _). vm_compute. reflexivity.
  - left. reflexivity.
  - intros _. split; apply (bool_decide_unpack _); vm_compute; reflexivity.
  - reflexivity.
  - vm_compute. reflexivity.
  - vm_compute. reflexivity.
Defined.

(** ** The shape of a request path *)

(** X15: for every path [#validatePath] accepts, the path and the path
    followed by one slash are looked up alike, on every router and under
    every method (also when the lookup throws). *)
Theorem X15_lookup_with_one_more_slash st m v p :
  validatePath v = inr p → lookup st m (p ++ ["/"%char]) = lookup st m p.
Proof.
  intros Hv. unfold lookup.
  rewrite clearPath_trailing_slash by (by eapply valid_nonempty).
  by rewrite (clearPath_valid _ _ Hv).
Qed.

(** The theorem of X15 for [/items/42] on [regs_items_id]. *)
Lemma X15_witness :
  lookup (routerAfter regs_items_id) "GET" (("/items/42" : JsString) ++ ["/"%char])
  = lookup (routerAfter regs_items_id) "GET" "/items/42".
Proof.
  apply (X15_lookup_with_one_more_slash _ _ (JsStr "/items/42")). reflexivity.
Defined.

Lemma Tree_build_rootKeys tree (p : JsString) h :
  head p = Some "/"%char → rootKeys tree → rootKeys (Tree_build tree p h).2.
Proof.
  intros Hp Ht. unfold Tree_build.
  destruct (parseParams p) as [ps|]; [|done].
  case_decide; [|done]. destruct (getAtPathIndex ps 1); [done|].
  destruct (buildLoop _ _ _ _ _ _) as [child'|]; [|done].
  intros k c. simpl. destruct (decide (slice 0 1 p = k)) as [<-|Hne].
  - intros _. destruct p as [|x p]; simplify_eq/=. done.
  - rewrite lookup_insert_ne by done. apply Ht.
Qed.

Lemma register_rootKeys st m path h :
  (∀ m' tree, treeByMethod st !! m' = Some tree → rootKeys tree) →
  ∀ m' tree, treeByMethod (register st m path h).2 !! m' = Some tree → rootKeys tree.
Proof.
  intros Hst. unfold register.
  destruct (validatePath path) as [|q] eqn:Hv; [done|].
  destruct (validateHandler h) as [|f]; [done|].
  apply validatePath_inr in Hv as (_ & Hhead & _).
  unfold RadixRouter_buildTree, readTreeByMethod.
  destruct (treeByMethod st !! m) as [tree|] eqn:Hm.
  - pose proof (Tree_build_rootKeys tree q f Hhead (Hst _ _ Hm)) as Hk.
    destruct (Tree_build tree q f) as [c tree']. simpl in *.
    intros m' t. destruct (decide (m = m')) as [<-|Hne].
    + rewrite lookup_insert_eq. by intros [= <-].
    + rewrite lookup_insert_ne by done. apply Hst.
  - case_bool_decide; [done|].
    pose proof (Tree_build_rootKeys Tree_new q f Hhead) as Hk.
    destruct (Tree_build Tree_new q f) as [c tree']. simpl in *.
    intros m' t. destruct (decide (m = m')) as [<-|Hne].
    + rewrite lookup_insert_eq. intros [= <-]. apply Hk. intros k c'. simpl.
      by rewrite lookup_empty.
    + rewrite lookup_insert_ne by done. apply Hst.
Qed.

(** After registrations the root of every trie holds the slash only: every
    registered path starts with it. *)
Lemma registerAll_rootKeys rs st st' :
  (∀ m' tree, treeByMethod st !! m' = Some tree → rootKeys tree) →
  registerAll st rs = Some st' →
  ∀ m' tree, treeByMethod st' !! m' = Some tree → rootKeys tree.
Proof.
  revert st. induction rs as [|[m q h] rs IH]; intros st Hst; simpl; [by intros [= <-]|].
  pose proof (register_rootKeys st m (JsStr q) (JsFunction h) Hst) as Hk.
  destruct (register st m (JsStr q) (JsFunction h)) as [[[]| |] st1]; try done.
  by apply IH.
Qed.

Lemma head_clearPath (p : JsString) c : head (clearPath p) = Some c → head p = Some c.
Proof.
  destruct (clearPath_prefix p) as [k Hk]. rewrite Hk at 2.
  by destruct (clearPath p).
Qed.

(** X16: a request path that does not start with a slash (the empty path
    included) is never matched: whatever has been registered, with or
    without parameters, its lookup calls the not-found handler, provided
    that reading the trie of the method does not give a member of
    [Object.prototype]. *)
Theorem X16_lookup_without_leading_slash notFoundCb rs st m (p : JsString) :
  registerAll (RadixRouter_new notFoundCb) rs = Some st →
  head p ≠ Some "/"%char →
  readTreeByMethod st m ≠ InheritedMember →
  lookup st m p = Returned [mkInvocation (default noopFn notFoundCb) None].
Proof.
  intros Hall Hp Hm.
  change (default noopFn notFoundCb) with (notFondHandler (RadixRouter_new notFoundCb)).
  rewrite <- (registerAll_notFondHandler _ _ _ Hall).
  unfold lookup, resolve, RadixRouter_traverseForHandler.
  destruct (readTreeByMethod st m) as [tree| |] eqn:Hs; [|done|done].
  assert (treeByMethod st !! m = Some tree) as Ht.
  { unfold readTreeByMethod in Hs. destruct (treeByMethod st !! m); [congruence|].
    by case_bool_decide. }
  assert (rootKeys tree) as Hk.
  { eapply (registerAll_rootKeys rs _ st); [|done|done]. intros m' t. simpl.
    by rewrite lookup_empty. }
  unfold Tree_traverse. cbn [traverseLoop].
  case_decide as Hlen; [|done].
  destruct (nodeByPathFragment tree !! slice 0 1 (clearPath p)) as [c|] eqn:E; [|done].
  exfalso. apply Hp, head_clearPath. apply Hk in E.
  rewrite slice_0 in E. by destruct (clearPath p); simplify_eq/=.
Qed.

(** The theorem of X16 for the request [items/42] on [regs_id_42]. *)
Lemma X16_witness :
  lookup (routerAfter regs_id_42) "GET" "items/42" = Returned [mkInvocation noopFn None].
Proof.
  apply (X16_lookup_without_leading_slash None regs_id_42).
  - vm_compute. reflexivity.
  - vm_compute. discriminate.
  - vm_compute. discriminate.
Defined.

(** ** Patterns with two or more parameters *)

Section two_parameters.
Context (H : Handler → Prop).

(** Once the path has a colon behind the cursor, or ahead of it with no
    descriptor to attach before the cursor passes it, every leaf the loop
    makes has that colon in its key: an iteration that attaches a
    descriptor keeps the path up to the cursor. *)
Lemma buildLoop_colon_ahead fuel ps h : ∀ i (path : JsString) key node node' c,
  path !! c = Some ":"%char →
  Forall (λ d, startIndex d < i ∨ c < startIndex d) ps →
  NodeAll (colonOrIn H) key node →
  buildLoop fuel ps h i path node = Some node' →
  NodeAll (colonOrIn H) key node'.
Proof.
  induction fuel as [|fuel IH]; intros i path key node node' c Hc Hps Hn; simpl; [done|].
  case_decide as Hi; [|by intros [= <-]].
  destruct (attachParam ps i path node) as [node1 path1] eqn:Ha.
  assert (NodeAll (colonOrIn H) key node1 ∧ path1 !! c = Some ":"%char) as [Hn1 Hc1].
  { unfold attachParam in Ha. destruct (getAtPathIndex ps i) as [d|] eqn:Hg; simplify_eq; [|done].
    apply getAtPathIndex_Some in Hg as [Hin Hd].
    rewrite Forall_forall in Hps. specialize (Hps _ Hin).
    split; [destruct Hn; by constructor|].
    rewrite lookup_app_l by (rewrite length_slice_0; lia).
    rewrite slice_lookup, decide_True by lia. done. }
  destruct (buildLoop fuel ps h (i + 1) path1 _) as [child'|] eqn:Hb; simpl; [|done].
  intros [= <-]. apply NodeAll_setChildTree; [done|].
  apply NodeAllMap_insert; [exact (proj2 (NodeAll_inv _ _ _ Hn1))|].
  eapply (IH _ _ _ _ _ c); [done| | |exact Hb].
  - eapply Forall_impl; [exact Hps|]. simpl. intros. lia.
  - apply NodeAll_childOrNew; [|exact (proj2 (NodeAll_inv _ _ _ Hn1))].
    case_decide as Hleaf; [|done]. intros g _. left.
    apply list_elem_of_lookup. exists c.
    rewrite slice_lookup, decide_True; [done|].
    apply lookup_lt_Some in Hc1. lia.
Qed.

(** A path with two descriptors or more: up to the first descriptor the
    loop makes plain nodes; cutting the first descriptor out leaves the
    colon of the second in the path, ahead of the cursor, and the second
    descriptor is looked for at its index in the path as it was. *)
Lemma buildLoop_two_params fuel d1 d2 rest h (path : JsString) : ∀ i key node node',
  i ≤ startIndex d1 → startIndex d1 < endIndex d1 ≤ startIndex d2 →
  path !! startIndex d2 = Some ":"%char →
  Forall (λ d, startIndex d2 ≤ startIndex d) (d2 :: rest) →
  NodeAll (colonOrIn H) key node →
  buildLoop fuel (d1 :: d2 :: rest) h i path node = Some node' →
  NodeAll (colonOrIn H) key node'.
Proof.
  intros i key node node' Hi He Hcolon Hrest. revert i key node node' Hi.
  pose proof (lookup_lt_Some _ _ _ Hcolon) as Hlen.
  induction fuel as [|fuel IH]; intros i key node node' Hi Hn; [done|].
  rewrite buildLoop_step by lia.
  destruct (decide (i = startIndex d1)) as [->|Hne].
  - unfold attachParam, getAtPathIndex. simpl. rewrite decide_True by done. simpl.
    set (path1 := slice 0 (startIndex d1) path ++ slice (endIndex d1) (length path) path).
    set (c := startIndex d2 - (endIndex d1 - startIndex d1)).
    assert (path1 !! c = Some ":"%char) as Hc1.
    { unfold path1, c. rewrite lookup_app_r; rewrite length_slice_0 by lia; [|lia].
      rewrite slice_to_end, lookup_drop. rewrite <- Hcolon. f_equal. lia. }
    pose proof (lookup_lt_Some _ _ _ Hc1) as Hlen1.
    destruct (buildLoop fuel _ h (startIndex d1 + 1) path1 _) as [child'|] eqn:Hb;
      simpl; [|done].
    intros [= <-]. destruct Hn as [key frag ct pr lh HP Hct].
    apply (NodeAll_setChildTree _ key (mkNode frag ct (Some d1) lh)); [by constructor|].
    apply NodeAllMap_insert; [done|].
    eapply (buildLoop_colon_ahead _ _ _ _ _ _ _ _ c); [exact Hc1| | |exact Hb].
    + constructor; [lia|].
      eapply Forall_impl; [exact Hrest|]. simpl. intros d Hd. right. unfold c. lia.
    + apply NodeAll_childOrNew; [|done].
      rewrite decide_False; [done|]. unfold c in Hlen1. lia.
  - assert (getAtPathIndex (d1 :: d2 :: rest) i = None) as Hnone.
    { destruct (getAtPathIndex (d1 :: d2 :: rest) i) as [d|] eqn:E; [|done].
      apply getAtPathIndex_Some in E as [[->|Hin]%elem_of_cons Hd]; [lia|].
      rewrite Forall_forall in Hrest. specialize (Hrest _ Hin). lia. }
    unfold attachParam. rewrite Hnone.
    destruct (buildLoop fuel _ h (i + 1) path _) as [child'|] eqn:Hb; simpl; [|done].
    intros [= <-]. apply NodeAll_setChildTree; [done|].
    apply NodeAllMap_insert; [exact (proj2 (NodeAll_inv _ _ _ Hn))|].
    eapply IH; [| |exact Hb]; [lia|].
    apply NodeAll_childOrNew; [|exact (proj2 (NodeAll_inv _ _ _ Hn))].
    rewrite decide_False; [done|]. lia.
Qed.

(** A build keeps the invariant: with at most one descriptor the handler
    has to be one of [H]; with two or more the key of the leaf has a colon
    whatever the handler. *)
Lemma Tree_build_colonOrIn tree path h :
  (∀ ps, parseParams path = Some ps → length ps ≤ 1 → H h) →
  NodeAllMap (colonOrIn H) (nodeByPathFragment tree) →
  NodeAllMap (colonOrIn H) (nodeByPathFragment (Tree_build tree path h).2).
Proof.
  intros Hh Ht.
  destruct (parseParams_is_Some path) as [ps Hps].
  destruct (decide (length ps ≤ 1)) as [Hle|Hgt].
  { apply Tree_build_NodeAll; [|done| |done].
    - intros ps' k d pr lh _ _ HP. exact HP.
    - intros k g [= <-]. right. by apply (Hh ps). }
  destruct (getAtPathIndex ps 1) as [d|] eqn:Hone.
  { unfold Tree_build. rewrite Hps. case_decide; [|done]. by rewrite Hone. }
  rewrite (Tree_build_loop _ _ _ _ Hps Hone).
  destruct (buildLoop _ _ _ _ _ _) as [n|] eqn:Hb; [|done].
  simpl. refine (proj2 (NodeAll_inv _ [] n _)).
  destruct ps as [|d1 [|d2 rest]]; simpl in Hgt; [lia|lia|].
  destruct (parseParams_in_order _ _ Hps) as [Hd Ho].
  pose proof (Forall_inv Hd) as (H1 & _ & [H1lt _] & _).
  pose proof (Forall_inv (Forall_inv_tail Hd)) as (_ & H2colon & [H2lt _] & _).
  pose proof (Ho 0 1 d1 d2 eq_refl eq_refl ltac:(lia)) as H12.
  eapply (buildLoop_two_params _ d1 d2 rest h path 1); [lia|done|done| | |exact Hb].
  - apply Forall_cons. split; [done|].
    apply Forall_lookup. intros j d Hj.
    pose proof (Ho 1 (S (S j)) d2 d eq_refl Hj ltac:(lia)). simpl. lia.
  - by apply NodeAll_rootNode.
Qed.
End two_parameters.

(** X17: routes with two or more parameters are out of reach.  After any
    sequence of registrations on a new router, a lookup of a request path
    without colon that calls a handler calls one that was registered, under
    the method of the lookup, with a path of at most one parameter.  The leaf
    of a path with two or more parameters is stored under a key that still
    has the colon of the second parameter ([Tree.#buildTree] looks for the
    second descriptor at its index in the path as it was before the first
    was cut out), and such a key is never a prefix of a path without
    colon. *)
Theorem X17_two_parameters_are_out_of_reach notFoundCb rs st m (p : JsString) h pp :
  registerAll (RadixRouter_new notFoundCb) rs = Some st →
  ":"%char ∉ p →
  lookup st m p = Returned [mkInvocation h (Some pp)] →
  registeredSimply m rs h.
Proof.
  intros Hall Hp Hl.
  apply lookup_match_iff in Hl as (tree & node & Ht & Hw & Hh).
  pose proof (registerAll_tree_invariant
    (λ tree, NodeAllMap (colonOrIn (registeredSimply m rs)) (nodeByPathFragment tree))
    m rs (RadixRouter_new notFoundCb) st) as Hinv.
  specialize (Hinv
    ltac:(intros t q g Hin; apply Tree_build_colonOrIn; intros ps Hps Hle; by exists q, ps)
    (NodeAllMap_new _ _ _) Hall).
  unfold treeOf in Hinv. rewrite Ht in Hinv. simpl in Hinv.
  edestruct traverseLoop_NodeAll as (key & Hnode & Hsub); [exact Hinv| |exact Hw|]; [done|].
  apply NodeAll_inv in Hnode as [Hnode _].
  destruct (Hnode h Hh) as [Hcolon|Hsimple]; [|done].
  destruct Hp. apply Hsub in Hcolon.
  destruct (clearPath_prefix p) as [k ->]. apply elem_of_app. by left.
Qed.

(** The theorem of X17 on a router with [/a/:x/b/:y] and [/items/:id]:
    the request [/items/42] finds the route with one parameter. *)
Lemma X17_witness : registeredSimply "GET" regs_x_y_id (userFn 2).
Proof.
  apply (X17_two_parameters_are_out_of_reach None regs_x_y_id (routerAfter regs_x_y_id)
           "GET" "/items/42" (userFn 2) {[ ("id" : JsString) := ("42" : JsString) ]}).
  - vm_compute. reflexivity.
  - apply (bool_decide_unpack _). vm_compute. reflexivity.
  - vm_compute. reflexivity.
Defined.

(** ** The methods that throw *)

(** X18: the methods for which the router throws.  On every router that
    calls of [register] can produce from a new one, whatever their arguments
    and whether they return or throw, [lookup(m, p)] throws exactly when [m]
    is the name of a member of [Object.prototype] ([constructor],
    [toString], [__proto__] and the like), for every path, and then with the
    TypeError of calling [tree.traverse]; for every other method it
    returns.  Under such a name [register] cannot add a route either: with
    valid arguments it throws the TypeError of calling [tree.build] and
    leaves the router as it was. *)
Theorem X18_lookup_throws_for_inherited_names st m p :
  reachable st →
  ((∃ e, lookup st m p = Thrown e) ↔ m ∈ objectPrototypeKeys)
  ∧ (m ∈ objectPrototypeKeys →
     lookup st m p = Thrown (TypeError "tree.traverse is not a function"))
  ∧ (m ∉ objectPrototypeKeys → ∃ invocations, lookup st m p = Returned invocations)
  ∧ (m ∈ objectPrototypeKeys →
     ∀ q h, validatePath (JsStr q) = inr q →
       register st m (JsStr q) (JsFunction h)
       = (Thrown (TypeError "tree.build is not a function"), st)).
Proof.
  intros Hst.
  assert (m ∈ objectPrototypeKeys →
          lookup st m p = Thrown (TypeError "tree.traverse is not a function")) as Hin.
  { intros Hm. unfold lookup, resolve, RadixRouter_traverseForHandler, readTreeByMethod.
    rewrite (reachable_no_inherited_tree _ _ Hst Hm). by rewrite bool_decide_eq_true_2. }
  assert (m ∉ objectPrototypeKeys → ∃ invocations, lookup st m p = Returned invocations)
    as Hout.
  { intros Hm.
    destruct (lookup_returns st m p (readTreeByMethod_not_inherited _ _ Hm))
      as (r & _ & Hl & _).
    eauto. }
  split_and!; [|done|done|].
  - split.
    + intros [e He]. destruct (decide (m ∈ objectPrototypeKeys)) as [|Hm]; [done|].
      destruct (Hout Hm) as [invs Hr]. congruence.
    + intros Hm. eexists. by apply Hin.
  - intros Hm q h Hv. unfold register. rewrite Hv. simpl.
    unfold RadixRouter_buildTree, readTreeByMethod.
    rewrite (reachable_no_inherited_tree _ _ Hst Hm). by rewrite bool_decide_eq_true_2.
Qed.

(** The theorem of X18 for [toString] on a router on which a registration
    under [toString] was tried. *)
Lemma X18_witness :
  lookup (register (routerAfter regs_items_id) "toString" (JsStr "/items")
            (JsFunction (userFn 2))).2 "toString" "/items"
  = Thrown (TypeError "tree.traverse is not a function").
Proof.
  refine (proj1 (proj2 (X18_lookup_throws_for_inherited_names _ "toString" "/items" _)) _).
  - apply reachable_register. unfold routerAfter, regs_items_id. simpl.
    apply (reachable_register (RadixRouter_new None) "GET" (JsStr "/items/:id")
             (JsFunction (userFn 1))).
    apply reachable_new.
  - apply (bool_decide_unpack _). vm_compute. reflexivity.
Defined.

(** ** One pattern among routes without parameter *)

(** The traversal needs no more fuel than the path is long, and in a trie
    without descriptors it hands the parameters through. *)
Lemma traverseLoop_fuel f1 : ∀ f2 i (p : JsString) m nv pp,
  length p + 1 - i < f1 → length p + 1 - i < f2 →
  traverseLoop f1 i p m nv pp = traverseLoop f2 i p m nv pp.
Proof.
  induction f1 as [|f1 IH]; intros f2 i p m nv pp H1 H2; [lia|].
  destruct f2 as [|f2]; [lia|]. simpl.
  case_decide as Hi; [|done].
  destruct (m !! slice 0 i p) as [c|]; [|done].
  destruct (param c) as [d|].
  - pose proof (captureParam_length d i p pp Hi).
    destruct (captureParam d i p pp) as [p1 pp1]. simpl in *. apply IH; lia.
  - apply IH; lia.
Qed.

Lemma traverseLoop_NoParam_pp fuel : ∀ i (p : JsString) m nv pp pp1 r,
  NoParamMap m → traverseLoop fuel i p m nv pp = Some r →
  traverseLoop fuel i p m nv pp1 = Some (r.1, pp1).
Proof.
  induction fuel as [|fuel IH]; intros i p m nv pp pp1 r Hm; simpl; [done|].
  case_decide; [|by intros [= <-]].
  destruct (m !! slice 0 i p) as [c|] eqn:E; [|by intros [= <-]].
  destruct (NoParam_inv c (Hm _ _ E)) as [-> Hc]. by apply IH.
Qed.

Lemma leafResult_kind r :
  leafResult r = match kindOf r with
                 | Some (Some g) => Some (mkTraverseResult g r.2)
                 | _ => None
                 end.
Proof. destruct r as [[n|] pp]; unfold leafResult, kindOf; simpl; [|done]. by destruct (leafHandler n). Qed.

Section pattern_over_literals.
Context (pre nm : JsString).
Hypothesis pre_length : 2 ≤ length pre.

(** Building the pattern and building its collapsed form, a path without
    parameter, make the same nodes; the pattern stores its descriptor
    besides. *)
Lemma buildLoop_pattern_or_collapsed suf h k : ∀ j fb1 fb2 node,
  j + k = length pre → 1 ≤ j →
  length (routePattern pre nm suf) + 1 - j < fb1 →
  length (pre ++ suf) + 1 - j < fb2 →
  ∃ n' n'',
    buildLoop fb1 [patternParam pre nm] h j (routePattern pre nm suf) node = Some n'
    ∧ buildLoop fb2 [] h j (pre ++ suf) node = Some n''
    ∧ sameButParam pre (patternParam pre nm) k n' n''.
Proof.
  pose proof (routePattern_length pre suf nm) as Hpat.
  assert (length (pre ++ suf) = length pre + length suf) as Hcol by by rewrite length_app.
  induction k as [|k IH]; intros j fb1 fb2 node Hjk Hj H1 H2.
  - assert (j = length pre) as -> by lia.
    destruct fb1 as [|fb1]; [lia|].
    rewrite (buildLoop_attach _ _ _ _ _ _ (patternParam pre nm));
      [|lia|by rewrite getAtPathIndex_patternParam, decide_True
       |by apply Forall_singleton
       |rewrite route_collapse; lia].
    rewrite route_collapse.
    destruct (buildLoop_is_Some fb2 [] h (length pre) (pre ++ suf) node) as [n'' Hn''];
      [done|lia|].
    assert (buildLoop (S fb1) [] h (length pre) (pre ++ suf) node = Some n'') as Hn1.
    { rewrite <- Hn''. apply buildLoop_nil_fuel; lia. }
    pose proof (buildLoop_nil_childTree _ _ _ _ _ _ node Hn1 eq_refl) as Hself.
    rewrite Hn1 in Hself. injection Hself as Hself.
    rewrite (buildLoop_nil_childTree _ _ _ _ node n'' (setParam node (patternParam pre nm)) Hn1)
      by done.
    eexists _, n''. split_and!; [done|done|]. simpl. rewrite Hself at 2. done.
  - assert (j < length pre) as Hlt by lia.
    destruct fb1 as [|fb1]; [lia|]. destruct fb2 as [|fb2]; [lia|].
    rewrite !buildLoop_step by lia.
    unfold attachParam at 1. rewrite getAtPathIndex_patternParam, decide_False by lia.
    change (attachParam [] j (pre ++ suf) node) with (node, pre ++ suf). cbv beta iota.
    assert (slice 0 j (pre ++ suf) = take j pre) as Hkey.
    { rewrite slice_0. by rewrite take_app_le by lia. }
    rewrite route_key, Hkey by lia.
    assert (childOrNew (childTree node) j (routePattern pre nm suf) h
            = childOrNew (childTree node) j (pre ++ suf) h) as ->.
    { unfold childOrNew. rewrite route_key, Hkey by lia.
      destruct (childTree node !! take j pre); [done|].
      unfold newNode. by rewrite !decide_False by lia. }
    destruct (IH (j + 1) fb1 fb2 (childOrNew (childTree node) j (pre ++ suf) h))
      as (c' & c'' & -> & -> & Hrel); [lia..|].
    cbn [mbind option_bind]. eexists _, _. split_and!; [done|done|].
    exists c', c''. replace (length pre - S k) with j by lia.
    cbn [childTree setChildTree]. split_and!.
    + by rewrite lookup_insert_eq.
    + unfold setChildTree. cbn. by rewrite insert_insert_eq.
    + done.
Qed.

Lemma request_key j x :
  j ≤ length pre - 1 → take (length pre - 1) pre `prefix_of` x →
  slice 0 j x = take j pre ∧ length pre - 1 ≤ length x.
Proof.
  intros Hj [t ->]. rewrite slice_0, length_app, length_take. split; [|lia].
  rewrite take_app_le by (rewrite length_take; lia).
  rewrite take_take. f_equal. lia.
Qed.

Lemma captured_key j x pp :
  j ≤ length pre - 1 → length pre - 1 ≤ length x →
  slice 0 j (captureParam (patternParam pre nm) (length pre - 1) x pp).1 = slice 0 j x.
Proof.
  intros Hj Hx. unfold captureParam. cbn [fst]. rewrite !slice_0.
  rewrite take_app_le by (rewrite length_take; lia).
  rewrite take_take. f_equal. lia.
Qed.

Lemma throughParam_key j x pp :
  j ≤ length pre - 1 → slice 0 j x = take j pre → j ≤ length x →
  slice 0 j (throughParam pre nm x pp).1 = take j pre
  ∧ j ≤ length (throughParam pre nm x pp).1.
Proof.
  intros Hj Hkey Hx. unfold throughParam. case_decide as Hp; [|done].
  destruct (request_key j x Hj Hp) as [_ Hlen].
  rewrite captured_key by done. split; [done|].
  pose proof (captureParam_length (patternParam pre nm) (length pre - 1) x pp Hlen). lia.
Qed.

Lemma throughParam_length x pp : length (throughParam pre nm x pp).1 ≤ length x.
Proof.
  unfold throughParam. case_decide as Hp; [|done].
  destruct (request_key 0 x ltac:(lia) Hp) as [_ Hlen].
  pose proof (captureParam_length (patternParam pre nm) (length pre - 1) x pp Hlen). lia.
Qed.

Lemma traverseLoop_off_route fw j (x key : JsString) c m nv pp :
  (j ≤ length x → slice 0 j x ≠ key) →
  traverseLoop fw j x (<[key := c]> m) nv pp = traverseLoop fw j x m nv pp.
Proof.
  intros Hkey. destruct fw as [|fw]; [done|]. simpl.
  case_decide as Hj; [|done]. by rewrite lookup_insert_ne by (symmetry; auto).
Qed.

Lemma throughParam_off_route j x pp :
  j ≤ length pre - 1 → (j ≤ length x → slice 0 j x ≠ take j pre) →
  throughParam pre nm x pp = (x, pp).
Proof.
  intros Hj Hkey. unfold throughParam. case_decide as Hp; [|done].
  destruct (request_key j x Hj Hp) as [Hk Hlen]. destruct Hkey; [lia|done].
Qed.

Lemma traverseLoop_through_param k : ∀ j n' n'' fw x nv pp,
  j + S k = length pre → 1 ≤ j →
  sameButParam pre (patternParam pre nm) (S k) n' n'' → NoParam n'' →
  length x + 1 - j < fw →
  ∃ r' r'',
    traverseLoop fw j x (childTree n') nv pp = Some r'
    ∧ traverseLoop fw j (throughParam pre nm x pp).1 (childTree n'') nv
        (throughParam pre nm x pp).2 = Some r''
    ∧ kindOf r' = kindOf r'' ∧ r'.2 = r''.2.
Proof.
  induction k as [|k IH]; intros j n' n'' fw x nv pp Hjk Hj Hrel Hno Hfw.
  all: destruct Hrel as (c' & c'' & Hc'' & -> & Hrel).
  all: replace (length pre - _) with j in * by lia.
  all: destruct (NoParam_inv _ Hno) as [_ Hmap].
  all: pose proof (Hmap _ _ Hc'') as Hnoc.
  all: destruct (NoParam_inv _ Hnoc) as [Hpc Hmapc].
  all: cbn [childTree setChildTree].
  all: destruct (decide (j ≤ length x ∧ slice 0 j x = take j pre)) as [[Hjx Hkey]|Hoff];
    [|rewrite (throughParam_off_route j) by (try lia; tauto);
      rewrite traverseLoop_off_route by tauto;
      destruct (traverseLoop_is_Some fw j x (childTree n'') nv pp) as [r Hr]; [done|];
      by exists r, r].
  all: destruct fw as [|fw]; [lia|].
  - (* the node that holds the descriptor *)
    simpl in Hrel. subst c'.
    rewrite (traverseLoop_capture _ _ _ _ _ _ (setParam c'' (patternParam pre nm))
               (patternParam pre nm)); [|done|by rewrite Hkey, lookup_insert_eq|done].
    assert (take (length pre - 1) pre `prefix_of` x) as Hp.
    { replace (length pre - 1) with j by lia. rewrite <- Hkey, slice_0.
      exists (drop j x). by rewrite take_drop. }
    destruct (throughParam_key j x pp ltac:(lia) Hkey Hjx) as [Hkey' Hjx'].
    rewrite (traverseLoop_literal _ _ _ _ _ _ c''); [|done|by rewrite Hkey'|done].
    unfold throughParam in *. rewrite decide_True in * by done.
    replace (length pre - 1) with j in * by lia.
    cbn [childTree setParam].
    destruct (traverseLoop_is_Some fw (j + 1) (captureParam (patternParam pre nm) j x pp).1
                (childTree c'') (Some c'') (captureParam (patternParam pre nm) j x pp).2)
      as [r Hr].
    { pose proof (captureParam_length (patternParam pre nm) j x pp Hjx). lia. }
    destruct (decide (j + 1 ≤ length (captureParam (patternParam pre nm) j x pp).1)) as [Hl|Hl].
    + rewrite (traverseLoop_node_irrelevant _ _ _ _ _ (Some c'')) by done.
      by exists r, r.
    + destruct fw as [|fw]; [done|].
      rewrite !traverseLoop_exit by lia. by eexists _, _.
  - (* above it *)
    assert (param c' = None ∧ leafHandler c' = leafHandler c'') as [Hpc' Hlh].
    { destruct Hrel as (? & ? & _ & -> & _). by rewrite <- Hpc. }
    rewrite (traverseLoop_literal _ _ _ _ _ _ c'); [|done|by rewrite Hkey, lookup_insert_eq|done].
    destruct (throughParam_key j x pp ltac:(lia) Hkey Hjx) as [Hkey' Hjx'].
    rewrite (traverseLoop_literal _ _ _ _ _ _ c''); [|done|by rewrite Hkey'|done].
    destruct (IH (j + 1) c' c'' fw x (Some c') pp) as (r' & r'' & Hr' & Hr'' & Hk & Hpp);
      [lia|lia|done|done|lia|].
    exists r'. rewrite Hr'.
    destruct (decide (j + 1 ≤ length (throughParam pre nm x pp).1)) as [Hl|Hl].
    + rewrite (traverseLoop_node_irrelevant _ _ _ _ _ (Some c')) by done.
      by exists r''.
    + destruct fw as [|fw]; [pose proof (throughParam_length x pp); lia|].
      rewrite traverseLoop_exit in Hr'' |- * by lia. injection Hr'' as <-.
      eexists. split_and!; [done|done| |done].
      rewrite Hk. unfold kindOf. simpl. by rewrite Hlh.
Qed.

End pattern_over_literals.

Lemma Tree_traverse_pattern_over_literals pre suf nm h tree tree' x :
  ":"%char ∉ pre → 2 ≤ length pre → "/"%char ∉ nm → ":"%char ∉ suf →
  suf = [] ∨ head suf = Some "/"%char → (suf = [] → "?"%char ∉ nm) →
  NoParamMap (nodeByPathFragment tree) →
  Tree_build tree (routePattern pre nm suf) h = (Returned (), tree') →
  Tree_traverse tree' x =
  Some (match mergeKind (kindAt tree (throughParam pre nm x ∅).1)
                (addedAt (throughParam pre nm x ∅).1 (pre ++ suf) h) with
        | Some (Some g) => Some (mkTraverseResult g (throughParam pre nm x ∅).2)
        | _ => None
        end).
Proof.
  intros Hpre Hlen Hnm Hsuf Hshape Hq Hnp Hb.
  pose proof (parseParams_routePattern pre suf Hpre Hlen Hsuf Hshape nm Hnm Hq) as Hps.
  rewrite (Tree_build_loop _ _ _ _ Hps) in Hb
    by (rewrite getAtPathIndex_patternParam; apply decide_False; lia).
  destruct (buildLoop_pattern_or_collapsed pre nm Hlen suf h (length pre - 1) 1
              (S (length (routePattern pre nm suf))) (S (length (pre ++ suf))) (rootNode tree))
    as (n' & n'' & Hn' & Hn'' & Hrel); [lia..|].
  rewrite Hn' in Hb. injection Hb as <-.
  assert (":"%char ∉ pre ++ suf) as Hcol by (rewrite elem_of_app; tauto).
  assert (NoParam (rootNode tree)) as Hroot by by constructor.
  pose proof (buildLoop_NoParam _ _ _ _ _ _ Hroot Hn'') as Hno.
  destruct (Tree_build_kind tree (pre ++ suf) h (mkTree (childTree n'')) Hnp Hcol)
    as [Hnp'' Hk].
  { rewrite (Tree_build_loop _ _ _ [] (parseParams_no_colon _ Hcol)) by done.
    by rewrite Hn''. }
  replace (length pre - 1) with (S (length pre - 2)) in Hrel by lia.
  destruct (traverseLoop_through_param pre nm Hlen (length pre - 2) 1 n' n'' (S (length x)) x
              None ∅) as (r' & r'' & Hr' & Hr'' & Hkind & Hpp); [lia|done|done|done|lia|].
  unfold Tree_traverse. cbn [nodeByPathFragment]. rewrite Hr'. cbn [fmap option_fmap option_map].
  f_equal. rewrite leafResult_kind, Hkind, Hpp, <- Hk.
  pose proof (traverseLoop_NoParam _ _ _ _ _ _ _ Hnp'' Hr'') as ->.
  pose proof (traverseLoop_NoParam_pp _ _ _ _ _ _ ∅ _ Hnp'' Hr'') as Hr0.
  unfold kindAt. cbn [nodeByPathFragment] in Hr0 |- *.
  rewrite (traverseLoop_fuel _ (S (length x))); [|lia|pose proof (throughParam_length pre nm Hlen x ∅); lia].
  rewrite Hr0. done.
Qed.

(** X19: a pattern with one parameter registered after routes without
    parameter.  A lookup then goes through the node that holds the
    descriptor whenever the request (less one trailing slash) begins with the
    prefix of the pattern less its last character: the text from the end of
    the prefix to the next slash (else question mark, else the end) is cut
    out and becomes the value of the parameter.  What is left of the request
    is looked up as among the routes without parameter, with the prefix and
    suffix of the pattern as one more path registered last; the handler
    found there is called with the parameter, also when it is the handler of
    a route that has none.  A request that does not begin that way is looked
    up as it is and its handler gets the empty object. *)
Theorem X19_pattern_after_literal_routes notFoundCb rs st m (pre nm suf : JsString) h st' r :
  registerAll (RadixRouter_new notFoundCb) rs = Some st →
  Forall (λ r, regMethod r = m → ":"%char ∉ regPath r) rs →
  ":"%char ∉ pre → 2 ≤ length pre → "/"%char ∉ nm → ":"%char ∉ suf →
  suf = [] ∨ head suf = Some "/"%char → (suf = [] → "?"%char ∉ nm) →
  register st m (JsStr (routePattern pre nm suf)) (JsFunction h) = (Returned (), st') →
  lookup st' m r =
  Returned (match specKind (pathsOf m rs ++ [(pre ++ suf, h)])
                    (throughParam pre nm (clearPath r) ∅).1 with
            | Some (Some g) =>
                [mkInvocation g (Some (throughParam pre nm (clearPath r) ∅).2)]
            | _ => [mkInvocation (default noopFn notFoundCb) None]
            end).
Proof.
  intros Hall Hfree Hpre Hlen Hnm Hsuf Hshape Hq Hreg.
  apply register_Returned in Hreg as (_ & tree' & Hb & ->).
  assert (∀ q g, mkReg m q g ∈ rs → ":"%char ∉ q) as Hcolon.
  { intros q g Hin. rewrite Forall_forall in Hfree. by apply (Hfree _ Hin). }
  destruct (registerAll_trieInv m rs _ [] st Hcolon (trieInv_new m notFoundCb) Hall)
    as [Hnp Hk].
  rewrite lookup_setTree_eq.
  rewrite (Tree_traverse_pattern_over_literals pre suf nm h _ tree' _
             Hpre Hlen Hnm Hsuf Hshape Hq Hnp Hb).
  cbn [app] in Hk. rewrite Hk, specKind_app. cbn [specKind]. rewrite mergeKind_None_r.
  rewrite (registerAll_notFondHandler _ _ _ Hall).
  by destruct (mergeKind _ _) as [[g|]|].
Qed.

(** The theorem of X19 for [/items/42] and then [/items/:id]: the request
    [/items/42] is cut to [/items/], where no handler is. *)
Lemma X19_witness :
  lookup (routerAfter regs_42_id) "GET" "/items/42" = Returned [mkInvocation noopFn None].
Proof.
  apply (X19_pattern_after_literal_routes None [mkReg "GET" "/items/42" (userFn 2)]
           (routerAfter [mkReg "GET" "/items/42" (userFn 2)]) "GET" "/items/" "id" []
           (userFn 1) (routerAfter regs_42_id) "/items/42").
  - vm_compute. reflexivity.
  - apply (bool_decide_unpack _). vm_compute. reflexivity.
  - apply (bool_decide_unpack _). vm_compute. reflexivity.
  - simpl. lia.
  - apply (bool_decide_unpack _). vm_compute. reflexivity.
  - apply not_elem_of_nil.
  - left. reflexivity.
  - intros _. apply (bool_decide_unpack _). vm_compute. reflexivity.
  - vm_compute. reflexivity.
Defined.
